(** * LCCP calculation core of [lccp_app.py]

    Shallow embedding of the four core functions of the Life-Cycle Climate
    Performance model: [calc_baseline_direct], [calc_baseline_indirect],
    [build_direct_cf] and [build_indirect_cf].

    Numbers.  Python's [float] is IEEE-754 binary64; it is embedded as Rocq's
    primitive [float], which is the same format with the same
    round-to-nearest-even operations, so every arithmetic step below rounds
    exactly as the interpreter does.  The argument [lifetime_years] is
    annotated [int] in the source and is used only as the right operand of
    [float * int], where the interpreter first converts it to binary64.
    [calc_baseline_direct] and [calc_baseline_indirect] below take the
    converted value; the module [IntLifetime] embeds the same two functions
    at the int itself, conversion included.  An [int] literal compared with
    or multiplied by a float ([0] in [max], [50], [20], [6], [10]) is the
    float of the same value.

    Errors.  Two operations of the core can raise: true division, which
    raises [ZeroDivisionError] on a zero divisor, and the conversion of an
    int [lifetime_years] that is beyond the binary64 range, which raises
    [OverflowError]; the functions that divide or convert return a
    [result].

    Strings.  [str] is embedded as [string] restricted to ASCII; [strip],
    [upper] and [lower] act on ASCII white space and ASCII letters. *)

From Stdlib Require Import Floats ZArith Bool String Ascii List Lia.
Import ListNotations.

Set Warnings "-inexact-float".

Open Scope float_scope.

(** ** Python run-time operations used by the core *)

Inductive exn : Type :=
| ZeroDivisionError
| OverflowError.

Inductive result (A : Type) : Type :=
| Ok (a : A)
| Raise (e : exn).

Arguments Ok {A} a.
Arguments Raise {A} e.

Definition bind {A B : Type} (r : result A) (k : A -> result B) : result B :=
  match r with
  | Ok a => k a
  | Raise e => Raise e
  end.

Notation "x <- r ;; k" := (bind r (fun x => k))
  (at level 61, r at next level, right associativity).

(** [a / b] on floats: raises on a zero divisor (of either sign). *)
Definition py_truediv (a b : float) : result float :=
  if b =? 0 then Raise ZeroDivisionError else Ok (a / b).

(** [max(a, b)] with two arguments: the first is kept unless the second is
    strictly greater ([b > a]). *)
Definition py_max (a b : float) : float :=
  if a <? b then b else a.

Module Str.

Local Open Scope char_scope.
Local Open Scope string_scope.

(** ASCII code points for which [str.isspace] holds. *)
Definition isspace (c : ascii) : bool :=
  let n := N_of_ascii c in
  ((9 <=? n) && (n <=? 13) || (28 <=? n) && (n <=? 32))%N.

Fixpoint lstrip (s : string) : string :=
  match s with
  | EmptyString => EmptyString
  | String c s' => if isspace c then lstrip s' else s
  end.

Fixpoint rstrip (s : string) : string :=
  match s with
  | EmptyString => EmptyString
  | String c s' =>
      match rstrip s' with
      | EmptyString => if isspace c then EmptyString else String c EmptyString
      | r => String c r
      end
  end.

Definition strip (s : string) : string := rstrip (lstrip s).

Definition upper_char (c : ascii) : ascii :=
  let n := N_of_ascii c in
  if ((97 <=? n) && (n <=? 122))%N then ascii_of_N (n - 32) else c.

Definition lower_char (c : ascii) : ascii :=
  let n := N_of_ascii c in
  if ((65 <=? n) && (n <=? 90))%N then ascii_of_N (n + 32) else c.

Fixpoint map (f : ascii -> ascii) (s : string) : string :=
  match s with
  | EmptyString => EmptyString
  | String c s' => String (f c) (map f s')
  end.

Definition upper : string -> string := map upper_char.
Definition lower : string -> string := map lower_char.

Definition startswith (s p : string) : bool := prefix p s.

(** [sub in s]. *)
Fixpoint contains (sub s : string) : bool :=
  match s with
  | EmptyString => prefix sub EmptyString
  | String _ s' => prefix sub s || contains sub s'
  end.

End Str.

(** ** Configuration constants *)

Definition DEFAULT_LIFETIME_YEARS : float := 15.
Definition DEFAULT_COOLING_HOURS : float := 1000.
Definition DEFAULT_HEATING_HOURS : float := 600.
Definition DEFAULT_GRID_KGCO2_PER_KWH : float := 0.38.
Definition EMBODIED_KGCO2_PER_KG_MATERIAL : float := 5.
Definition DEFAULT_REFRIG_GWP : float := 675.0.

(** ** Data classes *)

Record SystemInputs : Type := {
  capacity_btuh : float;
  seer2 : float;
  hspf2 : float;
  refrigerant_charge_kg : float;
  reclaimed_refrigerant_pct : float;
  annual_leak_rate_pct : float;
  eol_loss_pct : float;
  material_weight_kg : float
}.

Record DirectCFInputs : Type := {
  reclaimed_per_unit_pct : float;
  unit_volume_cuft : float;
  manufactured_in_usa : bool;
  leak_detectors : bool;
  refrigerant_safety_class : string
}.

Record IndirectCFInputs : Type := {
  compressor_type : string;
  demand_flex : bool;
  connected_thermostat : bool
}.

(** ** Core calculations

    The two baseline functions on floats: [lifetime_years] is the float that
    the int of the source converts to.  The conversion and the
    [OverflowError] it can raise are in [IntLifetime] below. *)

(** The local variables of [calc_baseline_direct] that the properties below
    refer to, as they stand when the function reaches its [return]. *)
Record DirectLocals : Type := {
  total_leak_kg : float;
  remaining_kg : float;
  eol_leak_kg : float;
  refrigerant_emissions : float;
  reclaimed_credit : float;
  embodied : float
}.

(** The body of [calc_baseline_direct] up to its [return] statement. *)
Definition calc_baseline_direct_locals
    (system : SystemInputs)
    (refrigerant_gwp lifetime_years embodied_factor : float)
  : result DirectLocals :=
  let charge := refrigerant_charge_kg system in
  annual_leak_frac <- py_truediv (annual_leak_rate_pct system) 100.0 ;;
  eol_loss_frac <- py_truediv (eol_loss_pct system) 100.0 ;;
  let annual_leak_kg := charge * annual_leak_frac in
  let total_leak_kg := annual_leak_kg * lifetime_years in
  let remaining_kg := py_max (charge - total_leak_kg) 0 in
  let eol_leak_kg := remaining_kg * eol_loss_frac in
  let refrigerant_emissions := (total_leak_kg + eol_leak_kg) * refrigerant_gwp in
  reclaimed_frac <- py_truediv (reclaimed_refrigerant_pct system) 100.0 ;;
  let reclaimed_credit := charge * reclaimed_frac * refrigerant_gwp * (-0.5) in
  let embodied := material_weight_kg system * embodied_factor in
  Ok {| total_leak_kg := total_leak_kg;
        remaining_kg := remaining_kg;
        eol_leak_kg := eol_leak_kg;
        refrigerant_emissions := refrigerant_emissions;
        reclaimed_credit := reclaimed_credit;
        embodied := embodied |}.

Definition calc_baseline_direct
    (system : SystemInputs)
    (refrigerant_gwp lifetime_years embodied_factor : float)
  : result float :=
  l <- calc_baseline_direct_locals system refrigerant_gwp lifetime_years
         embodied_factor ;;
  Ok (refrigerant_emissions l + reclaimed_credit l + embodied l).

Definition calc_baseline_indirect
    (system : SystemInputs) (lifetime_years grid_factor : float)
  : result float :=
  let cap := capacity_btuh system in
  cooling_kwh <- py_truediv (cap * DEFAULT_COOLING_HOURS)
                            (seer2 system * 1000.0) ;;
  heating_kwh <- py_truediv (cap * DEFAULT_HEATING_HOURS)
                            (hspf2 system * 1000.0) ;;
  let annual_kwh := cooling_kwh + heating_kwh in
  let annual_kgco2 := annual_kwh * grid_factor in
  Ok (annual_kgco2 * lifetime_years).

(** ** The core at the annotated type of [lifetime_years]

    The source multiplies a float by the int [lifetime_years]
    ([annual_leak_kg * lifetime_years], [annual_kgco2 * lifetime_years]).
    The interpreter converts the int to binary64, rounding to nearest with
    ties to even, and raises [OverflowError] when the rounded value is beyond
    the binary64 range; then it multiplies. *)

(** [float(n)] for an int [n]. *)
Definition float_of_int (n : Z) : result float :=
  match binary_normalize prec emax n 0 false with
  | S754_infinity _ => Raise OverflowError
  | x => Ok (SF2Prim x)
  end.

(** [a * n] for a float [a] and an int [n]. *)
Definition py_mul_float_int (a : float) (n : Z) : result float :=
  b <- float_of_int n ;; Ok (a * b).

Module IntLifetime.

(** The body of [calc_baseline_direct] up to its [return] statement. *)
Definition calc_baseline_direct_locals
    (system : SystemInputs)
    (refrigerant_gwp : float) (lifetime_years : Z) (embodied_factor : float)
  : result DirectLocals :=
  let charge := refrigerant_charge_kg system in
  annual_leak_frac <- py_truediv (annual_leak_rate_pct system) 100.0 ;;
  eol_loss_frac <- py_truediv (eol_loss_pct system) 100.0 ;;
  let annual_leak_kg := charge * annual_leak_frac in
  total_leak_kg <- py_mul_float_int annual_leak_kg lifetime_years ;;
  let remaining_kg := py_max (charge - total_leak_kg) 0 in
  let eol_leak_kg := remaining_kg * eol_loss_frac in
  let refrigerant_emissions := (total_leak_kg + eol_leak_kg) * refrigerant_gwp in
  reclaimed_frac <- py_truediv (reclaimed_refrigerant_pct system) 100.0 ;;
  let reclaimed_credit := charge * reclaimed_frac * refrigerant_gwp * (-0.5) in
  let embodied := material_weight_kg system * embodied_factor in
  Ok {| total_leak_kg := total_leak_kg;
        remaining_kg := remaining_kg;
        eol_leak_kg := eol_leak_kg;
        refrigerant_emissions := refrigerant_emissions;
        reclaimed_credit := reclaimed_credit;
        embodied := embodied |}.

Definition calc_baseline_direct
    (system : SystemInputs)
    (refrigerant_gwp : float) (lifetime_years : Z) (embodied_factor : float)
  : result float :=
  l <- calc_baseline_direct_locals system refrigerant_gwp lifetime_years
         embodied_factor ;;
  Ok (refrigerant_emissions l + reclaimed_credit l + embodied l).

Definition calc_baseline_indirect
    (system : SystemInputs) (lifetime_years : Z) (grid_factor : float)
  : result float :=
  let cap := capacity_btuh system in
  cooling_kwh <- py_truediv (cap * DEFAULT_COOLING_HOURS)
                            (seer2 system * 1000.0) ;;
  heating_kwh <- py_truediv (cap * DEFAULT_HEATING_HOURS)
                            (hspf2 system * 1000.0) ;;
  let annual_kwh := cooling_kwh + heating_kwh in
  let annual_kgco2 := annual_kwh * grid_factor in
  py_mul_float_int annual_kgco2 lifetime_years.

End IntLifetime.

(** ** Correction factors

    Each [if]/[elif] block of the source updates the accumulator [cf_val];
    a block is embedded as a function from the accumulator before it to the
    accumulator after it, and the builder chains the blocks in source
    order. *)

Definition reclaimed_block (cf : DirectCFInputs) (cf_val : float) : float :=
  if 50 <=? reclaimed_per_unit_pct cf then cf_val * 0.9
  else if 20 <=? reclaimed_per_unit_pct cf then cf_val * 0.95
  else cf_val.

Definition volume_block (cf : DirectCFInputs) (cf_val : float) : float :=
  if unit_volume_cuft cf <=? 6 then cf_val * 0.97
  else if unit_volume_cuft cf <=? 10 then cf_val * 0.99
  else cf_val.

Definition usa_block (cf : DirectCFInputs) (cf_val : float) : float :=
  if manufactured_in_usa cf then cf_val * 0.98 else cf_val.

Definition leak_block (cf : DirectCFInputs) (cf_val : float) : float :=
  if leak_detectors cf then cf_val * 0.95 else cf_val.

Definition safety_block (cf : DirectCFInputs) (cf_val : float) : float :=
  let safety := Str.upper (Str.strip (refrigerant_safety_class cf)) in
  if String.eqb safety "2L" then cf_val * 0.995
  else if String.eqb safety "3" then cf_val * 1.01
  else cf_val.

Definition build_direct_cf (cf : DirectCFInputs) : float :=
  let cf_val := 1.0 in
  let cf_val := reclaimed_block cf cf_val in
  let cf_val := volume_block cf cf_val in
  let cf_val := usa_block cf cf_val in
  let cf_val := leak_block cf cf_val in
  let cf_val := safety_block cf cf_val in
  cf_val.

Definition compressor_block (cf : IndirectCFInputs) (cf_val : float) : float :=
  let ctype := Str.strip (Str.lower (compressor_type cf)) in
  if Str.startswith ctype "1" then cf_val * 1.00
  else if Str.contains "2" ctype then cf_val * 0.95
  else if Str.contains "var" ctype then cf_val * 0.90
  else cf_val.

Definition demand_flex_block (cf : IndirectCFInputs) (cf_val : float) : float :=
  if demand_flex cf then cf_val * 0.97 else cf_val.

Definition thermostat_block (cf : IndirectCFInputs) (cf_val : float) : float :=
  if connected_thermostat cf then cf_val * 0.98 else cf_val.

Definition build_indirect_cf (cf : IndirectCFInputs) : float :=
  let cf_val := 1.0 in
  let cf_val := compressor_block cf cf_val in
  let cf_val := demand_flex_block cf cf_val in
  let cf_val := thermostat_block cf cf_val in
  cf_val.

(** ** The direct baseline as the specification words it *)

(** The specification's [max(charge_kg - total_leak_kg, 0)], in the words of
    its description: the charge that has not leaked, and zero once the
    lifetime leak exceeds the charge.  It is written on the two masses and
    does not go through [py_max]. *)
Definition spec_remaining_kg (charge_kg total_leak_kg : float) : float :=
  if charge_kg <? total_leak_kg then 0 else charge_kg - total_leak_kg.

(** The formula of the specification for the direct baseline, written as one
    expression tree over the inputs, in the specification's own variable
    names. *)
Definition spec_baseline_direct
    (system : SystemInputs)
    (refrigerant_gwp lifetime_years embodied_factor : float) : float :=
  let charge_kg := refrigerant_charge_kg system in
  let total_leak_kg :=
    charge_kg * (annual_leak_rate_pct system / 100) * lifetime_years in
  let remaining_kg := spec_remaining_kg charge_kg total_leak_kg in
  let eol_leak_kg := remaining_kg * (eol_loss_pct system / 100) in
  let refrigerant_emissions := (total_leak_kg + eol_leak_kg) * refrigerant_gwp in
  let reclaimed_credit :=
    charge_kg * (reclaimed_refrigerant_pct system / 100) * refrigerant_gwp
    * (-0.5) in
  let embodied := material_weight_kg system * embodied_factor in
  refrigerant_emissions + reclaimed_credit + embodied.

(** A system whose whole charge is reclaimed refrigerant and that neither
    leaks nor weighs anything: the credit is the only non-zero term. *)
Definition all_credit_system : SystemInputs :=
  {| capacity_btuh := 36000; seer2 := 15.0; hspf2 := 8.5;
     refrigerant_charge_kg := 10; reclaimed_refrigerant_pct := 100;
     annual_leak_rate_pct := 0; eol_loss_pct := 0;
     material_weight_kg := 0 |}.

(** The scenario of the specification's end-to-end test. *)
Definition reference_system : SystemInputs :=
  {| capacity_btuh := 36000; seer2 := 15.0; hspf2 := 8.5;
     refrigerant_charge_kg := 3.0; reclaimed_refrigerant_pct := 0;
     annual_leak_rate_pct := 4; eol_loss_pct := 85;
     material_weight_kg := 140 |}.

(** Feature sets used as test points of the correction-factor builders. *)
Definition direct_neutral : DirectCFInputs :=
  {| reclaimed_per_unit_pct := 0; unit_volume_cuft := 50;
     manufactured_in_usa := false; leak_detectors := false;
     refrigerant_safety_class := "1" |}.

Definition direct_all_discounts : DirectCFInputs :=
  {| reclaimed_per_unit_pct := 50; unit_volume_cuft := 6;
     manufactured_in_usa := true; leak_detectors := true;
     refrigerant_safety_class := "2L" |}.

Definition direct_penalty_only : DirectCFInputs :=
  {| reclaimed_per_unit_pct := 0; unit_volume_cuft := 50;
     manufactured_in_usa := false; leak_detectors := false;
     refrigerant_safety_class := "3" |}.

Definition indirect_neutral : IndirectCFInputs :=
  {| compressor_type := "1-stg"; demand_flex := false;
     connected_thermostat := false |}.

(** ** Inputs at which the properties are evaluated *)

Definition reclaimed_50 : DirectCFInputs :=
  {| reclaimed_per_unit_pct := 50; unit_volume_cuft := 50;
     manufactured_in_usa := false; leak_detectors := false;
     refrigerant_safety_class := "1" |}.

Definition volume_6 : DirectCFInputs :=
  {| reclaimed_per_unit_pct := 0; unit_volume_cuft := 6;
     manufactured_in_usa := false; leak_detectors := false;
     refrigerant_safety_class := "1" |}.

Definition compressor_12var : IndirectCFInputs :=
  {| compressor_type := " 12-VAR "; demand_flex := false;
     connected_thermostat := false |}.

Definition compressor_var2 : IndirectCFInputs :=
  {| compressor_type := "Var-2"; demand_flex := false;
     connected_thermostat := false |}.

Definition compressor_variable : IndirectCFInputs :=
  {| compressor_type := "Variable"; demand_flex := false;
     connected_thermostat := false |}.

Definition zero_seer2_system : SystemInputs :=
  {| capacity_btuh := 36000; seer2 := 0; hspf2 := 8.5;
     refrigerant_charge_kg := 3.0; reclaimed_refrigerant_pct := 0;
     annual_leak_rate_pct := 4; eol_loss_pct := 85;
     material_weight_kg := 140 |}.

(** A one-kilogram system whose lifetime leak total is 0.94 kg. *)
Definition one_kg_system : SystemInputs :=
  {| capacity_btuh := 36000; seer2 := 15.0; hspf2 := 8.5;
     refrigerant_charge_kg := 1.0; reclaimed_refrigerant_pct := 0;
     annual_leak_rate_pct := 4; eol_loss_pct := 85;
     material_weight_kg := 140 |}.

Definition zero_charge_system : SystemInputs :=
  {| capacity_btuh := 36000; seer2 := 15.0; hspf2 := 8.5;
     refrigerant_charge_kg := 0; reclaimed_refrigerant_pct := 30;
     annual_leak_rate_pct := 4; eol_loss_pct := 85;
     material_weight_kg := 140 |}.

Definition no_leak_system : SystemInputs :=
  {| capacity_btuh := 36000; seer2 := 15.0; hspf2 := 8.5;
     refrigerant_charge_kg := 3.0; reclaimed_refrigerant_pct := 0;
     annual_leak_rate_pct := 0; eol_loss_pct := 85;
     material_weight_kg := 140 |}.

(** A charge near the top of the binary64 range leaking 200 percent a year:
    the annual leak mass overflows. *)
Definition overflow_system : SystemInputs :=
  {| capacity_btuh := 36000; seer2 := 15.0; hspf2 := 8.5;
     refrigerant_charge_kg := 1e308; reclaimed_refrigerant_pct := 0;
     annual_leak_rate_pct := 200; eol_loss_pct := 85;
     material_weight_kg := 140 |}.

(** ** The computation of [main]

    [main] reads its inputs from Streamlit widgets, computes the results and
    hands them to display, chart and export widgets.  The computation between
    the two (the construction of the three input records, the four core
    calls, the adjusted values and the total) is embedded here as a function
    of the values the widgets returned; the widgets themselves are outside
    the embedding. *)

Module Main.

(** The values returned by the input widgets, under the names of the local
    variables of [main]. *)
Record Widgets : Type := {
  lifetime : float;
  grid : float;
  refrigerant_gwp : float;
  embodied_factor : float;
  cap : float;
  seer2 : float;
  hspf2 : float;
  charge : float;
  reclaimed_init : float;
  annual_leak : float;
  eol_loss : float;
  material_wt : float;
  d_reclaimed : float;
  d_volume : float;
  d_usa : bool;
  d_leakdet : bool;
  d_safety : string;
  i_comp : string;
  i_df : bool;
  i_ct : bool
}.

(** The locals of [main] that are displayed, charted and exported. *)
Record Results : Type := {
  base_direct : float;
  base_indirect : float;
  direct_cf_mult : float;
  indirect_cf_mult : float;
  adj_direct : float;
  adj_indirect : float;
  total_lccp : float
}.

Definition system (w : Widgets) : SystemInputs :=
  Build_SystemInputs (cap w) (seer2 w) (hspf2 w) (charge w)
    (reclaimed_init w) (annual_leak w) (eol_loss w) (material_wt w).

Definition d_cf_inputs (w : Widgets) : DirectCFInputs :=
  Build_DirectCFInputs (d_reclaimed w) (d_volume w) (d_usa w) (d_leakdet w)
    (d_safety w).

Definition i_cf_inputs (w : Widgets) : IndirectCFInputs :=
  Build_IndirectCFInputs (i_comp w) (i_df w) (i_ct w).

Definition main (w : Widgets) : result Results :=
  base_direct <- calc_baseline_direct (system w) (refrigerant_gwp w)
                   (lifetime w) (embodied_factor w) ;;
  base_indirect <- calc_baseline_indirect (system w) (lifetime w) (grid w) ;;
  let direct_cf_mult := build_direct_cf (d_cf_inputs w) in
  let indirect_cf_mult := build_indirect_cf (i_cf_inputs w) in
  let adj_direct := base_direct * direct_cf_mult in
  let adj_indirect := base_indirect * indirect_cf_mult in
  let total_lccp := adj_direct + adj_indirect in
  Ok {| base_direct := base_direct;
        base_indirect := base_indirect;
        direct_cf_mult := direct_cf_mult;
        indirect_cf_mult := indirect_cf_mult;
        adj_direct := adj_direct;
        adj_indirect := adj_indirect;
        total_lccp := total_lccp |}.

(** [lo <= x <= hi]. *)
Definition between (lo x hi : float) : bool := (lo <=? x) && (x <=? hi).

(** The minimum and maximum that [main] passes to each numeric widget, and
    the option lists of the two select boxes. *)
Definition in_widget_ranges (w : Widgets) : bool :=
  between 10 (lifetime w) 25
  && between 0.1 (grid w) 1.5
  && between 1.0 (refrigerant_gwp w) 4000.0
  && between 0.1 (embodied_factor w) 20.0
  && between 9000.0 (cap w) 120000.0
  && between 8.0 (seer2 w) 30.0
  && between 5.0 (hspf2 w) 14.0
  && between 0.5 (charge w) 15.0
  && between 0 (reclaimed_init w) 100
  && between 0 (annual_leak w) 30
  && between 0 (eol_loss w) 100
  && between 10.0 (material_wt w) 350.0
  && between 0 (d_reclaimed w) 100
  && between 1.0 (d_volume w) 80.0
  && existsb (String.eqb (d_safety w)) ["1"; "2L"; "2"; "3"]%string
  && existsb (String.eqb (i_comp w)) ["1-stg"; "2-stg"; "variable"]%string.

(** The values of the widgets before the user changes anything. *)
Definition initial : Widgets :=
  {| lifetime := DEFAULT_LIFETIME_YEARS;
     grid := DEFAULT_GRID_KGCO2_PER_KWH;
     refrigerant_gwp := DEFAULT_REFRIG_GWP;
     embodied_factor := EMBODIED_KGCO2_PER_KG_MATERIAL;
     cap := 36000.0; seer2 := 15.0; hspf2 := 8.5; charge := 3.0;
     reclaimed_init := 0; annual_leak := 4; eol_loss := 85;
     material_wt := 140.0;
     d_reclaimed := 0; d_volume := 12.0; d_usa := false; d_leakdet := false;
     d_safety := "1"; i_comp := "1-stg"; i_df := false; i_ct := false |}.

End Main.

(** What [main] computes from the initial widget values. *)
Definition initial_results : Main.Results :=
  {| Main.base_direct := 2603.5;
     Main.base_indirect := 28164.705882352941;
     Main.direct_cf_mult := 1.0;
     Main.indirect_cf_mult := 1.0;
     Main.adj_direct := 2603.5;
     Main.adj_indirect := 28164.705882352941;
     Main.total_lccp := 30768.205882352941 |}.

(** ** Further inputs at which properties are evaluated *)

Fixpoint all_space (s : string) : bool :=
  match s with
  | EmptyString => true
  | String c s' => Str.isspace c && all_space s'
  end.

Definition indirect_all_discounts : IndirectCFInputs :=
  {| compressor_type := "variable"; demand_flex := true;
     connected_thermostat := true |}.

(** Leaks 10 percent a year for 15 years: more than the charge. *)
Definition fully_leaked_system : SystemInputs :=
  {| capacity_btuh := 36000; seer2 := 15.0; hspf2 := 8.5;
     refrigerant_charge_kg := 3.0; reclaimed_refrigerant_pct := 40;
     annual_leak_rate_pct := 10; eol_loss_pct := 85;
     material_weight_kg := 140 |}.


(** ** Binary64 rounding, as integer arithmetic

    The rounding of [SpecFloat.binary_round_aux] at precision 53 and maximal
    exponent 1024, restated on integers: a mantissa with its round and
    sticky bits is the integer [2 * m + r] together with the sticky bit. *)

Open Scope Z_scope.

(** Order key of a non-NaN value: class, then exponent, then mantissa. *)
Definition sf_key (x : spec_float) : Z * Z * Z :=
  match x with
  | S754_nan => (0, 0, 0)
  | S754_zero _ => (0, 0, 0)
  | S754_infinity true => (-2, 0, 0)
  | S754_infinity false => (2, 0, 0)
  | S754_finite true m e => (-1, - e, - Zpos m)
  | S754_finite false m e => (1, e, Zpos m)
  end.

(** Classes of a value. *)
Definition sf_is_nan (x : spec_float) : bool :=
  match x with S754_nan => true | _ => false end.

(** Lexicographic order on keys. *)
Definition key_lt (a b : Z * Z * Z) : Prop :=
  let '(a1, a2, a3) := a in
  let '(b1, b2, b3) := b in
  a1 < b1 \/ (a1 = b1 /\ (a2 < b2 \/ (a2 = b2 /\ a3 < b3))).

(** A shift record as one integer: the mantissa followed by the round bit;
    the sticky bit is kept apart. *)
Definition enc (mrs : shr_record) : Z := 2 * shr_m mrs + Z.b2z (shr_r mrs).

(** Round to nearest, ties to even, of [N / 2] with sticky bit [s]. *)
Definition rne (N : Z) (s : bool) : Z :=
  if Z.odd N then
    if s then N / 2 + 1 else if Z.even (N / 2) then N / 2 else N / 2 + 1
  else N / 2.

(** Round and sticky bits of a location. *)
Definition loc_r (l : location) : bool :=
  match l with loc_Inexact Eq | loc_Inexact Gt => true | _ => false end.

Definition loc_s (l : location) : bool :=
  match l with loc_Inexact Lt | loc_Inexact Gt => true | _ => false end.

(** Exponent of the last bit kept for a value below [2 ^ E]. *)
Definition fexp64 (E : Z) : Z := Z.max (E - 53) (-1074).

(** First stage: shift to the target exponent and round to nearest even. *)
Definition rnd1 (m e : Z) (l : location) : Z * Z :=
  let N0 := 2 * m + Z.b2z (loc_r l) in
  let K := Z.max (fexp64 (Zdigits2 m + e) - e) 0 in
  (rne (N0 / 2 ^ K) (loc_s l || negb (N0 mod 2 ^ K =? 0)), e + K).

(** Second stage: renormalise after a carry out of the mantissa. *)
Definition rnd2 (m1 e1 : Z) : Z * Z :=
  let K2 := Z.max (fexp64 (Zdigits2 m1 + e1) - e1) 0 in
  (m1 / 2 ^ K2, e1 + K2).

(** The float of a rounded mantissa: zero, finite, or infinite on overflow. *)
Definition mk_float (sx : bool) (m2 e2 : Z) : spec_float :=
  match m2 with
  | Z0 => S754_zero sx
  | Zpos p => if e2 <=? 971 then S754_finite sx p e2 else S754_infinity sx
  | Zneg _ => S754_nan
  end.

(** [binary_round_aux] at binary64, on integers. *)
Definition bra_model (sx : bool) (m e : Z) (l : location) : spec_float :=
  let '(m1, e1) := rnd1 m e l in
  let '(m2, e2) := rnd2 m1 e1 in
  mk_float sx m2 e2.

(** Number of bits dropped by the first stage. *)
Definition shift_of (m e : Z) : Z := Z.max (fexp64 (Zdigits2 m + e) - e) 0.

(** A mantissa and its location as one integer. *)
Definition enc_loc (m : Z) (l : location) : Z := 2 * m + Z.b2z (loc_r l).

(** Order on (mantissa, location) pairs at one exponent. *)
Definition loc_le (m : Z) (l : location) (m' : Z) (l' : location) : Prop :=
  enc_loc m l <= enc_loc m' l'
  /\ (enc_loc m l = enc_loc m' l' -> loc_s l = true -> loc_s l' = true).

(** Zero of either sign, positive finite or plus infinity. *)
Definition sf_nonneg (x : spec_float) : bool :=
  match x with
  | S754_zero _ | S754_finite false _ _ | S754_infinity false => true
  | _ => false
  end.

Definition sf_finite (x : spec_float) : bool :=
  match x with
  | S754_zero _ | S754_finite _ _ _ => true
  | _ => false
  end.

Definition sf_is_zero (x : spec_float) : bool :=
  match x with S754_zero _ => true | _ => false end.

(** Exponent and scaled numerator chosen by [SFdiv_core_binary]. *)
Definition div_exp (mx ex my ey : Z) : Z :=
  Z.min (fexp64 (Zdigits2 mx + ex - (Zdigits2 my + ey))) (ex - ey).

Definition div_num (mx ex my ey : Z) : Z :=
  mx * 2 ^ (ex - ey - div_exp mx ex my ey).

(** The float 1.0. *)
Definition sf_one : spec_float := S754_finite false 4503599627370496 (-52).

(** The float [2 ^ K], for [K] between -1022 and 1023. *)
Definition sf_pow2 (K : Z) : spec_float :=
  S754_finite false 4503599627370496 (K - 52).

Definition sf_abs_le (x : spec_float) (K : Z) : bool :=
  SFleb (SFabs x) (sf_pow2 K).

(** The float [2 ^ K]. *)
Definition pow2 (K : Z) : float := SF2Prim (sf_pow2 K).

(** [|x| <= 2 ^ K]. *)
Definition abs_le (x : float) (K : Z) : bool := (abs x <=? pow2 K)%float.

(** * Binary64 arithmetic: order and rounding *)

Lemma SFcompare_key x y :
  sf_is_nan x = false -> sf_is_nan y = false ->
  match SFcompare x y with
  | Some Lt => key_lt (sf_key x) (sf_key y)
  | Some Eq => sf_key x = sf_key y
  | Some Gt => key_lt (sf_key y) (sf_key x)
  | None => False
  end.
Proof.
  destruct x as [sx|sx| |sx mx ex], y as [sy|sy| |sy my ey]; cbn; try discriminate;
    intros _ _;
    try (destruct sx; cbn; try lia; try reflexivity; fail);
    try (destruct sy; cbn; try lia; try reflexivity; fail);
    try (destruct sx, sy; cbn; try lia; try reflexivity; fail).
  change (Pos.compare_cont Eq mx my) with (mx ?= my)%positive.
  destruct sx, sy; cbn; try lia;
    destruct (Z.compare_spec ex ey); try lia;
    destruct (Pos.compare_spec mx my); cbn; try lia; subst; try reflexivity.
Qed.

Lemma SFcompare_some x y c :
  SFcompare x y = Some c -> sf_is_nan x = false /\ sf_is_nan y = false.
Proof. destruct x, y; cbn; try discriminate; auto. Qed.

Lemma SFcompare_none x y :
  SFcompare x y = None -> sf_is_nan x = true \/ sf_is_nan y = true.
Proof. destruct x, y; cbn; try discriminate; auto. Qed.

Ltac sf_cmp x y :=
  let c := fresh "c" in
  let E := fresh "E" in
  let K := fresh "K" in
  destruct (SFcompare x y) as [c|] eqn:E;
  [ pose proof (SFcompare_key x y (proj1 (SFcompare_some _ _ _ E))
                  (proj2 (SFcompare_some _ _ _ E))) as K;
    rewrite E in K; destruct c
  | ].

Ltac key_solve :=
  repeat match goal with
         | H : key_lt _ _ |- _ => unfold key_lt in H
         end;
  repeat match goal with
         | |- context [sf_key ?x] => destruct (sf_key x) as [[? ?] ?]
         | H : context [sf_key ?x] |- _ => destruct (sf_key x) as [[? ?] ?]
         end;
  cbn in *;
  repeat match goal with
         | H : (_, _) = (_, _) |- _ => inversion H; clear H
         end;
  subst;
  try discriminate; try reflexivity; try lia; try (exfalso; lia).

Lemma SFltb_leb_false x y : SFltb x y = true -> SFleb y x = false.
Proof.
  unfold SFltb, SFleb. sf_cmp x y; try discriminate. intros _.
  sf_cmp y x; key_solve.
Qed.

Lemma SFleb_ltb_false x y : SFleb x y = true -> SFltb y x = false.
Proof.
  unfold SFltb, SFleb. sf_cmp x y; try discriminate; intros _;
  sf_cmp y x; key_solve.
Qed.

Lemma SFltb_leb x y : SFltb x y = true -> SFleb x y = true.
Proof. unfold SFltb, SFleb. destruct (SFcompare x y) as [[]|]; auto. Qed.

Lemma SFleb_trans x y z : SFleb x y = true -> SFleb y z = true -> SFleb x z = true.
Proof.
  unfold SFleb. sf_cmp x y; try discriminate; intros _;
  sf_cmp y z; try discriminate; intros _;
  (sf_cmp x z; [key_solve ..| ]);
  apply SFcompare_none in E1; apply SFcompare_some in E, E0; 
  destruct E, E0, E1; congruence.
Qed.

Lemma SFleb_ltb_trans x y z : SFleb x y = true -> SFltb y z = true -> SFltb x z = true.
Proof.
  unfold SFleb, SFltb. sf_cmp x y; try discriminate; intros _;
  sf_cmp y z; try discriminate; intros _;
  (sf_cmp x z; [key_solve ..| ]);
  apply SFcompare_none in E1; apply SFcompare_some in E, E0; 
  destruct E, E0, E1; congruence.
Qed.

Lemma SFltb_leb_trans x y z : SFltb x y = true -> SFleb y z = true -> SFltb x z = true.
Proof.
  unfold SFleb, SFltb. sf_cmp x y; try discriminate; intros _;
  sf_cmp y z; try discriminate; intros _;
  (sf_cmp x z; [key_solve ..| ]);
  apply SFcompare_none in E1; apply SFcompare_some in E, E0; 
  destruct E, E0, E1; congruence.
Qed.

Lemma SFleb_total x y :
  sf_is_nan x = false -> sf_is_nan y = false -> SFleb x y = false -> SFltb y x = true.
Proof.
  intros Hx Hy. unfold SFleb, SFltb.
  sf_cmp x y; try discriminate; intros _.
  - sf_cmp y x; key_solve. apply SFcompare_none in E0. destruct E0; congruence.
  - apply SFcompare_none in E. destruct E; congruence.
Qed.

(** * Rounding *)

Lemma iter_pos_nat {A} (f : A -> A) p x :
  SpecFloat.iter_pos f p x = Nat.iter (Pos.to_nat p) f x.
Proof.
  revert x. induction p as [p IH|p IH|]; intro x; cbn [SpecFloat.iter_pos].
  - rewrite !IH. rewrite Pos2Nat.inj_xI.
    replace (S (2 * Pos.to_nat p)) with (Pos.to_nat p + S (Pos.to_nat p))%nat by lia.
    rewrite Nat.iter_add. rewrite Nat.iter_succ_r. reflexivity.
  - rewrite !IH. rewrite Pos2Nat.inj_xO.
    replace (2 * Pos.to_nat p)%nat with (Pos.to_nat p + Pos.to_nat p)%nat by lia.
    rewrite Nat.iter_add. reflexivity.
  - reflexivity.
Qed.

Lemma shr_1_spec mrs :
  0 <= shr_m mrs ->
  enc (shr_1 mrs) = enc mrs / 2
  /\ shr_s (shr_1 mrs) = shr_s mrs || Z.odd (enc mrs)
  /\ 0 <= shr_m (shr_1 mrs).
Proof.
  destruct mrs as [m r s]. unfold enc. cbn [shr_m shr_r shr_s]. intros Hm.
  assert (Hd : (2 * m + Z.b2z r) / 2 = m).
  { destruct r; cbn [Z.b2z]; [| rewrite Z.add_0_r, Z.mul_comm; apply Z.div_mul; lia ].
    symmetry. apply Z.div_unique with (r := 1); lia. }
  assert (Ho : Z.odd (2 * m + Z.b2z r) = r).
  { destruct r; cbn [Z.b2z]. 
    - rewrite Z.add_comm, Z.odd_add_mul_2. reflexivity.
    - rewrite Z.add_0_r, Z.odd_mul. reflexivity. }
  rewrite Hd, Ho.
  destruct m as [|p|p]; [| |lia].
  - cbn. destruct r, s; cbn; repeat split; lia.
  - destruct p; cbn [shr_1 shr_m shr_r shr_s Z.b2z]; repeat split;
      try lia; try (destruct r, s; reflexivity).
Qed.

Lemma mod_pow2_succ a n :
  0 <= n ->
  (a mod 2 ^ (Z.succ n) =? 0) = (a mod 2 ^ n =? 0) && negb (Z.odd (a / 2 ^ n)).
Proof.
  intros Hn. rewrite Z.pow_succ_r by assumption.
  assert (Hp : 0 < 2 ^ n) by (apply Z.pow_pos_nonneg; lia).
  rewrite (Z.mul_comm 2), Z.rem_mul_r by lia.
  pose proof (Z.mod_pos_bound a (2 ^ n) Hp) as B1.
  pose proof (Z.mod_pos_bound (a / 2 ^ n) 2 eq_refl) as B2.
  rewrite (Zmod_odd (a / 2 ^ n)) in *.
  destruct (Z.odd (a / 2 ^ n)); cbn [negb].
  - rewrite andb_false_r. apply Z.eqb_neq. nia.
  - rewrite andb_true_r, Z.mul_0_r, Z.add_0_r. reflexivity.
Qed.

Lemma shr_iter_spec n mrs :
  0 <= shr_m mrs ->
  enc (Nat.iter n shr_1 mrs) = enc mrs / 2 ^ Z.of_nat n
  /\ shr_s (Nat.iter n shr_1 mrs)
     = shr_s mrs || negb (enc mrs mod 2 ^ Z.of_nat n =? 0)
  /\ 0 <= shr_m (Nat.iter n shr_1 mrs).
Proof.
  intros Hm. induction n as [|n (IH1 & IH2 & IH3)].
  - cbn [Nat.iter Z.of_nat]. rewrite Z.pow_0_r, Z.div_1_r, Z.mod_1_r.
    cbn. rewrite orb_false_r. auto.
  - change (Nat.iter (S n) shr_1 mrs) with (shr_1 (Nat.iter n shr_1 mrs)).
    destruct (shr_1_spec _ IH3) as (S1 & S2 & S3).
    rewrite Nat2Z.inj_succ.
    repeat split; [| | exact S3].
    + rewrite S1, IH1, Z.pow_succ_r by lia.
      rewrite Z.div_div by (try apply Z.pow_pos_nonneg; lia).
      f_equal. lia.
    + rewrite S2, IH2, IH1, mod_pow2_succ by lia.
      destruct (shr_s mrs), (enc mrs mod 2 ^ Z.of_nat n =? 0),
        (Z.odd (enc mrs / 2 ^ Z.of_nat n)); reflexivity.
Qed.

Lemma shr_spec mrs e n :
  0 <= shr_m mrs ->
  enc (fst (shr mrs e n)) = enc mrs / 2 ^ Z.max n 0
  /\ shr_s (fst (shr mrs e n))
     = shr_s mrs || negb (enc mrs mod 2 ^ Z.max n 0 =? 0)
  /\ 0 <= shr_m (fst (shr mrs e n))
  /\ snd (shr mrs e n) = e + Z.max n 0.
Proof.
  intros Hm. destruct n as [|p|p]; cbn [shr fst snd Z.max].
  - rewrite Z.pow_0_r, Z.div_1_r, Z.mod_1_r. cbn. rewrite orb_false_r.
    repeat split; auto; lia.
  - rewrite iter_pos_nat. 
    destruct (shr_iter_spec (Pos.to_nat p) mrs Hm) as (S1 & S2 & S3).
    rewrite positive_nat_Z in S1, S2.
    replace (Z.max (Z.pos p) 0) with (Z.pos p) by lia.
    repeat split; auto.
  - replace (Z.max (Z.neg p) 0) with 0 by lia.
    rewrite Z.pow_0_r, Z.div_1_r, Z.mod_1_r. cbn. rewrite orb_false_r.
    repeat split; auto; lia.
Qed.

Lemma enc_m mrs : shr_m mrs = enc mrs / 2.
Proof.
  unfold enc. destruct (shr_r mrs); cbn [Z.b2z].
  - apply Z.div_unique with (r := 1); lia.
  - rewrite Z.add_0_r, Z.mul_comm. symmetry. apply Z.div_mul. lia.
Qed.

Lemma enc_odd mrs : shr_r mrs = Z.odd (enc mrs).
Proof.
  unfold enc. destruct (shr_r mrs); cbn [Z.b2z].
  - rewrite Z.add_comm, Z.odd_add_mul_2. reflexivity.
  - rewrite Z.add_0_r, Z.odd_mul. reflexivity.
Qed.

Lemma rne_spec mrs :
  round_nearest_even (shr_m mrs) (loc_of_shr_record mrs) = rne (enc mrs) (shr_s mrs).
Proof.
  unfold rne. rewrite <- enc_odd, <- enc_m.
  destruct mrs as [m r s]; cbn [shr_m shr_r shr_s].
  destruct r, s; reflexivity.
Qed.

Lemma fexp64_eq E : fexp prec emax E = fexp64 E.
Proof. reflexivity. Qed.

Lemma rne_bounds N s : 0 <= N -> N / 2 <= rne N s <= N / 2 + 1.
Proof.
  intros HN. unfold rne.
  destruct (Z.odd N), s, (Z.even (N / 2)); lia.
Qed.

Lemma rne_nonneg N s : 0 <= N -> 0 <= rne N s.
Proof.
  intros HN. pose proof (rne_bounds N s HN).
  assert (0 <= N / 2) by (apply Z.div_pos; lia). lia.
Qed.

Lemma enc_of_loc m l :
  enc (shr_record_of_loc m l) = 2 * m + Z.b2z (loc_r l)
  /\ shr_s (shr_record_of_loc m l) = loc_s l
  /\ shr_m (shr_record_of_loc m l) = m.
Proof. destruct l as [|[]]; cbn; repeat split; lia. Qed.

Lemma bra_model_ok sx m e l :
  0 <= m -> binary_round_aux prec emax sx m e l = bra_model sx m e l.
Proof.
  intros Hm. unfold binary_round_aux, shr_fexp.
  change (fexp prec emax) with fexp64.
  destruct (enc_of_loc m l) as (L1 & L2 & L3).
  pose proof (shr_spec (shr_record_of_loc m l) e (fexp64 (Zdigits2 m + e) - e)) as S.
  rewrite L3 in S. specialize (S Hm). destruct S as (S1 & S2 & S3 & S4).
  destruct (shr (shr_record_of_loc m l) e (fexp64 (Zdigits2 m + e) - e))
    as [mrs' e'] eqn:E1.
  cbn [fst snd] in S1, S2, S3, S4.
  rewrite rne_spec, S1, S2, L1, L2, S4.
  set (K := Z.max (fexp64 (Zdigits2 m + e) - e) 0) in *.
  set (N0 := 2 * m + Z.b2z (loc_r l)) in *.
  set (m1 := rne (N0 / 2 ^ K) (loc_s l || negb (N0 mod 2 ^ K =? 0))).
  assert (HN0 : 0 <= N0) by (unfold N0; destruct (loc_r l); cbn [Z.b2z]; lia).
  assert (HK : 0 <= K) by (unfold K; lia).
  assert (Hm1 : 0 <= m1).
  { apply rne_nonneg. apply Z.div_pos; [lia | apply Z.pow_pos_nonneg; lia]. }
  destruct (enc_of_loc m1 loc_Exact) as (M1 & M2 & M3).
  pose proof (shr_spec (shr_record_of_loc m1 loc_Exact) (e + K)
                (fexp64 (Zdigits2 m1 + (e + K)) - (e + K))) as T.
  rewrite M3 in T. specialize (T Hm1). destruct T as (T1 & T2 & T3 & T4).
  destruct (shr (shr_record_of_loc m1 loc_Exact) (e + K)
              (fexp64 (Zdigits2 m1 + (e + K)) - (e + K))) as [mrs'' e''] eqn:E2.
  cbn [fst snd] in T1, T2, T3, T4.
  unfold bra_model, rnd1, rnd2, mk_float. fold N0 K m1.
  set (K2 := Z.max (fexp64 (Zdigits2 m1 + (e + K)) - (e + K)) 0) in *.
  assert (HK2 : 0 <= K2) by (unfold K2; lia).
  assert (Hm2 : shr_m mrs'' = m1 / 2 ^ K2).
  { rewrite enc_m, T1, M1. cbn [loc_r Z.b2z]. rewrite Z.add_0_r.
    assert (0 < 2 ^ K2) by (apply Z.pow_pos_nonneg; lia).
    rewrite Z.div_div by lia. replace (2 ^ K2 * 2) with (2 * 2 ^ K2) by lia.
    rewrite Z.div_mul_cancel_l by lia. reflexivity. }
  rewrite Hm2, T4. reflexivity.
Qed.

(** * Digits *)

Lemma digits2_pos_size p : digits2_pos p = Pos.size p.
Proof. induction p; cbn; congruence. Qed.

Lemma Zdigits2_log2 m : 0 < m -> Zdigits2 m = Z.log2 m + 1.
Proof.
  destruct m as [|p|p]; try lia. intros _. cbn [Zdigits2].
  rewrite digits2_pos_size. destruct p; cbn; lia.
Qed.

Lemma Zdigits2_nonneg m : 0 <= Zdigits2 m.
Proof. destruct m; cbn; lia. Qed.

Lemma Zdigits2_pos m : 0 < m -> 1 <= Zdigits2 m.
Proof. intros H. rewrite Zdigits2_log2 by assumption. pose proof (Z.log2_nonneg m). lia. Qed.

Lemma Zdigits2_bounds m :
  0 < m -> 2 ^ (Zdigits2 m - 1) <= m < 2 ^ Zdigits2 m.
Proof.
  intros H. rewrite Zdigits2_log2 by assumption.
  replace (Z.log2 m + 1 - 1) with (Z.log2 m) by lia.
  replace (Z.log2 m + 1) with (Z.succ (Z.log2 m)) by lia.
  apply Z.log2_spec. assumption.
Qed.

Lemma Zdigits2_unique m k :
  2 ^ (k - 1) <= m < 2 ^ k -> 1 <= k -> Zdigits2 m = k.
Proof.
  intros H Hk.
  assert (0 < m).
  { assert (0 < 2 ^ (k - 1)) by (apply Z.pow_pos_nonneg; lia). lia. }
  rewrite Zdigits2_log2 by assumption.
  rewrite (Z.log2_unique m (k - 1)); try lia.
  replace (Z.succ (k - 1)) with k by lia. assumption.
Qed.

Lemma Zdigits2_le m m' : 0 <= m <= m' -> Zdigits2 m <= Zdigits2 m'.
Proof.
  intros [H0 H1]. destruct (Z.eq_dec m 0) as [->|Hn].
  - apply Zdigits2_nonneg.
  - rewrite !Zdigits2_log2 by lia. pose proof (Z.log2_le_mono m m' H1). lia.
Qed.

Lemma Zdigits2_lt_pow2 m k : 0 <= m -> 0 <= k -> m < 2 ^ k -> Zdigits2 m <= k.
Proof.
  intros H0 Hk H. destruct (Z.eq_dec m 0) as [->|Hn]; [cbn; lia|].
  rewrite Zdigits2_log2 by lia.
  assert (Z.log2 m < k) by (apply Z.log2_lt_pow2; lia). lia.
Qed.

Lemma Zdigits2_ge_pow2 m k : 0 <= k -> 2 ^ k <= m -> k + 1 <= Zdigits2 m.
Proof.
  intros Hk H.
  assert (0 < 2 ^ k) by (apply Z.pow_pos_nonneg; lia).
  rewrite Zdigits2_log2 by lia.
  assert (k <= Z.log2 m) by (apply Z.log2_le_pow2; lia). lia.
Qed.

Lemma Zdigits2_shiftr m K :
  0 < m -> 0 <= K < Zdigits2 m -> Zdigits2 (m / 2 ^ K) = Zdigits2 m - K.
Proof.
  intros Hm [HK0 HK].
  pose proof (Zdigits2_bounds m Hm) as [B1 B2].
  assert (HP : 0 < 2 ^ K) by (apply Z.pow_pos_nonneg; lia).
  apply Zdigits2_unique; [|lia]. split.
  - apply Z.div_le_lower_bound; [lia|].
    rewrite <- Z.pow_add_r by lia.
    replace (K + (Zdigits2 m - K - 1)) with (Zdigits2 m - 1) by lia. assumption.
  - apply Z.div_lt_upper_bound; [lia|].
    rewrite <- Z.pow_add_r by lia.
    replace (K + (Zdigits2 m - K)) with (Zdigits2 m) by lia. assumption.
Qed.

Lemma Zdigits2_shiftr_zero m K :
  0 <= m -> Zdigits2 m <= K -> m / 2 ^ K = 0.
Proof.
  intros Hm HK. destruct (Z.eq_dec m 0) as [->|Hn].
  - apply Z.div_0_l. apply Z.pow_nonzero; [lia|]. pose proof (Zdigits2_nonneg 0); lia.
  - pose proof (Zdigits2_bounds m ltac:(lia)) as [B1 B2].
    pose proof (Zdigits2_pos m ltac:(lia)).
    apply Z.div_small. split; [lia|].
    assert (2 ^ Zdigits2 m <= 2 ^ K) by (apply Z.pow_le_mono_r; lia). lia.
Qed.

Lemma Zdigits2_mul_pow2 m j :
  0 < m -> 0 <= j -> Zdigits2 (m * 2 ^ j) = Zdigits2 m + j.
Proof.
  intros Hm Hj.
  assert (0 < 2 ^ j) by (apply Z.pow_pos_nonneg; lia).
  rewrite !Zdigits2_log2 by nia. rewrite Z.log2_mul_pow2 by lia. lia.
Qed.

Lemma Zdigits2_mul a b :
  0 < a -> 0 < b ->
  Zdigits2 a + Zdigits2 b - 1 <= Zdigits2 (a * b) <= Zdigits2 a + Zdigits2 b.
Proof.
  intros Ha Hb. rewrite !Zdigits2_log2 by nia.
  pose proof (Z.log2_mul_below a b Ha Hb).
  pose proof (Z.log2_mul_above a b ltac:(lia) ltac:(lia)). lia.
Qed.

(** * Monotonicity of rounding *)

Lemma odd_decomp N : N = 2 * (N / 2) + Z.b2z (Z.odd N).
Proof.
  rewrite <- Z.div2_div. pose proof (Z.div2_odd N) as H. lia.
Qed.

Lemma rne_mono N N' s s' :
  0 <= N <= N' -> (N = N' -> s = true -> s' = true) ->
  rne N s <= rne N' s'.
Proof.
  intros [H0 H1] Hs.
  pose proof (odd_decomp N) as D. pose proof (odd_decomp N') as D'.
  unfold rne.
  destruct (Z.eq_dec N N') as [->|Hne].
  - destruct (Z.odd N'), s, s', (Z.even (N' / 2)); try lia.
  - destruct (Z.odd N), (Z.odd N'), s, s', (Z.even (N / 2)), (Z.even (N' / 2));
      cbn [Z.b2z] in *; lia.
Qed.

Lemma half_shift a r K :
  0 <= a -> 0 <= r <= 1 -> 0 <= K -> (2 * a + r) / 2 ^ K / 2 = a / 2 ^ K.
Proof.
  intros Ha Hr HK.
  assert (0 < 2 ^ K) by (apply Z.pow_pos_nonneg; lia).
  rewrite Z.div_div by lia.
  replace (2 ^ K * 2) with (2 * 2 ^ K) by lia.
  rewrite <- Z.div_div by lia.
  f_equal. symmetry. apply Z.div_unique with (r := r); lia.
Qed.

Lemma rnd1_unfold m e l :
  rnd1 m e l =
  (rne ((2 * m + Z.b2z (loc_r l)) / 2 ^ shift_of m e)
       (loc_s l || negb ((2 * m + Z.b2z (loc_r l)) mod 2 ^ shift_of m e =? 0)),
   e + shift_of m e).
Proof. reflexivity. Qed.

Lemma shift_of_nonneg m e : 0 <= shift_of m e.
Proof. unfold shift_of. lia. Qed.

Lemma rnd1_bounds m e l :
  0 <= m ->
  m / 2 ^ shift_of m e <= fst (rnd1 m e l) <= m / 2 ^ shift_of m e + 1.
Proof.
  intros Hm. rewrite rnd1_unfold. cbn [fst].
  pose proof (shift_of_nonneg m e) as HK.
  assert (HP : 0 < 2 ^ shift_of m e) by (apply Z.pow_pos_nonneg; lia).
  set (N0 := 2 * m + Z.b2z (loc_r l)).
  assert (0 <= N0) by (unfold N0; destruct (loc_r l); cbn [Z.b2z]; lia).
  assert (0 <= N0 / 2 ^ shift_of m e) by (apply Z.div_pos; lia).
  pose proof (rne_bounds (N0 / 2 ^ shift_of m e)
                (loc_s l || negb (N0 mod 2 ^ shift_of m e =? 0)) ltac:(lia)) as B.
  unfold N0 in B. rewrite half_shift in B; try lia.
  - exact B.
  - destruct (loc_r l); cbn; lia.
Qed.

(** With a canonical target exponent the rounded mantissa fits in 53 bits,
    up to the carry. *)
Lemma rnd1_upper m e l :
  0 <= m -> e <= fexp64 (Zdigits2 m + e) ->
  fst (rnd1 m e l) <= 2 ^ 53.
Proof.
  intros Hm He. pose proof (rnd1_bounds m e l Hm) as [_ B].
  pose proof (shift_of_nonneg m e) as HK.
  assert (HP : 0 < 2 ^ shift_of m e) by (apply Z.pow_pos_nonneg; lia).
  assert (m / 2 ^ shift_of m e < 2 ^ 53); [|lia].
  destruct (Z.eq_dec m 0) as [->|Hn]; [rewrite Z.div_0_l by lia; lia|].
  apply Z.div_lt_upper_bound; [lia|].
  rewrite <- Z.pow_add_r by lia.
  pose proof (Zdigits2_bounds m ltac:(lia)) as [_ B2].
  assert (2 ^ Zdigits2 m <= 2 ^ (shift_of m e + 53)); [|lia].
  apply Z.pow_le_mono_r; [lia|]. unfold shift_of, fexp64 in *. lia.
Qed.

Lemma rnd1_exp m e l : snd (rnd1 m e l) = e + shift_of m e.
Proof. reflexivity. Qed.

Lemma rnd1_exp_canonical m e l :
  e <= fexp64 (Zdigits2 m + e) -> snd (rnd1 m e l) = fexp64 (Zdigits2 m + e).
Proof. intros H. rewrite rnd1_exp. unfold shift_of. lia. Qed.

Lemma fexp64_mono E E' : E <= E' -> fexp64 E <= fexp64 E'.
Proof. unfold fexp64. lia. Qed.

Lemma loc_le_exact M M' : M <= M' -> loc_le M loc_Exact M' loc_Exact.
Proof.
  intros H. unfold loc_le, enc_loc. cbn [loc_r loc_s Z.b2z].
  split; [lia | intros _ E; discriminate E].
Qed.

Lemma loc_le_mantissa m l m' l' : loc_le m l m' l' -> m <= m'.
Proof.
  unfold loc_le, enc_loc. intros [H _].
  destruct (loc_r l), (loc_r l'); cbn [Z.b2z] in H; lia.
Qed.

Lemma rnd1_mono M l M' l' e :
  0 <= M -> loc_le M l M' l' -> e <= fexp64 (Zdigits2 M + e) ->
  (snd (rnd1 M e l) = snd (rnd1 M' e l')
   /\ fst (rnd1 M e l) <= fst (rnd1 M' e l'))
  \/ (snd (rnd1 M e l) < snd (rnd1 M' e l')
      /\ 2 ^ 52 <= fst (rnd1 M' e l')).
Proof.
  intros HM Hle He. pose proof (loc_le_mantissa _ _ _ _ Hle) as HMM.
  destruct Hle as [HN0 HS]. unfold enc_loc in *.
  pose proof (Zdigits2_le M M' ltac:(lia)) as Hd.
  pose proof (fexp64_mono (Zdigits2 M + e) (Zdigits2 M' + e) ltac:(lia)) as Ht.
  assert (He' : e <= fexp64 (Zdigits2 M' + e)) by lia.
  destruct (Z.eq_dec (shift_of M e) (shift_of M' e)) as [HK|HK].
  - left. rewrite !rnd1_exp. split; [lia|].
    rewrite !rnd1_unfold. cbn [fst].
    rewrite <- HK.
    pose proof (shift_of_nonneg M e) as HK0.
    assert (HP : 0 < 2 ^ shift_of M e) by (apply Z.pow_pos_nonneg; lia).
    set (N0 := 2 * M + Z.b2z (loc_r l)) in *.
    set (N0' := 2 * M' + Z.b2z (loc_r l')) in *.
    assert (0 <= N0) by (unfold N0; destruct (loc_r l); cbn [Z.b2z]; lia).
    apply rne_mono.
    + split; [apply Z.div_pos; lia|]. apply Z.div_le_mono; lia.
    + intros HN Hs.
      pose proof (Z.div_mod N0 (2 ^ shift_of M e) ltac:(lia)) as D.
      pose proof (Z.div_mod N0' (2 ^ shift_of M e) ltac:(lia)) as D'.
      pose proof (Z.mod_pos_bound N0 (2 ^ shift_of M e) HP).
      pose proof (Z.mod_pos_bound N0' (2 ^ shift_of M e) HP).
      rewrite HN in D.
      destruct (Z.eq_dec N0 N0') as [E|E].
      * rewrite <- E. specialize (HS E).
        destruct (loc_s l), (loc_s l'); cbn [orb] in *; auto.
        discriminate (HS eq_refl).
      * destruct (Z.eqb_spec (N0' mod 2 ^ shift_of M e) 0) as [Z0|Z0];
          [exfalso; lia|].
        cbn [negb]. apply orb_true_r.
  - right. rewrite !rnd1_exp.
    assert (HKlt : shift_of M e < shift_of M' e) by (unfold shift_of in *; lia).
    split; [lia|].
    pose proof (rnd1_bounds M' e l' ltac:(lia)) as [B _].
    assert (HK' : shift_of M' e = Zdigits2 M' - 53)
      by (unfold shift_of, fexp64 in *; lia).
    pose proof (shift_of_nonneg M e).
    assert (HM' : 0 < M').
    { destruct (Z.eq_dec M' 0) as [Z0|Z0]; [|lia].
      pose proof (shift_of_nonneg M' e) as HK0'.
      rewrite HK', Z0 in HK0'. cbn [Zdigits2] in HK0'. lia. }
    assert (Hq : Zdigits2 (M' / 2 ^ shift_of M' e) = Zdigits2 M' - shift_of M' e)
      by (apply Zdigits2_shiftr; lia).
    assert (2 ^ 52 <= M' / 2 ^ shift_of M' e); [|lia].
    assert (Hpos : 0 < M' / 2 ^ shift_of M' e).
    { apply Z.div_str_pos. split; [apply Z.pow_pos_nonneg; lia|].
      pose proof (Zdigits2_bounds M' ltac:(lia)) as [B1 _].
      assert (2 ^ shift_of M' e <= 2 ^ (Zdigits2 M' - 1)); [|lia].
      apply Z.pow_le_mono_r; lia. }
    pose proof (Zdigits2_bounds _ Hpos) as [B1 _].
    rewrite Hq, HK' in B1.
    replace (Zdigits2 M' - (Zdigits2 M' - 53) - 1) with 52 in B1 by lia.
    rewrite HK'. exact B1.
Qed.

Lemma rnd2_cases m1 e1 :
  0 <= m1 <= 2 ^ 53 -> -1074 <= e1 ->
  (m1 < 2 ^ 53 /\ rnd2 m1 e1 = (m1, e1))
  \/ (m1 = 2 ^ 53 /\ rnd2 m1 e1 = (2 ^ 52, e1 + 1)).
Proof.
  intros [H0 H1] He. destruct (Z.eq_dec m1 (2 ^ 53)) as [->|Hn].
  - right. split; [reflexivity|]. unfold rnd2.
    change (Zdigits2 (2 ^ 53)) with 54.
    replace (Z.max (fexp64 (54 + e1) - e1) 0) with 1 by (unfold fexp64; lia).
    reflexivity.
  - left. split; [lia|]. unfold rnd2.
    pose proof (Zdigits2_lt_pow2 m1 53 H0 ltac:(lia) ltac:(lia)).
    replace (Z.max (fexp64 (Zdigits2 m1 + e1) - e1) 0) with 0
      by (unfold fexp64; lia).
    rewrite Z.pow_0_r, Z.div_1_r, Z.add_0_r. reflexivity.
Qed.

Lemma mk_float_leb m e m' e' :
  0 <= m -> 0 <= m' ->
  m = 0 \/ (e < e' /\ 0 < m') \/ (e = e' /\ m <= m') ->
  SFleb (mk_float false m e) (mk_float false m' e') = true.
Proof.
  intros Hm Hm' H. unfold mk_float, SFleb.
  destruct m as [|p|p], m' as [|p'|p']; try lia; try reflexivity.
  - destruct (e' <=? 971); reflexivity.
  - destruct (Z.leb_spec e 971), (Z.leb_spec e' 971); cbn; try reflexivity; try lia.
    destruct (Z.compare_spec e e'); try lia; try reflexivity.
    change (Pos.compare_cont Eq p p') with (p ?= p')%positive.
    destruct (Pos.compare_spec p p'); try reflexivity. lia.
Qed.

Lemma bra_model_mono M l M' l' e :
  0 <= M -> loc_le M l M' l' -> e <= fexp64 (Zdigits2 M + e) ->
  SFleb (bra_model false M e l) (bra_model false M' e l') = true.
Proof.
  intros HM Hle He. pose proof (loc_le_mantissa _ _ _ _ Hle) as HMM.
  pose proof (Zdigits2_le M M' ltac:(lia)) as Hd.
  pose proof (fexp64_mono (Zdigits2 M + e) (Zdigits2 M' + e) ltac:(lia)) as Ht.
  assert (He' : e <= fexp64 (Zdigits2 M' + e)) by lia.
  pose proof (rnd1_mono M l M' l' e HM Hle He) as Hmono.
  pose proof (rnd1_upper M e l ltac:(lia) He) as U.
  pose proof (rnd1_upper M' e l' ltac:(lia) He') as U'.
  pose proof (rnd1_bounds M e l ltac:(lia)) as [L _].
  pose proof (rnd1_bounds M' e l' ltac:(lia)) as [L' _].
  pose proof (rnd1_exp_canonical M e l He) as X.
  pose proof (rnd1_exp_canonical M' e l' He') as X'.
  assert (0 <= M / 2 ^ shift_of M e)
    by (apply Z.div_pos; [lia | apply Z.pow_pos_nonneg; [lia | apply shift_of_nonneg]]).
  assert (0 <= M' / 2 ^ shift_of M' e)
    by (apply Z.div_pos; [lia | apply Z.pow_pos_nonneg; [lia | apply shift_of_nonneg]]).
  unfold bra_model.
  destruct (rnd1 M e l) as [m1 e1], (rnd1 M' e l') as [m1' e1'].
  cbn [fst snd] in *.
  assert (-1074 <= e1) by (unfold fexp64 in X; lia).
  assert (-1074 <= e1') by (unfold fexp64 in X'; lia).
  destruct (rnd2_cases m1 e1 ltac:(lia) ltac:(lia)) as [[C ->]|[C ->]],
           (rnd2_cases m1' e1' ltac:(lia) ltac:(lia)) as [[C' ->]|[C' ->]];
    apply mk_float_leb; change (2 ^ 52) with 4503599627370496 in *;
    change (2 ^ 53) with 9007199254740992 in *; lia.
Qed.

(** * Rescaling the input of the rounding *)

Lemma rnd1_scale m e j :
  0 < m -> 0 <= j -> e <= fexp64 (Zdigits2 m + e) ->
  rnd1 (m * 2 ^ j) (e - j) loc_Exact = rnd1 m e loc_Exact.
Proof.
  intros Hm Hj He. rewrite !rnd1_unfold. cbn [loc_r loc_s Z.b2z orb].
  rewrite !Z.add_0_r.
  assert (HK : shift_of (m * 2 ^ j) (e - j) = shift_of m e + j).
  { unfold shift_of. rewrite Zdigits2_mul_pow2 by lia.
    replace (Zdigits2 m + j + (e - j)) with (Zdigits2 m + e) by lia. lia. }
  rewrite HK. pose proof (shift_of_nonneg m e) as HK0.
  assert (0 < 2 ^ j) by (apply Z.pow_pos_nonneg; lia).
  assert (0 < 2 ^ shift_of m e) by (apply Z.pow_pos_nonneg; lia).
  rewrite Z.pow_add_r by lia.
  replace (2 * (m * 2 ^ j)) with (2 * m * 2 ^ j) by lia.
  rewrite Z.div_mul_cancel_r by lia.
  rewrite Z.mul_mod_distr_r by lia.
  f_equal; [|lia]. f_equal. f_equal.
  destruct (Z.eqb_spec ((2 * m) mod 2 ^ shift_of m e) 0) as [->|Hn].
  - reflexivity.
  - apply Z.eqb_neq. nia.
Qed.

Lemma bra_model_scale sx m e j :
  0 < m -> 0 <= j -> e <= fexp64 (Zdigits2 m + e) ->
  bra_model sx (m * 2 ^ j) (e - j) loc_Exact = bra_model sx m e loc_Exact.
Proof. intros. unfold bra_model. rewrite rnd1_scale by assumption. reflexivity. Qed.

(** * Valid finite values *)

Lemma valid_finite s m e :
  valid_binary (S754_finite s m e) = true ->
  Zdigits2 (Z.pos m) <= 53 /\ -1074 <= e <= 971
  /\ (Zdigits2 (Z.pos m) = 53 \/ e = -1074).
Proof.
  cbn [SpecFloat.valid_binary]. unfold bounded, canonical_mantissa.
  change (fexp prec emax) with fexp64. change (emax - prec) with 971.
  intros H. apply andb_true_iff in H. destruct H as [H1 H2].
  apply Z.eqb_eq in H1. apply Z.leb_le in H2.
  cbn [Zdigits2]. unfold fexp64 in H1. lia.
Qed.

Lemma finite_leb_scaled m1 e1 m2 e2 :
  valid_binary (S754_finite false m1 e1) = true ->
  valid_binary (S754_finite false m2 e2) = true ->
  SFleb (S754_finite false m1 e1) (S754_finite false m2 e2) = true ->
  e1 <= e2 /\ Z.pos m1 <= Z.pos m2 * 2 ^ (e2 - e1).
Proof.
  intros V1 V2. apply valid_finite in V1, V2.
  destruct V1 as (D1 & R1 & C1), V2 as (D2 & R2 & C2).
  unfold SFleb. cbn [SFcompare].
  change (Pos.compare_cont Eq m1 m2) with (m1 ?= m2)%positive.
  destruct (Z.compare_spec e1 e2) as [->|Hlt|Hgt]; try discriminate.
  - destruct (Pos.compare_spec m1 m2); try discriminate; intros _;
      rewrite Z.sub_diag, Z.pow_0_r; lia.
  - intros _. split; [lia|].
    pose proof (Zdigits2_bounds (Z.pos m1) eq_refl) as [_ B1].
    pose proof (Zdigits2_bounds (Z.pos m2) eq_refl) as [B2 _].
    assert (Zdigits2 (Z.pos m2) = 53) by lia.
    replace (Zdigits2 (Z.pos m2) - 1) with 52 in B2 by lia.
    assert (2 ^ Zdigits2 (Z.pos m1) <= 2 ^ 53) by (apply Z.pow_le_mono_r; lia).
    assert (2 ^ 1 <= 2 ^ (e2 - e1)) by (apply Z.pow_le_mono_r; lia).
    change (2 ^ 53) with 9007199254740992 in *.
    change (2 ^ 52) with 4503599627370496 in *.
    change (2 ^ 1) with 2 in *. nia.
Qed.

Lemma mul_canonical m1 e1 m2 e2 s1 s2 :
  valid_binary (S754_finite s1 m1 e1) = true ->
  valid_binary (S754_finite s2 m2 e2) = true ->
  e1 + e2 <= fexp64 (Zdigits2 (Z.pos (m1 * m2)) + (e1 + e2)).
Proof.
  intros V1 V2. apply valid_finite in V1, V2.
  destruct V1 as (D1 & R1 & C1), V2 as (D2 & R2 & C2).
  rewrite Pos2Z.inj_mul.
  pose proof (Zdigits2_mul (Z.pos m1) (Z.pos m2) eq_refl eq_refl) as [B _].
  pose proof (Zdigits2_pos (Z.pos m1) eq_refl).
  pose proof (Zdigits2_pos (Z.pos m2) eq_refl).
  unfold fexp64. lia.
Qed.

Lemma SFmul_finite s1 m1 e1 s2 m2 e2 :
  SFmul prec emax (S754_finite s1 m1 e1) (S754_finite s2 m2 e2)
  = bra_model (xorb s1 s2) (Z.pos m1 * Z.pos m2) (e1 + e2) loc_Exact.
Proof. cbn [SFmul]. rewrite bra_model_ok by lia. reflexivity. Qed.

Lemma SFmul_mono_pos mL eL m1 e1 m2 e2 :
  valid_binary (S754_finite false mL eL) = true ->
  valid_binary (S754_finite false m1 e1) = true ->
  valid_binary (S754_finite false m2 e2) = true ->
  SFleb (S754_finite false m1 e1) (S754_finite false m2 e2) = true ->
  SFleb (SFmul prec emax (S754_finite false mL eL) (S754_finite false m1 e1))
        (SFmul prec emax (S754_finite false mL eL) (S754_finite false m2 e2)) = true.
Proof.
  intros VL V1 V2 Hle.
  destruct (finite_leb_scaled _ _ _ _ V1 V2 Hle) as [He HM].
  rewrite !SFmul_finite. cbn [xorb].
  pose proof (mul_canonical _ _ _ _ _ _ VL V1) as C1.
  pose proof (mul_canonical _ _ _ _ _ _ VL V2) as C2.
  rewrite Pos2Z.inj_mul in C1, C2.
  rewrite <- (bra_model_scale false (Z.pos mL * Z.pos m2) (eL + e2) (e2 - e1))
    by lia.
  replace (eL + e2 - (e2 - e1)) with (eL + e1) by lia.
  apply bra_model_mono; [lia | | assumption].
  apply loc_le_exact.
  assert (0 < 2 ^ (e2 - e1)) by (apply Z.pow_pos_nonneg; lia).
  nia.
Qed.

(** * Signs *)

Lemma mk_float_opp m e : mk_float true m e = SFopp (mk_float false m e).
Proof. unfold mk_float. destruct m; try reflexivity. destruct (e <=? 971); reflexivity. Qed.

Lemma bra_model_opp m e l : bra_model true m e l = SFopp (bra_model false m e l).
Proof.
  unfold bra_model. destruct (rnd1 m e l) as [m1 e1], (rnd2 m1 e1) as [m2 e2].
  apply mk_float_opp.
Qed.

Lemma bra_model_sign sx m e l :
  bra_model sx m e l = if sx then SFopp (bra_model false m e l) else bra_model false m e l.
Proof. destruct sx; [apply bra_model_opp | reflexivity]. Qed.

Lemma rnd2_nonneg m1 e1 : 0 <= m1 -> 0 <= fst (rnd2 m1 e1).
Proof.
  intros H. unfold rnd2. cbn [fst]. apply Z.div_pos; [assumption|].
  apply Z.pow_pos_nonneg; lia.
Qed.

Lemma rnd1_nonneg m e l : 0 <= m -> 0 <= fst (rnd1 m e l).
Proof.
  intros H. pose proof (rnd1_bounds m e l H) as [B _].
  assert (0 <= m / 2 ^ shift_of m e); [|lia].
  apply Z.div_pos; [assumption|]. apply Z.pow_pos_nonneg; [lia|apply shift_of_nonneg].
Qed.

Lemma mk_float_nonneg m e : 0 <= m -> sf_nonneg (mk_float false m e) = true.
Proof.
  intros H. unfold mk_float. destruct m; try lia; try reflexivity.
  destruct (e <=? 971); reflexivity.
Qed.

Lemma bra_model_nonneg m e l : 0 <= m -> sf_nonneg (bra_model false m e l) = true.
Proof.
  intros H. unfold bra_model.
  pose proof (rnd1_nonneg m e l H) as H1.
  destruct (rnd1 m e l) as [m1 e1]. cbn [fst] in H1.
  pose proof (rnd2_nonneg m1 e1 H1) as H2.
  destruct (rnd2 m1 e1) as [m2 e2]. cbn [fst] in H2.
  apply mk_float_nonneg. assumption.
Qed.

Lemma SFcompare_opp a b : SFcompare (SFopp b) (SFopp a) = SFcompare a b.
Proof.
  destruct a as [sa|sa| |sa ma ea], b as [sb|sb| |sb mb eb]; cbn;
    try reflexivity;
    try (destruct sa; reflexivity); try (destruct sb; reflexivity);
    try (destruct sa, sb; reflexivity).
  change (Pos.compare_cont Eq mb ma) with (mb ?= ma)%positive.
  change (Pos.compare_cont Eq ma mb) with (ma ?= mb)%positive.
  rewrite (Z.compare_antisym ea eb), (Pos.compare_antisym ma mb).
  destruct sa, sb; cbn; try reflexivity;
    destruct (ea ?= eb); cbn; try reflexivity;
    destruct (ma ?= mb)%positive; reflexivity.
Qed.

Lemma SFleb_opp a b : SFleb a b = true -> SFleb (SFopp b) (SFopp a) = true.
Proof. unfold SFleb. rewrite SFcompare_opp. auto. Qed.

Lemma SFleb_opp_nonneg a b :
  sf_nonneg a = true -> sf_nonneg b = true -> SFleb (SFopp a) b = true.
Proof.
  destruct a as [sa|sa| |sa ma ea], b as [sb|sb| |sb mb eb]; cbn; try discriminate;
    try (destruct sa; try discriminate); try (destruct sb; try discriminate);
    reflexivity.
Qed.

Lemma SFleb_refl x : sf_is_nan x = false -> SFleb x x = true.
Proof.
  destruct x as [s|s| |s m e]; cbn; try discriminate; intros _; try reflexivity.
  - destruct s; reflexivity.
  - unfold SFleb. cbn. rewrite Z.compare_refl.
    change (Pos.compare_cont Eq m m) with (m ?= m)%positive.
    rewrite Pos.compare_refl. destruct s; reflexivity.
Qed.

Lemma sf_nonneg_not_nan x : sf_nonneg x = true -> sf_is_nan x = false.
Proof. destruct x; cbn; auto; discriminate. Qed.

Lemma sf_nonneg_opp_not_nan x : sf_nonneg x = true -> sf_is_nan (SFopp x) = false.
Proof. destruct x; cbn; auto; discriminate. Qed.

(** Multiplication by a positive finite value is monotone. *)
Lemma SFmul_mono mL eL g1 g2 :
  valid_binary (S754_finite false mL eL) = true ->
  valid_binary g1 = true -> valid_binary g2 = true ->
  SFleb g1 g2 = true ->
  SFleb (SFmul prec emax (S754_finite false mL eL) g1)
        (SFmul prec emax (S754_finite false mL eL) g2) = true.
Proof.
  intros VL V1 V2 Hle.
  destruct g1 as [s1|s1| |s1 m1 e1], g2 as [s2|s2| |s2 m2 e2];
    try discriminate Hle;
    try (destruct s1, s2; try discriminate Hle; reflexivity);
    try (destruct s1; try discriminate Hle; reflexivity);
    try (destruct s2; try discriminate Hle; reflexivity).
  - (* zero, finite *)
    destruct s2; [destruct s1; discriminate Hle|].
    rewrite SFmul_finite. cbn [xorb SFmul].
    pose proof (bra_model_nonneg (Z.pos mL * Z.pos m2) (eL + e2) loc_Exact ltac:(lia)) as N.
    destruct (bra_model false _ _ _) as [s|s| |s m e]; try discriminate N;
      try destruct s; try discriminate N; reflexivity.
  - (* infinity, finite *)
    destruct s1; [|discriminate Hle].
    rewrite SFmul_finite. cbn [xorb SFmul].
    rewrite bra_model_sign.
    pose proof (bra_model_nonneg (Z.pos mL * Z.pos m2) (eL + e2) loc_Exact ltac:(lia)) as N.
    destruct (bra_model false _ _ _) as [s|s| |s m e]; try discriminate N;
      destruct s2; try destruct s; try discriminate N; reflexivity.
  - (* finite, zero *)
    destruct s1; [|destruct s2; discriminate Hle].
    rewrite SFmul_finite. cbn [xorb SFmul].
    rewrite bra_model_opp.
    pose proof (bra_model_nonneg (Z.pos mL * Z.pos m1) (eL + e1) loc_Exact ltac:(lia)) as N.
    destruct (bra_model false _ _ _) as [s|s| |s m e]; try discriminate N;
      try destruct s; try discriminate N; reflexivity.
  - (* finite, infinity *)
    destruct s2; [destruct s1; discriminate Hle|].
    rewrite SFmul_finite. cbn [xorb SFmul].
    rewrite bra_model_sign.
    pose proof (bra_model_nonneg (Z.pos mL * Z.pos m1) (eL + e1) loc_Exact ltac:(lia)) as N.
    destruct (bra_model false _ _ _) as [s|s| |s m e]; try discriminate N;
      destruct s1; try destruct s; try discriminate N; reflexivity.
  - (* finite, finite *)
    destruct s1, s2.
    + pose proof (SFleb_opp _ _ Hle) as Hle'. cbn [SFopp negb] in Hle'.
      pose proof (SFmul_mono_pos mL eL m2 e2 m1 e1 VL V2 V1 Hle') as H.
      rewrite !SFmul_finite in *. cbn [xorb] in *.
      rewrite (bra_model_opp (Z.pos mL * Z.pos m1)), (bra_model_opp (Z.pos mL * Z.pos m2)).
      apply SFleb_opp. exact H.
    + rewrite !SFmul_finite. cbn [xorb]. rewrite bra_model_opp.
      apply SFleb_opp_nonneg; apply bra_model_nonneg; lia.
    + discriminate Hle.
    + apply SFmul_mono_pos; assumption.
Qed.

(** * Products that cannot underflow to zero *)

Lemma shift_keeps_digit m e :
  0 < m -> -1074 < Zdigits2 m + e ->
  1 <= m / 2 ^ shift_of m e
  /\ Zdigits2 (m / 2 ^ shift_of m e) + (e + shift_of m e) = Zdigits2 m + e.
Proof.
  intros Hm HE. pose proof (Zdigits2_pos m Hm) as Hd.
  pose proof (shift_of_nonneg m e) as HK.
  assert (HKd : shift_of m e < Zdigits2 m) by (unfold shift_of, fexp64 in *; lia).
  pose proof (Zdigits2_shiftr m (shift_of m e) Hm ltac:(lia)) as Hq.
  split; [|lia].
  destruct (Z.le_gt_cases 1 (m / 2 ^ shift_of m e)) as [|Hlt]; [assumption|].
  assert (0 <= m / 2 ^ shift_of m e)
    by (apply Z.div_pos; [lia | apply Z.pow_pos_nonneg; lia]).
  replace (m / 2 ^ shift_of m e) with 0 in Hq by lia. cbn in Hq. lia.
Qed.

Lemma bra_model_nonzero sx m e l :
  0 < m -> -1074 < Zdigits2 m + e -> sf_is_zero (bra_model sx m e l) = false.
Proof.
  intros Hm HE. unfold bra_model.
  destruct (shift_keeps_digit m e Hm HE) as [Q1 Q2].
  pose proof (rnd1_bounds m e l ltac:(lia)) as [B _].
  pose proof (rnd1_exp m e l) as X.
  destruct (rnd1 m e l) as [m1 e1]. cbn [fst snd] in *.
  assert (Hd1 : Zdigits2 (m / 2 ^ shift_of m e) <= Zdigits2 m1)
    by (apply Zdigits2_le; lia).
  assert (H1 : 0 < m1) by lia.
  assert (HE1 : -1074 < Zdigits2 m1 + e1) by lia.
  destruct (shift_keeps_digit m1 e1 H1 HE1) as [R1 _].
  unfold rnd2. fold (shift_of m1 e1). unfold mk_float.
  destruct (m1 / 2 ^ shift_of m1 e1) as [|p|p]; try lia.
  destruct (e1 + shift_of m1 e1 <=? 971); reflexivity.
Qed.

Lemma SFmul_nonzero x sy my ey :
  valid_binary x = true ->
  1 <= Zdigits2 (Z.pos my) + ey ->
  sf_is_zero x = false ->
  sf_is_zero (SFmul prec emax x (S754_finite sy my ey)) = false.
Proof.
  intros V Hy Hx. destruct x as [s|s| |s m e]; try discriminate Hx; try reflexivity.
  rewrite SFmul_finite. apply bra_model_nonzero; [lia|].
  apply valid_finite in V. destruct V as (D & R & _).
  pose proof (Zdigits2_mul (Z.pos m) (Z.pos my) eq_refl eq_refl) as [B _].
  pose proof (Zdigits2_pos (Z.pos m) eq_refl). lia.
Qed.

Lemma SFmul_zero x sy my ey :
  sf_is_zero x = true ->
  sf_is_zero (SFmul prec emax x (S754_finite sy my ey)) = true.
Proof. destruct x; try discriminate; reflexivity. Qed.

Lemma SFeqb_zero x : SFeqb x (S754_zero false) = sf_is_zero x.
Proof. destruct x as [s|s| |s m e]; try reflexivity; destruct s; reflexivity. Qed.

(** * Primitive floats *)

Open Scope float_scope.

Lemma Prim2SF_zero : Prim2SF 0 = S754_zero false.
Proof. reflexivity. Qed.

Lemma eqb_zero x : (x =? 0) = sf_is_zero (Prim2SF x).
Proof. rewrite FloatAxioms.eqb_spec, Prim2SF_zero. apply SFeqb_zero. Qed.

Lemma mul_big_zero_iff x y sy my ey :
  Prim2SF y = S754_finite sy my ey ->
  (1 <= Zdigits2 (Z.pos my) + ey)%Z ->
  (x * y =? 0) = (x =? 0).
Proof.
  intros Hy Hbig. rewrite !eqb_zero, mul_spec, Hy. unfold SF64mul.
  destruct (sf_is_zero (Prim2SF x)) eqn:Z.
  - apply SFmul_zero. assumption.
  - apply SFmul_nonzero; [apply Prim2SF_valid | assumption | assumption].
Qed.

Lemma mul_1000_zero_iff x : (x * 1000 =? 0) = (x =? 0).
Proof.
  apply (mul_big_zero_iff x 1000 false 8796093022208000 (-43)).
  - vm_compute. reflexivity.
  - vm_compute. discriminate.
Qed.

Lemma ltb_leb_false x y : (x <? y) = true -> (y <=? x) = false.
Proof. rewrite ltb_spec, leb_spec. apply SFltb_leb_false. Qed.

Lemma leb_ltb_false x y : (x <=? y) = true -> (y <? x) = false.
Proof. rewrite ltb_spec, leb_spec. apply SFleb_ltb_false. Qed.

Lemma ltb_leb x y : (x <? y) = true -> (x <=? y) = true.
Proof. rewrite ltb_spec, leb_spec. apply SFltb_leb. Qed.

Lemma leb_trans x y z : (x <=? y) = true -> (y <=? z) = true -> (x <=? z) = true.
Proof. rewrite !leb_spec. apply SFleb_trans. Qed.

Lemma leb_ltb_trans x y z : (x <=? y) = true -> (y <? z) = true -> (x <? z) = true.
Proof. rewrite !leb_spec, !ltb_spec. apply SFleb_ltb_trans. Qed.

Lemma ltb_leb_trans x y z : (x <? y) = true -> (y <=? z) = true -> (x <? z) = true.
Proof. rewrite !leb_spec, !ltb_spec. apply SFltb_leb_trans. Qed.

Lemma ltb_neq_zero x : (0 <? x) = true -> (x =? 0) = false.
Proof.
  rewrite ltb_spec, eqb_zero, Prim2SF_zero.
  destruct (Prim2SF x) as [s|s| |s m e]; try reflexivity. discriminate.
Qed.

Lemma SFcompare_refl x : sf_is_nan x = false -> SFcompare x x = Some Eq.
Proof.
  destruct x as [s|s| |s m e]; cbn; try discriminate; intros _; try reflexivity.
  - destruct s; reflexivity.
  - rewrite Z.compare_refl.
    change (Pos.compare_cont Eq m m) with (m ?= m)%positive.
    rewrite Pos.compare_refl. destruct s; reflexivity.
Qed.

Lemma is_nan_spec x : is_nan x = sf_is_nan (Prim2SF x).
Proof.
  unfold is_nan. rewrite FloatAxioms.eqb_spec. unfold SFeqb.
  destruct (sf_is_nan (Prim2SF x)) eqn:N.
  - destruct (Prim2SF x); try discriminate N. reflexivity.
  - rewrite SFcompare_refl by assumption. reflexivity.
Qed.

Lemma is_finite_spec x : is_finite x = sf_finite (Prim2SF x).
Proof.
  unfold is_finite, is_infinity.
  rewrite is_nan_spec, FloatAxioms.eqb_spec, abs_spec.
  change (Prim2SF infinity) with (S754_infinity false).
  destruct (Prim2SF x) as [s|s| |s m e]; reflexivity.
Qed.

Lemma pos_finite_spec x :
  is_finite x = true -> (0 <? x) = true ->
  exists m e, Prim2SF x = S754_finite false m e.
Proof.
  rewrite is_finite_spec, ltb_spec, Prim2SF_zero.
  destruct (Prim2SF x) as [s|s| |s m e]; try discriminate.
  destruct s; try discriminate. intros _ _. eauto.
Qed.

(** Multiplying by a positive finite number preserves order. *)
Lemma mul_mono L g1 g2 :
  is_finite L = true -> (0 <? L) = true -> (g1 <=? g2) = true ->
  (L * g1 <=? L * g2) = true.
Proof.
  intros HF HP Hle. destruct (pos_finite_spec L HF HP) as (m & e & HL).
  rewrite leb_spec in *. rewrite !mul_spec. unfold SF64mul.
  pose proof (Prim2SF_valid L) as VL. rewrite HL in *.
  apply SFmul_mono; auto using Prim2SF_valid.
Qed.

(** * Division *)

Open Scope Z_scope.

Lemma SFdiv_finite sx mx ex sy my ey :
  SFdiv prec emax (S754_finite sx mx ex) (S754_finite sy my ey)
  = bra_model (xorb sx sy)
      (div_num (Z.pos mx) ex (Z.pos my) ey / Z.pos my)
      (div_exp (Z.pos mx) ex (Z.pos my) ey)
      (new_location (Z.pos my) (div_num (Z.pos mx) ex (Z.pos my) ey mod Z.pos my)).
Proof.
  cbn [SFdiv]. unfold SFdiv_core_binary.
  change (fexp prec emax) with fexp64.
  fold (div_exp (Z.pos mx) ex (Z.pos my) ey).
  unfold div_num.
  set (e' := div_exp (Z.pos mx) ex (Z.pos my) ey).
  assert (Hs : 0 <= ex - ey - e') by (unfold e', div_exp; lia).
  set (m' := match ex - ey - e' with
             | 0 => Z.pos mx
             | Z.pos _ => Z.shiftl (Z.pos mx) (ex - ey - e')
             | Z.neg _ => 0
             end).
  assert (Hm' : m' = Z.pos mx * 2 ^ (ex - ey - e')).
  { unfold m'. destruct (ex - ey - e') as [|p|p] eqn:E; try lia.
    rewrite Z.shiftl_mul_pow2 by lia. reflexivity. }
  rewrite <- Hm'. unfold Z.div, Z.modulo.
  pose proof (Z_div_mod m' (Z.pos my) eq_refl) as D.
  destruct (Z.div_eucl m' (Z.pos my)) as [q r].
  assert (0 <= m') by (rewrite Hm'; apply Z.mul_nonneg_nonneg; [lia|];
                       apply Z.pow_nonneg; lia).
  assert (0 <= q) by nia.
  apply bra_model_ok. assumption.
Qed.

(** The rounding cannot overflow when value and exponent are small enough. *)
Lemma bra_model_finite sx m e l :
  0 <= m -> e <= 971 -> Zdigits2 m + e <= 1023 ->
  sf_finite (bra_model sx m e l) = true.
Proof.
  intros Hm He HE. unfold bra_model.
  pose proof (rnd1_bounds m e l Hm) as [B1 B2].
  pose proof (rnd1_exp m e l) as X.
  pose proof (shift_of_nonneg m e) as HK.
  destruct (rnd1 m e l) as [m1 e1]. cbn [fst snd] in *.
  assert (HP : 0 < 2 ^ shift_of m e) by (apply Z.pow_pos_nonneg; lia).
  assert (Hq : 0 <= m / 2 ^ shift_of m e) by (apply Z.div_pos; lia).
  assert (Hd1 : Zdigits2 m1 + e1 <= Z.max (Zdigits2 m + e + 1) (e1 + 1)).
  { assert (Hle : Zdigits2 m1 <= Zdigits2 (m / 2 ^ shift_of m e + 1))
      by (apply Zdigits2_le; lia).
    assert (Hs : Zdigits2 (m / 2 ^ shift_of m e + 1)
                 <= Zdigits2 (m / 2 ^ shift_of m e) + 1).
    { destruct (Z.eq_dec (m / 2 ^ shift_of m e) 0) as [->|Hn]; [cbn; lia|].
      rewrite !Zdigits2_log2 by lia.
      pose proof (Z.log2_succ_le (m / 2 ^ shift_of m e)). 
      replace (m / 2 ^ shift_of m e + 1) with (Z.succ (m / 2 ^ shift_of m e)) by lia.
      lia. }
    destruct (Z.lt_ge_cases (shift_of m e) (Zdigits2 m)) as [Hlt|Hge].
    - destruct (Z.eq_dec m 0) as [->|Hn]; [cbn in Hlt; lia|].
      rewrite Zdigits2_shiftr in Hs by lia. lia.
    - rewrite Zdigits2_shiftr_zero in Hle by lia. cbn in Hle. lia. }
  assert (He1 : e1 <= 970 \/ e1 = e).
  { unfold shift_of, fexp64 in *. lia. }
  unfold rnd2, mk_float.
  set (K2 := Z.max (fexp64 (Zdigits2 m1 + e1) - e1) 0).
  assert (e1 + K2 <= 971) by (unfold K2, fexp64; lia).
  assert (0 <= m1 / 2 ^ K2)
    by (apply Z.div_pos; [lia | apply Z.pow_pos_nonneg; unfold K2; lia]).
  destruct (m1 / 2 ^ K2); try reflexivity; try lia.
  destruct (Z.leb_spec (e1 + K2) 971); [reflexivity | lia].
Qed.

Lemma div_exp_le mx ex my ey :
  div_exp mx ex my ey <= ex - ey
  /\ div_exp mx ex my ey <= fexp64 (Zdigits2 mx + ex - (Zdigits2 my + ey)).
Proof. unfold div_exp. lia. Qed.

Lemma div_quot_digits mx ex my ey :
  0 < mx -> 0 < my ->
  0 <= div_num mx ex my ey / my
  /\ Zdigits2 (div_num mx ex my ey / my) + div_exp mx ex my ey
     <= Z.max (Zdigits2 mx + ex - (Zdigits2 my + ey) + 1) (div_exp mx ex my ey).
Proof.
  intros Hx Hy. unfold div_num.
  destruct (div_exp_le mx ex my ey) as [Hs _].
  set (e' := div_exp mx ex my ey) in *.
  set (s := ex - ey - e').
  assert (H0 : 0 <= s) by (unfold s; lia).
  assert (HP : 0 < 2 ^ s) by (apply Z.pow_pos_nonneg; lia).
  assert (Hm' : 0 < mx * 2 ^ s) by nia.
  assert (Hq : 0 <= mx * 2 ^ s / my) by (apply Z.div_pos; lia).
  split; [assumption|].
  pose proof (Zdigits2_mul_pow2 mx s Hx H0) as Hd'.
  pose proof (Zdigits2_bounds _ Hm') as [_ B'].
  pose proof (Zdigits2_bounds my Hy) as [By _].
  pose proof (Zdigits2_pos my Hy) as Hdy.
  rewrite Hd' in B'.
  set (k := Zdigits2 mx + s - Zdigits2 my + 1).
  destruct (Z.le_gt_cases 0 k) as [Hk|Hk].
  - assert (mx * 2 ^ s / my < 2 ^ k).
    { apply Z.div_lt_upper_bound; [lia|].
      assert (2 ^ (Zdigits2 mx + s) = 2 ^ (Zdigits2 my - 1) * 2 ^ k).
      { rewrite <- Z.pow_add_r by lia. f_equal. unfold k. lia. }
      assert (0 < 2 ^ k) by (apply Z.pow_pos_nonneg; lia).
      nia. }
    pose proof (Zdigits2_lt_pow2 _ k Hq Hk ltac:(assumption)).
    unfold k, s in *. lia.
  - assert (mx * 2 ^ s / my = 0) as ->.
    { apply Z.div_small. split; [lia|].
      assert (2 ^ (Zdigits2 mx + s) <= 2 ^ (Zdigits2 my - 1))
        by (apply Z.pow_le_mono_r; unfold k in Hk; lia).
      lia. }
    cbn [Zdigits2]. lia.
Qed.

Lemma SFdiv_finite_big x sy my ey :
  valid_binary x = true ->
  valid_binary (S754_finite sy my ey) = true ->
  2 <= Zdigits2 (Z.pos my) + ey ->
  sf_finite x = true ->
  sf_finite (SFdiv prec emax x (S754_finite sy my ey)) = true.
Proof.
  intros Vx Vy Hy Hx. destruct x as [s|s| |s m e]; try discriminate Hx;
    [reflexivity|].
  rewrite SFdiv_finite.
  apply valid_finite in Vx, Vy.
  destruct Vx as (D & R & _), Vy as (Dy & Ry & _).
  destruct (div_quot_digits (Z.pos m) e (Z.pos my) ey eq_refl eq_refl) as [Q1 Q2].
  destruct (div_exp_le (Z.pos m) e (Z.pos my) ey) as [E1 E2].
  unfold fexp64 in E2.
  apply bra_model_finite; [assumption | lia | lia].
Qed.

Open Scope float_scope.

Lemma Prim2SF_100 : Prim2SF 100 = S754_finite false 7036874417766400 (-46).
Proof. reflexivity. Qed.

Lemma div_100_finite x : is_finite x = true -> is_finite (x / 100) = true.
Proof.
  rewrite !is_finite_spec, div_spec, Prim2SF_100. unfold SF64div.
  apply SFdiv_finite_big.
  - apply Prim2SF_valid.
  - rewrite <- Prim2SF_100. apply Prim2SF_valid.
  - vm_compute. discriminate.
Qed.

(** * Zeros, finiteness and NaN through the operations *)

Lemma sf_zero_finite x : sf_is_zero x = true -> sf_finite x = true.
Proof. destruct x; try discriminate; reflexivity. Qed.

Lemma sf_finite_not_nan x : sf_finite x = true -> sf_is_nan x = false.
Proof. destruct x; try discriminate; reflexivity. Qed.

Lemma bra_model_not_nan sx m e l : (0 <= m)%Z -> sf_is_nan (bra_model sx m e l) = false.
Proof.
  intros H. rewrite bra_model_sign.
  pose proof (bra_model_nonneg m e l H) as N.
  destruct sx; [apply sf_nonneg_opp_not_nan | apply sf_nonneg_not_nan]; assumption.
Qed.

Lemma SFmul_zero_l x y :
  sf_is_zero x = true -> sf_finite y = true ->
  sf_is_zero (SFmul prec emax x y) = true.
Proof. destruct x, y; try discriminate; reflexivity. Qed.

Lemma SFmul_zero_r x y :
  sf_finite x = true -> sf_is_zero y = true ->
  sf_is_zero (SFmul prec emax x y) = true.
Proof. destruct x, y; try discriminate; reflexivity. Qed.

Lemma SFmul_not_nan x y :
  sf_finite x = true -> sf_finite y = true ->
  sf_is_nan (SFmul prec emax x y) = false.
Proof.
  destruct x as [s|s| |s m e], y as [s'|s'| |s' m' e']; try discriminate;
    try reflexivity.
  intros _ _. rewrite SFmul_finite. apply bra_model_not_nan. lia.
Qed.

Lemma SFsub_zero_zero x y :
  sf_is_zero x = true -> sf_is_zero y = true ->
  sf_is_zero (SFsub prec emax x y) = true.
Proof.
  destruct x as [s| | |], y as [s'| | |]; try discriminate.
  destruct s, s'; reflexivity.
Qed.

Lemma SFadd_zero_zero x y :
  sf_is_zero x = true -> sf_is_zero y = true ->
  sf_is_zero (SFadd prec emax x y) = true.
Proof.
  destruct x as [s| | |], y as [s'| | |]; try discriminate.
  destruct s, s'; reflexivity.
Qed.

Lemma SFadd_zero_l x y :
  sf_is_zero x = true -> sf_is_nan y = false ->
  SFeqb (SFadd prec emax x y) y = true.
Proof.
  destruct x as [s| | |]; try discriminate. intros _ Hy.
  destruct y as [s'|s'| |s' m e]; try discriminate.
  - destruct s, s'; reflexivity.
  - unfold SFeqb. cbn [SFadd]. rewrite SFcompare_refl; reflexivity.
  - unfold SFeqb. cbn [SFadd]. rewrite SFcompare_refl; reflexivity.
Qed.

Lemma SFadd_zero_l_exact x y :
  sf_is_zero x = true -> sf_is_zero y = false -> sf_is_nan y = false ->
  SFadd prec emax x y = y.
Proof.
  destruct x as [s| | |]; try discriminate.
  destruct y as [s'|s'| |s' m e]; try discriminate; reflexivity.
Qed.

Lemma SFdiv_zero x sy my ey :
  sf_is_zero x = true ->
  sf_is_zero (SFdiv prec emax x (S754_finite sy my ey)) = true.
Proof. destruct x; try discriminate; reflexivity. Qed.

Lemma is_zero_finite x : (x =? 0) = true -> is_finite x = true.
Proof. rewrite eqb_zero, is_finite_spec. apply sf_zero_finite. Qed.

Lemma is_finite_not_nan x : is_finite x = true -> is_nan x = false.
Proof. rewrite is_finite_spec, is_nan_spec. apply sf_finite_not_nan. Qed.

Lemma mul_zero_l x y :
  (x =? 0) = true -> is_finite y = true -> (x * y =? 0) = true.
Proof. rewrite !eqb_zero, is_finite_spec, mul_spec. apply SFmul_zero_l. Qed.

Lemma mul_zero_r x y :
  is_finite x = true -> (y =? 0) = true -> (x * y =? 0) = true.
Proof. rewrite !eqb_zero, is_finite_spec, mul_spec. apply SFmul_zero_r. Qed.

Lemma mul_not_nan x y :
  is_finite x = true -> is_finite y = true -> is_nan (x * y) = false.
Proof. rewrite !is_finite_spec, is_nan_spec, mul_spec. apply SFmul_not_nan. Qed.

Lemma sub_zero_zero x y :
  (x =? 0) = true -> (y =? 0) = true -> (x - y =? 0) = true.
Proof. rewrite !eqb_zero, sub_spec. apply SFsub_zero_zero. Qed.

Lemma add_zero_zero x y :
  (x =? 0) = true -> (y =? 0) = true -> (x + y =? 0) = true.
Proof. rewrite !eqb_zero, add_spec. apply SFadd_zero_zero. Qed.

Lemma add_zero_l x y :
  (x =? 0) = true -> is_nan y = false -> (x + y =? y) = true.
Proof.
  rewrite eqb_zero, is_nan_spec, FloatAxioms.eqb_spec, add_spec.
  apply SFadd_zero_l.
Qed.

Lemma add_zero_l_exact x y :
  (x =? 0) = true -> (y =? 0) = false -> is_nan y = false -> x + y = y.
Proof.
  rewrite !eqb_zero, is_nan_spec. intros Zx Zy Ny. apply Prim2SF_inj.
  rewrite add_spec. apply SFadd_zero_l_exact; assumption.
Qed.

Lemma div_100_zero x : (x =? 0) = true -> (x / 100 =? 0) = true.
Proof. rewrite !eqb_zero, div_spec, Prim2SF_100. apply SFdiv_zero. Qed.

Lemma zero_not_lt_zero x : (x =? 0) = true -> (x <? 0) = false.
Proof.
  rewrite eqb_zero, ltb_spec, Prim2SF_zero.
  destruct (Prim2SF x); try discriminate. reflexivity.
Qed.

(** * Exact cases of the rounding *)

Open Scope Z_scope.

Lemma bra_model_exact sx m e :
  valid_binary (S754_finite sx m e) = true ->
  bra_model sx (Z.pos m) e loc_Exact = S754_finite sx m e.
Proof.
  intros V. apply valid_finite in V. destruct V as (D & R & C).
  unfold bra_model. rewrite rnd1_unfold.
  assert (HK : shift_of (Z.pos m) e = 0) by (unfold shift_of, fexp64; lia).
  rewrite HK. cbn [loc_r loc_s Z.b2z orb].
  rewrite Z.pow_0_r, Z.div_1_r, Z.mod_1_r, !Z.add_0_r.
  assert (Hr : rne (2 * Z.pos m) (negb (0 =? 0)) = Z.pos m).
  { unfold rne. rewrite Z.odd_mul. cbn [Z.odd andb].
    rewrite Z.mul_comm, Z.div_mul by lia. reflexivity. }
  rewrite Hr. unfold rnd2.
  replace (Z.max (fexp64 (Zdigits2 (Z.pos m) + e) - e) 0) with 0
    by (unfold fexp64; lia).
  rewrite Z.pow_0_r, Z.div_1_r, Z.add_0_r. unfold mk_float.
  destruct (Z.leb_spec e 971); [reflexivity | lia].
Qed.

Lemma SFmul_one x :
  valid_binary x = true -> sf_finite x = true ->
  SFmul prec emax x sf_one = x.
Proof.
  intros V F. destruct x as [s|s| |s m e]; try discriminate F.
  - destruct s; reflexivity.
  - unfold sf_one. rewrite SFmul_finite. rewrite xorb_false_r.
    pose proof (valid_finite _ _ _ V) as (D & R & C).
    change (Z.pos 4503599627370496) with (2 ^ 52).
    replace (e + -52) with (e - 52) by lia.
    rewrite bra_model_scale; [| lia | lia | unfold fexp64; lia].
    apply bra_model_exact. assumption.
Qed.

Lemma new_location_zero n : new_location n 0 = loc_Exact.
Proof.
  unfold new_location, new_location_even, new_location_odd.
  destruct (Z.even n); reflexivity.
Qed.

(** A quotient of a value by a larger one rounds to at most one. *)
Lemma SFdiv_le_one mx ex my ey :
  valid_binary (S754_finite false mx ex) = true ->
  valid_binary (S754_finite false my ey) = true ->
  Zdigits2 (Z.pos my) = 53 -> ey <= 0 ->
  SFleb (S754_finite false mx ex) (S754_finite false my ey) = true ->
  SFleb (SFdiv prec emax (S754_finite false mx ex) (S754_finite false my ey))
        sf_one = true.
Proof.
  intros Vx Vy Hdy Hey Hle.
  destruct (finite_leb_scaled _ _ _ _ Vx Vy Hle) as [Hexy Hm].
  apply valid_finite in Vx, Vy.
  destruct Vx as (Dx & Rx & Cx), Vy as (Dy & Ry & Cy).
  rewrite SFdiv_finite. cbn [xorb].
  destruct (div_exp_le (Z.pos mx) ex (Z.pos my) ey) as [E1 E2].
  assert (E3 : -1074 <= div_exp (Z.pos mx) ex (Z.pos my) ey)
    by (unfold div_exp, fexp64; lia).
  unfold div_num.
  set (e' := div_exp (Z.pos mx) ex (Z.pos my) ey) in *.
  set (s := ex - ey - e').
  assert (Hs : 0 <= s) by (unfold s; lia).
  assert (He' : e' <= -53) by (unfold fexp64 in E2; lia).
  assert (HPs : 0 < 2 ^ s) by (apply Z.pow_pos_nonneg; lia).
  assert (HPd : 0 < 2 ^ (ey - ex)) by (apply Z.pow_pos_nonneg; lia).
  set (m' := Z.pos mx * 2 ^ s).
  assert (Hm' : m' <= Z.pos my * 2 ^ (- e')).
  { replace (- e') with ((ey - ex) + s) by (unfold s; lia).
    rewrite Z.pow_add_r by lia. unfold m'. nia. }
  assert (HPe : 0 < 2 ^ (- e')) by (apply Z.pow_pos_nonneg; lia).
  pose proof (Z.div_mod m' (Z.pos my) ltac:(lia)) as DM.
  pose proof (Z.mod_pos_bound m' (Z.pos my) eq_refl) as MB.
  assert (Hm0 : 0 < m') by (unfold m'; nia).
  assert (Hq0 : 0 <= m' / Z.pos my) by (apply Z.div_pos; lia).
  assert (Hq : m' / Z.pos my <= 2 ^ (- e')) by nia.
  assert (Hr : m' / Z.pos my = 2 ^ (- e') -> m' mod Z.pos my = 0) by nia.
  assert (Hone : bra_model false (2 ^ (- e')) e' loc_Exact = sf_one).
  { replace (2 ^ (- e')) with (2 ^ 52 * 2 ^ (- e' - 52))
      by (rewrite <- Z.pow_add_r by lia; f_equal; lia).
    replace e' with (-52 - (- e' - 52)) at 2 by lia.
    rewrite bra_model_scale; [| reflexivity | lia | unfold fexp64; cbn; lia].
    reflexivity. }
  rewrite <- Hone.
  apply bra_model_mono; [assumption | |].
  - unfold loc_le, enc_loc. cbn [loc_r loc_s Z.b2z]. rewrite Z.add_0_r.
    destruct (Z.eq_dec (m' / Z.pos my) (2 ^ (- e'))) as [Eq|Ne].
    + rewrite (Hr Eq), new_location_zero. cbn [loc_r loc_s Z.b2z].
      split; [lia | intros _ H; discriminate H].
    + assert (Hb : Z.b2z (loc_r (new_location (Z.pos my) (m' mod Z.pos my))) <= 1)
        by (destruct (loc_r _); cbn; lia).
      assert (Hb0 : 0 <= Z.b2z (loc_r (new_location (Z.pos my) (m' mod Z.pos my))))
        by (destruct (loc_r _); cbn; lia).
      split; [lia | intros H; lia].
  - destruct (Z.eq_dec e' (-1074)) as [->|Hn]; [unfold fexp64; lia|].
    assert (Hnorm : e' <= Zdigits2 (Z.pos mx) + ex - (53 + ey) - 53)
      by (rewrite Hdy in E2; unfold fexp64 in E2; lia).
    assert (H52 : 2 ^ 52 <= m' / Z.pos my).
    { apply Z.div_le_lower_bound; [lia|].
      pose proof (Zdigits2_bounds (Z.pos my) eq_refl) as [_ By].
      pose proof (Zdigits2_bounds (Z.pos mx) eq_refl) as [Bx _].
      rewrite Hdy in By.
      assert (2 ^ (106 - Zdigits2 (Z.pos mx)) <= 2 ^ s)
        by (apply Z.pow_le_mono_r; unfold s; lia).
      assert (2 ^ (Zdigits2 (Z.pos mx) - 1) * 2 ^ (106 - Zdigits2 (Z.pos mx))
              = 2 ^ 105).
      { pose proof (Zdigits2_pos (Z.pos mx) eq_refl).
        rewrite <- Z.pow_add_r by lia. f_equal. lia. }
      assert (2 ^ 105 <= m') by (unfold m'; nia).
      change (2 ^ 105) with (2 ^ 52 * 2 ^ 53) in *.
      change (2 ^ 52) with 4503599627370496 in *.
      change (2 ^ 53) with 9007199254740992 in *. nia. }
    pose proof (Zdigits2_ge_pow2 (m' / Z.pos my) 52 ltac:(lia) H52).
    unfold fexp64. lia.
Qed.

(** * Subtraction and equality *)

Lemma binary_normalize_not_nan m e sz :
  sf_is_nan (binary_normalize prec emax m e sz) = false.
Proof.
  unfold binary_normalize, binary_round. destruct m as [|p|p]; [reflexivity| |];
    destruct (shl_align _ _ _) as [mz ez];
    rewrite bra_model_ok by lia; apply bra_model_not_nan; lia.
Qed.

Lemma SFsub_not_nan x y :
  sf_finite x = true -> sf_is_nan y = false ->
  sf_is_nan (SFsub prec emax x y) = false.
Proof.
  destruct x as [s|s| |s m e], y as [s'|s'| |s' m' e']; try discriminate;
    intros _ _; try reflexivity.
  - destruct s, s'; reflexivity.
  - cbn [SFsub]. apply binary_normalize_not_nan.
Qed.

Lemma SFeqb_cases a b :
  SFeqb a b = true ->
  (sf_is_zero a = true /\ sf_is_zero b = true) \/ a = b.
Proof.
  unfold SFeqb.
  destruct a as [s|s| |s m e], b as [s'|s'| |s' m' e']; cbn; try discriminate;
    auto;
    try (destruct s; discriminate); try (destruct s'; discriminate);
    try (destruct s, s'; try discriminate; auto; fail).
  change (Pos.compare_cont Eq m m') with (m ?= m')%positive.
  destruct s, s'; try discriminate;
    destruct (Z.compare_spec e e'); try discriminate;
    destruct (Pos.compare_spec m m'); try discriminate;
    intros _; right; subst; reflexivity.
Qed.

Lemma SFsub_zero_r x y :
  sf_finite x = true -> sf_is_zero y = true ->
  SFeqb (SFsub prec emax x y) x = true.
Proof.
  destruct x as [s|s| |s m e], y as [s'|s'| |s' m' e']; try discriminate;
    intros _ _.
  - destruct s, s'; reflexivity.
  - unfold SFeqb. cbn [SFsub]. rewrite SFcompare_refl; reflexivity.
Qed.

Lemma SFleb_bounds_finite a c :
  SFleb (S754_zero false) a = true -> SFleb a c = true ->
  sf_finite c = true -> sf_finite a = true.
Proof.
  destruct a as [s|s| |s m e], c as [s'|s'| |s' m' e']; try discriminate;
    try reflexivity; destruct s; try discriminate; destruct s'; discriminate.
Qed.

Lemma SFdiv_nonneg x my ey :
  SFleb (S754_zero false) x = true ->
  SFleb (S754_zero false) (SFdiv prec emax x (S754_finite false my ey)) = true.
Proof.
  destruct x as [s|s| |s m e]; try discriminate.
  - reflexivity.
  - destruct s; [discriminate | reflexivity].
  - destruct s; [discriminate|]. intros _. rewrite SFdiv_finite. cbn [xorb].
    destruct (div_quot_digits (Z.pos m) e (Z.pos my) ey eq_refl eq_refl) as [Q _].
    pose proof (bra_model_nonneg _ (div_exp (Z.pos m) e (Z.pos my) ey)
                  (new_location (Z.pos my)
                     (div_num (Z.pos m) e (Z.pos my) ey mod Z.pos my)) Q) as N.
    destruct (bra_model false _ _ _) as [s|s| |s m1 e1]; try discriminate N;
      try reflexivity; destruct s; try discriminate N; reflexivity.
Qed.

Open Scope float_scope.

Lemma Prim2SF_one : Prim2SF 1 = sf_one.
Proof. reflexivity. Qed.

Lemma div_100_le_one x :
  (0 <=? x) = true -> (x <=? 100) = true -> (x / 100 <=? 1) = true.
Proof.
  rewrite !leb_spec, div_spec, Prim2SF_zero, Prim2SF_100, Prim2SF_one.
  pose proof (Prim2SF_valid x) as V.
  pose proof (Prim2SF_valid 100) as V100. rewrite Prim2SF_100 in V100.
  destruct (Prim2SF x) as [s|s| |s m e]; try discriminate.
  - intros _ _. destruct s; reflexivity.
  - destruct s; discriminate.
  - destruct s; [discriminate|]. intros _ H.
    apply SFdiv_le_one; try assumption; [reflexivity | lia].
Qed.

Lemma div_100_nonneg x : (0 <=? x) = true -> (0 <=? x / 100) = true.
Proof.
  rewrite !leb_spec, div_spec, Prim2SF_zero, Prim2SF_100. apply SFdiv_nonneg.
Qed.

Lemma mul_one x : is_finite x = true -> x * 1 = x.
Proof.
  rewrite is_finite_spec. intros F. apply Prim2SF_inj.
  rewrite mul_spec, Prim2SF_one. apply SFmul_one; [apply Prim2SF_valid | exact F].
Qed.

Lemma leb_bounds_finite a c :
  (0 <=? a) = true -> (a <=? c) = true -> is_finite c = true ->
  is_finite a = true.
Proof.
  rewrite !leb_spec, !is_finite_spec, Prim2SF_zero. apply SFleb_bounds_finite.
Qed.

Lemma sub_not_nan x y :
  is_finite x = true -> is_nan y = false -> is_nan (x - y) = false.
Proof. rewrite is_finite_spec, !is_nan_spec, sub_spec. apply SFsub_not_nan. Qed.

Lemma not_lt_zero_nonneg x :
  (x <? 0) = false -> is_nan x = false -> (0 <=? x) = true.
Proof.
  rewrite ltb_spec, leb_spec, is_nan_spec, Prim2SF_zero. intros Hlt Hn.
  destruct (SFleb (S754_zero false) (Prim2SF x)) eqn:E; [reflexivity|].
  rewrite (SFleb_total (S754_zero false) (Prim2SF x) eq_refl Hn E) in Hlt.
  discriminate.
Qed.

Lemma eqb_zero_leb x : (x =? 0) = true -> (0 <=? x) = true /\ (x <=? 0) = true.
Proof.
  rewrite eqb_zero, !leb_spec, Prim2SF_zero.
  destruct (Prim2SF x); try discriminate. auto.
Qed.

Lemma sub_zero_r x y :
  is_finite x = true -> (y =? 0) = true -> (x - y =? x) = true.
Proof.
  rewrite is_finite_spec, eqb_zero, FloatAxioms.eqb_spec, sub_spec.
  apply SFsub_zero_r.
Qed.

Lemma eqb_ltb_compat a b z : (a =? b) = true -> (a <? z) = (b <? z).
Proof.
  rewrite FloatAxioms.eqb_spec, !ltb_spec. intros H.
  destruct (SFeqb_cases _ _ H) as [[Za Zb]| ->]; [|reflexivity].
  destruct (Prim2SF a), (Prim2SF b); try discriminate. reflexivity.
Qed.

Lemma eqb_mul_compat a b f :
  (a =? b) = true -> is_finite a = true -> is_finite f = true ->
  (a * f =? b * f) = true.
Proof.
  intros H Fa Ff. pose proof H as H'.
  rewrite FloatAxioms.eqb_spec in H'.
  destruct (SFeqb_cases _ _ H') as [[Za Zb]|E].
  - rewrite <- eqb_zero in Za, Zb.
    pose proof (mul_zero_l a f Za Ff) as Z1.
    pose proof (mul_zero_l b f Zb Ff) as Z2.
    rewrite eqb_zero in Z1, Z2. rewrite FloatAxioms.eqb_spec.
    destruct (Prim2SF (a * f)), (Prim2SF (b * f)); try discriminate. reflexivity.
  - apply Prim2SF_inj in E. subst b.
    pose proof (mul_not_nan a f Fa Ff) as N. unfold is_nan in N.
    apply negb_false_iff in N. exact N.
Qed.

Lemma eqb_finite a b : (a =? b) = true -> is_finite b = true -> is_finite a = true.
Proof.
  rewrite FloatAxioms.eqb_spec, !is_finite_spec. intros H.
  destruct (SFeqb_cases _ _ H) as [[Za _]| ->]; [|auto].
  intros _. apply sf_zero_finite. exact Za.
Qed.

Lemma nonneg_cases x :
  (0 <=? x) = true -> (x =? 0) = true \/ (0 <? x) = true.
Proof.
  rewrite leb_spec, ltb_spec, eqb_zero, Prim2SF_zero.
  destruct (Prim2SF x) as [s|s| |s m e]; try discriminate; auto;
    destruct s; try discriminate; auto.
Qed.

(** * Alignment and rounding of exact integers *)

Open Scope Z_scope.

Lemma shl_align_spec m e e' :
  Z.pos (fst (shl_align m e e')) = Z.pos m * 2 ^ (e - Z.min e e')
  /\ snd (shl_align m e e') = Z.min e e'.
Proof.
  unfold shl_align. destruct (e' - e) as [|d|d] eqn:E; cbn [fst snd].
  - replace (Z.min e e') with e by lia. rewrite Z.sub_diag, Z.pow_0_r. lia.
  - replace (Z.min e e') with e by lia. rewrite Z.sub_diag, Z.pow_0_r. lia.
  - replace (Z.min e e') with e' by lia.
    change (PosDef.Pos.iter xO m d) with (shift_pos d m).
    rewrite shift_pos_correct. replace (e - e') with (Z.pos d) by lia.
    change (Z.pow_pos 2 d) with (2 ^ Z.pos d). lia.
Qed.

Lemma binary_round_model sx m e :
  binary_round prec emax sx m e
  = bra_model sx
      (Z.pos m * 2 ^ (e - Z.min e (fexp64 (Zdigits2 (Z.pos m) + e))))
      (Z.min e (fexp64 (Zdigits2 (Z.pos m) + e))) loc_Exact.
Proof.
  unfold binary_round. change (fexp prec emax) with fexp64.
  change (Z.pos (digits2_pos m)) with (Zdigits2 (Z.pos m)).
  destruct (shl_align_spec m e (fexp64 (Zdigits2 (Z.pos m) + e))) as [H1 H2].
  destruct (shl_align m e (fexp64 (Zdigits2 (Z.pos m) + e))) as [mz ez].
  cbn [fst snd] in H1, H2. rewrite bra_model_ok by lia. rewrite H1, H2.
  reflexivity.
Qed.

Lemma aligned_canonical m e :
  0 < m ->
  Z.min e (fexp64 (Zdigits2 m + e))
  <= fexp64 (Zdigits2 (m * 2 ^ (e - Z.min e (fexp64 (Zdigits2 m + e))))
             + Z.min e (fexp64 (Zdigits2 m + e))).
Proof.
  intros Hm. rewrite Zdigits2_mul_pow2 by lia.
  replace (Zdigits2 m + (e - Z.min e (fexp64 (Zdigits2 m + e)))
           + Z.min e (fexp64 (Zdigits2 m + e)))
    with (Zdigits2 m + e) by lia.
  lia.
Qed.

(** Rounding an integer multiple of [2 ^ e] is monotone in the integer. *)
Lemma binary_round_mono m1 m2 e :
  (m1 <= m2)%positive ->
  SFleb (binary_round prec emax false m1 e) (binary_round prec emax false m2 e)
  = true.
Proof.
  intros Hle. rewrite !binary_round_model.
  set (e1 := Z.min e (fexp64 (Zdigits2 (Z.pos m1) + e))).
  set (e2 := Z.min e (fexp64 (Zdigits2 (Z.pos m2) + e))).
  assert (Hd : Zdigits2 (Z.pos m1) <= Zdigits2 (Z.pos m2))
    by (apply Zdigits2_le; lia).
  assert (He : e1 <= e2) by (unfold e1, e2, fexp64; lia).
  assert (HP2 : 0 < 2 ^ (e - e2)) by (apply Z.pow_pos_nonneg; unfold e2; lia).
  assert (HP1 : 0 < 2 ^ (e - e1)) by (apply Z.pow_pos_nonneg; unfold e1; lia).
  pose proof (aligned_canonical (Z.pos m1) e eq_refl) as C1.
  pose proof (aligned_canonical (Z.pos m2) e eq_refl) as C2.
  fold e1 in C1. fold e2 in C2.
  rewrite <- (bra_model_scale false (Z.pos m2 * 2 ^ (e - e2)) e2 (e2 - e1));
    [| nia | lia | exact C2].
  replace (e2 - (e2 - e1)) with e1 by lia.
  replace (Z.pos m2 * 2 ^ (e - e2) * 2 ^ (e2 - e1)) with (Z.pos m2 * 2 ^ (e - e1)).
  2:{ rewrite <- Z.mul_assoc, <- Z.pow_add_r by (unfold e1, e2 in *; lia).
      do 2 f_equal. lia. }
  apply bra_model_mono; [nia | | exact C1].
  apply loc_le_exact. nia.
Qed.

(** Rounding the aligned mantissa of a float gives the float back. *)
Lemma binary_round_exact sx m e j p :
  valid_binary (S754_finite sx m e) = true -> 0 <= j ->
  Z.pos p = Z.pos m * 2 ^ j ->
  binary_round prec emax sx p (e - j) = S754_finite sx m e.
Proof.
  intros V Hj Hp. rewrite binary_round_model.
  pose proof (valid_finite _ _ _ V) as (D & R & C).
  assert (HPj : 0 < 2 ^ j) by (apply Z.pow_pos_nonneg; lia).
  assert (Hd : Zdigits2 (Z.pos p) = Zdigits2 (Z.pos m) + j)
    by (rewrite Hp; apply Zdigits2_mul_pow2; lia).
  rewrite Hd.
  replace (Zdigits2 (Z.pos m) + j + (e - j)) with (Zdigits2 (Z.pos m) + e) by lia.
  replace (Z.min (e - j) (fexp64 (Zdigits2 (Z.pos m) + e))) with (e - j)
    by (unfold fexp64; lia).
  rewrite Z.sub_diag, Z.pow_0_r, Z.mul_1_r, Hp.
  rewrite bra_model_scale; [| lia | lia | unfold fexp64; lia].
  apply bra_model_exact. exact V.
Qed.

(** * Subtraction of non-negative values *)

Lemma finite_ltb_scaled m1 e1 m2 e2 :
  valid_binary (S754_finite false m1 e1) = true ->
  valid_binary (S754_finite false m2 e2) = true ->
  SFltb (S754_finite false m1 e1) (S754_finite false m2 e2) = true ->
  e1 <= e2 /\ Z.pos m1 < Z.pos m2 * 2 ^ (e2 - e1).
Proof.
  intros V1 V2. apply valid_finite in V1, V2.
  destruct V1 as (D1 & R1 & C1), V2 as (D2 & R2 & C2).
  unfold SFltb. cbn [SFcompare].
  change (Pos.compare_cont Eq m1 m2) with (m1 ?= m2)%positive.
  destruct (Z.compare_spec e1 e2) as [->|Hlt|Hgt]; try discriminate.
  - destruct (Pos.compare_spec m1 m2); try discriminate; intros _;
      rewrite Z.sub_diag, Z.pow_0_r; lia.
  - intros _. split; [lia|].
    pose proof (Zdigits2_bounds (Z.pos m1) eq_refl) as [_ B1].
    pose proof (Zdigits2_bounds (Z.pos m2) eq_refl) as [B2 _].
    assert (Zdigits2 (Z.pos m2) = 53) by lia.
    replace (Zdigits2 (Z.pos m2) - 1) with 52 in B2 by lia.
    assert (2 ^ Zdigits2 (Z.pos m1) <= 2 ^ 53) by (apply Z.pow_le_mono_r; lia).
    assert (2 ^ 1 <= 2 ^ (e2 - e1)) by (apply Z.pow_le_mono_r; lia).
    change (2 ^ 53) with 9007199254740992 in *.
    change (2 ^ 52) with 4503599627370496 in *.
    change (2 ^ 1) with 2 in *. nia.
Qed.

Lemma SFsub_pos_pos mc ec mt et :
  SFsub prec emax (S754_finite false mc ec) (S754_finite false mt et)
  = binary_normalize prec emax
      (Z.pos mc * 2 ^ (ec - Z.min ec et) - Z.pos mt * 2 ^ (et - Z.min ec et))
      (Z.min ec et) false.
Proof.
  cbn [SFsub cond_Zopp].
  rewrite (proj1 (shl_align_spec mc ec (Z.min ec et))).
  rewrite (proj1 (shl_align_spec mt et (Z.min ec et))).
  replace (Z.min ec (Z.min ec et)) with (Z.min ec et) by lia.
  replace (Z.min et (Z.min ec et)) with (Z.min ec et) by lia.
  reflexivity.
Qed.

Lemma binary_round_nonneg p e : sf_nonneg (binary_round prec emax false p e) = true.
Proof.
  rewrite binary_round_model. apply bra_model_nonneg.
  apply Z.mul_nonneg_nonneg; [lia | apply Z.pow_nonneg; lia].
Qed.

Lemma binary_round_opp p e :
  binary_round prec emax true p e = SFopp (binary_round prec emax false p e).
Proof. rewrite !binary_round_model. apply bra_model_opp. Qed.

Lemma binary_round_nonzero sx p e :
  -1074 <= e -> sf_is_zero (binary_round prec emax sx p e) = false.
Proof.
  intros He. rewrite binary_round_model.
  set (e0 := Z.min e (fexp64 (Zdigits2 (Z.pos p) + e))).
  assert (HP : 0 < 2 ^ (e - e0)) by (apply Z.pow_pos_nonneg; unfold e0; lia).
  apply bra_model_nonzero; [nia|].
  rewrite Zdigits2_mul_pow2 by (unfold e0; lia).
  pose proof (Zdigits2_pos (Z.pos p) eq_refl). lia.
Qed.

Lemma sf_neg_lt_zero x :
  sf_nonneg x = true -> sf_is_zero x = false ->
  SFltb (SFopp x) (S754_zero false) = true.
Proof.
  destruct x as [s|s| |s m e]; try discriminate; destruct s; try discriminate;
    reflexivity.
Qed.

Lemma sf_nonneg_not_lt_zero x :
  sf_nonneg x = true -> SFltb x (S754_zero false) = false.
Proof.
  destruct x as [s|s| |s m e]; try discriminate; try reflexivity;
    destruct s; try discriminate; reflexivity.
Qed.

Lemma sf_nonneg_leb_zero x : sf_nonneg x = SFleb (S754_zero false) x.
Proof. destruct x as [s|s| |s m e]; try reflexivity; destruct s; reflexivity. Qed.

(** A smaller non-negative value minus a larger one is negative. *)
Lemma SFsub_neg_of_lt c t :
  valid_binary c = true -> valid_binary t = true ->
  sf_finite c = true -> sf_nonneg c = true ->
  SFltb c t = true ->
  SFltb (SFsub prec emax c t) (S754_zero false) = true.
Proof.
  intros Vc Vt Fc Nc Hlt.
  destruct c as [sc|sc| |sc mc ec]; try discriminate Fc.
  - destruct t as [st|st| |st mt et]; try discriminate Hlt.
    + destruct st; [discriminate Hlt | destruct sc; reflexivity].
    + destruct st; [destruct sc; discriminate Hlt | reflexivity].
  - destruct sc; [discriminate Nc|].
    destruct t as [st|st| |st mt et]; try discriminate Hlt.
    + destruct st; [discriminate Hlt | reflexivity].
    + destruct st; [discriminate Hlt|].
      destruct (finite_ltb_scaled _ _ _ _ Vc Vt Hlt) as [He Hm].
      rewrite SFsub_pos_pos.
      replace (Z.min ec et) with ec by lia.
      rewrite Z.sub_diag, Z.pow_0_r, Z.mul_1_r.
      destruct (Z.pos mc - Z.pos mt * 2 ^ (et - ec)) as [|p|p] eqn:E; try lia.
      cbn [binary_normalize]. rewrite binary_round_opp.
      pose proof (valid_finite _ _ _ Vc) as (_ & R & _).
      apply sf_neg_lt_zero; [apply binary_round_nonneg|].
      apply binary_round_nonzero. lia.
Qed.

(** A larger non-negative value minus a smaller one is not negative. *)
Lemma SFsub_not_neg_of_le c t :
  valid_binary c = true -> valid_binary t = true ->
  sf_finite c = true -> sf_nonneg t = true ->
  SFleb t c = true ->
  SFltb (SFsub prec emax c t) (S754_zero false) = false.
Proof.
  intros Vc Vt Fc Nt Hle.
  destruct t as [st|st| |st mt et]; try discriminate Nt.
  - destruct c as [sc|sc| |sc mc ec]; try discriminate Fc.
    + destruct sc, st; reflexivity.
    + destruct sc; [discriminate Hle | reflexivity].
  - destruct st; [discriminate Nt|]. destruct c; try discriminate Fc;
      discriminate Hle.
  - destruct st; [discriminate Nt|].
    destruct c as [sc|sc| |sc mc ec]; try discriminate Fc;
      [discriminate Hle|].
    destruct sc; [discriminate Hle|].
    destruct (finite_leb_scaled _ _ _ _ Vt Vc Hle) as [He Hm].
    rewrite SFsub_pos_pos.
    replace (Z.min ec et) with et by lia.
    rewrite Z.sub_diag, Z.pow_0_r, Z.mul_1_r.
    destruct (Z.pos mc * 2 ^ (ec - et) - Z.pos mt) as [|p|p] eqn:E; try lia.
    + reflexivity.
    + cbn [binary_normalize]. apply sf_nonneg_not_lt_zero, binary_round_nonneg.
Qed.

(** Subtracting a non-negative value does not increase a non-negative one. *)
Lemma SFsub_le_self c t :
  valid_binary c = true -> valid_binary t = true ->
  sf_finite c = true -> sf_nonneg c = true -> sf_nonneg t = true ->
  SFleb (SFsub prec emax c t) c = true.
Proof.
  intros Vc Vt Fc Nc Nt.
  destruct t as [st|st| |st mt et]; try discriminate Nt.
  - destruct c as [sc|sc| |sc mc ec]; try discriminate Fc.
    + destruct sc, st; reflexivity.
    + cbn [SFsub]. apply SFleb_refl. reflexivity.
  - destruct st; [discriminate Nt|].
    destruct c as [sc|sc| |sc mc ec]; try discriminate Fc;
      [reflexivity|]. destruct sc; [discriminate Nc | reflexivity].
  - destruct st; [discriminate Nt|].
    destruct c as [sc|sc| |sc mc ec]; try discriminate Fc;
      [reflexivity|].
    destruct sc; [discriminate Nc|].
    rewrite SFsub_pos_pos.
    set (ez := Z.min ec et).
    assert (HPc : 0 < 2 ^ (ec - ez)) by (apply Z.pow_pos_nonneg; unfold ez; lia).
    assert (HPt : 0 < 2 ^ (et - ez)) by (apply Z.pow_pos_nonneg; unfold ez; lia).
    destruct (Z.pos mc * 2 ^ (ec - ez) - Z.pos mt * 2 ^ (et - ez)) as [|p|p] eqn:E.
    + reflexivity.
    + cbn [binary_normalize].
      destruct (Z.pos mc * 2 ^ (ec - ez)) as [|pc|pc] eqn:Ec; try lia.
      rewrite <- (binary_round_exact false mc ec (ec - ez) pc Vc);
        [| unfold ez; lia | symmetry; exact Ec].
      replace (ec - (ec - ez)) with ez by lia.
      apply binary_round_mono. lia.
    + cbn [binary_normalize]. rewrite binary_round_opp.
      apply SFleb_opp_nonneg; [apply binary_round_nonneg | reflexivity].
Qed.

(** * Further facts on products, sums and quotients *)

Lemma SFmul_one_all x : valid_binary x = true -> SFmul prec emax x sf_one = x.
Proof.
  intros V. destruct x as [s|s| |s m e]; try (apply SFmul_one; auto; fail).
  - cbn. rewrite xorb_false_r. reflexivity.
  - reflexivity.
Qed.

Lemma SFmul_nonneg x y :
  sf_nonneg x = true -> sf_nonneg y = true ->
  sf_is_nan (SFmul prec emax x y) = false ->
  sf_nonneg (SFmul prec emax x y) = true.
Proof.
  destruct x as [s|s| |s m e], y as [s'|s'| |s' m' e']; try discriminate;
    try (destruct s; try discriminate); try (destruct s'; try discriminate);
    try reflexivity.
  intros _ _ _. rewrite SFmul_finite. apply bra_model_nonneg. lia.
Qed.

Lemma SFmul_nonneg_neg x my ey :
  sf_nonneg x = true ->
  SFleb (SFmul prec emax x (S754_finite true my ey)) (S754_zero false) = true.
Proof.
  destruct x as [s|s| |s m e]; try discriminate.
  - intros _. destruct s; reflexivity.
  - destruct s; [discriminate | reflexivity].
  - destruct s; [discriminate|]. intros _. rewrite SFmul_finite. cbn [xorb].
    rewrite bra_model_opp.
    apply (SFleb_opp_nonneg _ (S754_zero false)); [|reflexivity].
    apply bra_model_nonneg. lia.
Qed.

Lemma SFmul_finite_not_nan x sy my ey :
  sf_is_nan x = false ->
  sf_is_nan (SFmul prec emax x (S754_finite sy my ey)) = false.
Proof.
  destruct x as [s|s| |s m e]; try discriminate; try reflexivity.
  intros _. rewrite SFmul_finite. apply bra_model_not_nan. lia.
Qed.

Lemma SFadd_zero_r_exact x y :
  sf_is_zero y = true -> sf_is_zero x = false -> sf_is_nan x = false ->
  SFadd prec emax x y = x.
Proof.
  destruct y as [s| | |]; try discriminate.
  destruct x as [s'|s'| |s' m e]; try discriminate; reflexivity.
Qed.


Open Scope float_scope.

(** Multiplying by 1.0 changes no float, NaN and the infinities included. *)
Lemma mul_one_all x : x * 1 = x.
Proof.
  apply Prim2SF_inj. rewrite mul_spec, Prim2SF_one.
  apply SFmul_one_all, Prim2SF_valid.
Qed.

Lemma leb_nonneg_spec x : (0 <=? x) = sf_nonneg (Prim2SF x).
Proof. rewrite leb_spec, Prim2SF_zero. symmetry. apply sf_nonneg_leb_zero. Qed.

Lemma mul_nonneg a b :
  is_finite a = true -> is_finite b = true ->
  (0 <=? a) = true -> (0 <=? b) = true -> (0 <=? a * b) = true.
Proof.
  intros Fa Fb. pose proof (mul_not_nan a b Fa Fb) as N.
  rewrite !leb_nonneg_spec, mul_spec. rewrite is_nan_spec, mul_spec in N.
  intros Ha Hb. apply SFmul_nonneg; assumption.
Qed.

Lemma mul_nonneg_neg x y :
  (0 <=? x) = true -> is_finite y = true -> (y <? 0) = true ->
  (x * y <=? 0) = true.
Proof.
  rewrite leb_nonneg_spec, is_finite_spec, ltb_spec, leb_spec, mul_spec,
    Prim2SF_zero.
  intros Hx Fy Hy.
  destruct (Prim2SF y) as [s|s| |s m e]; try discriminate.
  destruct s; [|discriminate]. apply SFmul_nonneg_neg. exact Hx.
Qed.

Lemma ltb_not_nan a b : (a <? b) = true -> is_nan a = false /\ is_nan b = false.
Proof.
  rewrite ltb_spec, !is_nan_spec. unfold SFltb.
  destruct (SFcompare (Prim2SF a) (Prim2SF b)) eqn:E; [|discriminate].
  intros _. exact (SFcompare_some _ _ _ E).
Qed.

Lemma leb_not_nan a b : (a <=? b) = true -> is_nan a = false /\ is_nan b = false.
Proof.
  rewrite leb_spec, !is_nan_spec. unfold SFleb.
  destruct (SFcompare (Prim2SF a) (Prim2SF b)) eqn:E; [|discriminate].
  intros _. exact (SFcompare_some _ _ _ E).
Qed.

Lemma sub_neg_of_lt c t :
  is_finite c = true -> (0 <=? c) = true -> (c <? t) = true ->
  (c - t <? 0) = true.
Proof.
  rewrite is_finite_spec, leb_nonneg_spec, !ltb_spec, sub_spec, Prim2SF_zero.
  apply SFsub_neg_of_lt; apply Prim2SF_valid.
Qed.

Lemma sub_not_neg_of_le c t :
  is_finite c = true -> (0 <=? t) = true -> (t <=? c) = true ->
  (c - t <? 0) = false.
Proof.
  rewrite is_finite_spec, leb_nonneg_spec, ltb_spec, leb_spec, sub_spec,
    Prim2SF_zero.
  apply SFsub_not_neg_of_le; apply Prim2SF_valid.
Qed.

Lemma sub_le_self c t :
  is_finite c = true -> (0 <=? c) = true -> (0 <=? t) = true ->
  (c - t <=? c) = true.
Proof.
  rewrite is_finite_spec, !leb_nonneg_spec, leb_spec, sub_spec.
  apply SFsub_le_self; apply Prim2SF_valid.
Qed.

Lemma add_zero_r_exact x y :
  (y =? 0) = true -> (x =? 0) = false -> is_nan x = false -> x + y = x.
Proof.
  rewrite !eqb_zero, is_nan_spec. intros Zy Zx Nx. apply Prim2SF_inj.
  rewrite add_spec. apply SFadd_zero_r_exact; assumption.
Qed.



Open Scope Z_scope.

(** * Sums and products of non-negative values *)

Lemma SFadd_nonneg x y :
  sf_nonneg x = true -> sf_nonneg y = true ->
  sf_nonneg (SFadd prec emax x y) = true.
Proof.
  destruct x as [s|s| |s m e], y as [s'|s'| |s' m' e']; try discriminate;
    destruct s; try discriminate; destruct s'; try discriminate;
    intros _ _; try reflexivity.
  cbn [SFadd cond_Zopp Z.add]. unfold binary_normalize.
  apply binary_round_nonneg.
Qed.

Lemma SFmul_comm x y : SFmul prec emax x y = SFmul prec emax y x.
Proof.
  destruct x as [s|s| |s m e], y as [s'|s'| |s' m' e']; cbn [SFmul];
    try reflexivity; try (rewrite xorb_comm; reflexivity).
  rewrite xorb_comm, Pos.mul_comm, Z.add_comm. reflexivity.
Qed.

Open Scope float_scope.

Lemma add_nonneg a b :
  (0 <=? a) = true -> (0 <=? b) = true -> (0 <=? a + b) = true.
Proof. rewrite !leb_nonneg_spec, add_spec. apply SFadd_nonneg. Qed.

Lemma mul_comm a b : a * b = b * a.
Proof. apply Prim2SF_inj. rewrite !mul_spec. apply SFmul_comm. Qed.

(** A non-negative value, infinite or not, times a positive finite one. *)
Lemma mul_nonneg_pos x y :
  (0 <=? x) = true -> is_finite y = true -> (0 <? y) = true ->
  (0 <=? x * y) = true.
Proof.
  rewrite !leb_nonneg_spec, is_finite_spec, ltb_spec, mul_spec, Prim2SF_zero.
  intros Hx Fy Hy.
  destruct (Prim2SF y) as [s|s| |s m e] eqn:E; try discriminate;
    try (destruct s; discriminate).
  destruct s; [discriminate|].
  apply SFmul_nonneg; [assumption | reflexivity |].
  apply SFmul_finite_not_nan, sf_nonneg_not_nan. assumption.
Qed.

Open Scope Z_scope.

(** * Products with a negative factor *)

Lemma SFmul_opp_l x y :
  SFmul prec emax (SFopp x) y = SFopp (SFmul prec emax x y).
Proof.
  destruct x as [s|s| |s m e], y as [s'|s'| |s' m' e']; cbn [SFopp SFmul];
    try reflexivity; try (destruct s, s'; reflexivity).
  fold (SFmul prec emax (S754_finite (negb s) m e) (S754_finite s' m' e')).
  fold (SFmul prec emax (S754_finite s m e) (S754_finite s' m' e')).
  rewrite !SFmul_finite.
  destruct s, s'; cbn [xorb negb]; rewrite ?bra_model_opp;
    try reflexivity.
  - destruct (bra_model false _ _ _) as [[]|[]| |[] ? ?]; reflexivity.
  - destruct (bra_model false _ _ _) as [[]|[]| |[] ? ?]; reflexivity.
Qed.

Lemma SFmul_mono_neg mL eL g1 g2 :
  valid_binary (S754_finite false mL eL) = true ->
  valid_binary g1 = true -> valid_binary g2 = true ->
  SFleb g1 g2 = true ->
  SFleb (SFmul prec emax (S754_finite true mL eL) g2)
        (SFmul prec emax (S754_finite true mL eL) g1) = true.
Proof.
  intros VL V1 V2 H.
  change (S754_finite true mL eL) with (SFopp (S754_finite false mL eL)).
  rewrite !SFmul_opp_l. apply SFleb_opp, SFmul_mono; assumption.
Qed.

Open Scope float_scope.

(** Multiplying by a negative finite number reverses order. *)
Lemma mul_mono_neg L g1 g2 :
  is_finite L = true -> (L <? 0) = true -> (g1 <=? g2) = true ->
  (L * g2 <=? L * g1) = true.
Proof.
  rewrite is_finite_spec, ltb_spec, !leb_spec, !mul_spec, Prim2SF_zero.
  unfold SF64mul. intros HF HN Hle.
  pose proof (Prim2SF_valid L) as VL.
  destruct (Prim2SF L) as [s|s| |s m e]; try discriminate;
    try (destruct s; discriminate).
  destruct s; [|discriminate].
  apply SFmul_mono_neg; auto using Prim2SF_valid.
Qed.

Open Scope Z_scope.

(** * Magnitude bounds by powers of two *)

Lemma sf_pow2_valid K : -1022 <= K <= 1023 -> valid_binary (sf_pow2 K) = true.
Proof.
  intros H. unfold sf_pow2. cbn [valid_binary]. unfold bounded, canonical_mantissa.
  change (fexp prec emax) with fexp64. change (emax - prec) with 971.
  change (Z.pos (digits2_pos 4503599627370496)) with 53.
  apply andb_true_iff. split; [apply Z.eqb_eq; unfold fexp64; lia | apply Z.leb_le; lia].
Qed.

Lemma SFabs_bra_model sx m e l :
  SFabs (bra_model sx m e l) = SFabs (bra_model false m e l).
Proof.
  rewrite (bra_model_sign sx). destruct sx; [|reflexivity].
  destruct (bra_model false m e l); reflexivity.
Qed.

(** Below a power of two: mantissa and exponent. *)
Lemma le_pow2_mantissa m e K :
  valid_binary (S754_finite false m e) = true -> -1022 <= K <= 1023 ->
  SFleb (S754_finite false m e) (sf_pow2 K) = true ->
  e <= K - 52 /\ Z.pos m <= 2 ^ (K - e).
Proof.
  intros V HK H.
  destruct (finite_leb_scaled _ _ _ _ V (sf_pow2_valid K HK) H) as [A B].
  split; [assumption|].
  replace (K - e) with (52 + (K - 52 - e)) by lia.
  rewrite Z.pow_add_r by lia. exact B.
Qed.

(** The rounding of an integer below a power of two stays below it. *)
Lemma bra_model_le_pow2 m e l K :
  0 <= m -> e <= fexp64 (Zdigits2 m + e) ->
  -1022 <= K <= 1023 -> e <= K ->
  loc_le m l (2 ^ (K - e)) loc_Exact ->
  SFleb (bra_model false m e l) (sf_pow2 K) = true.
Proof.
  intros Hm Hc HK HeK Hle.
  assert (Hj : 0 <= K - e - 52).
  { pose proof (loc_le_mantissa _ _ _ _ Hle) as Hmm.
    destruct (Z.eq_dec m 0) as [->|Hn].
    - cbn [Zdigits2] in Hc. unfold fexp64 in Hc. lia.
    - destruct (Z.le_gt_cases (e + 53) (fexp64 (Zdigits2 m + e))) as [H1|H1].
      + pose proof (Zdigits2_lt_pow2 m (K - e) Hm ltac:(lia)) as D.
        destruct (Z.eq_dec m (2 ^ (K - e))) as [E|E].
        * unfold fexp64 in H1, Hc. 
          pose proof (Zdigits2_bounds m ltac:(lia)) as [B1 B2].
          assert (2 ^ (Zdigits2 m - 1) < 2 ^ (K - e + 1)).
          { rewrite E in B1 at 2. 
            apply Z.le_lt_trans with (2 ^ (K - e)); [assumption|].
            apply Z.pow_lt_mono_r; lia. }
          apply Z.pow_lt_mono_r_iff in H; lia.
        * specialize (D ltac:(lia)). unfold fexp64 in H1. lia.
      + unfold fexp64 in H1, Hc.
        pose proof (Zdigits2_lt_pow2 m (K - e + 1) Hm ltac:(lia)) as D.
        assert (m < 2 ^ (K - e + 1)).
        { rewrite Z.pow_add_r by lia. 
          assert (0 < 2 ^ (K - e)) by (apply Z.pow_pos_nonneg; lia). lia. }
        specialize (D H). lia. }
  assert (E : bra_model false (2 ^ (K - e)) e loc_Exact = sf_pow2 K).
  { replace (2 ^ (K - e)) with (4503599627370496 * 2 ^ (K - e - 52)).
    2:{ change 4503599627370496 with (2 ^ 52).
        rewrite <- Z.pow_add_r by lia. f_equal. lia. }
    replace e with ((K - 52) - (K - e - 52)) at 2 by lia.
    rewrite bra_model_scale; [| reflexivity | lia |].
    - apply (bra_model_exact false 4503599627370496 (K - 52)).
      apply sf_pow2_valid. assumption.
    - change (Zdigits2 4503599627370496) with 53. unfold fexp64. lia. }
  rewrite <- E. apply bra_model_mono; assumption.
Qed.

Lemma sf_pow2_mono K K' : K <= K' -> SFleb (sf_pow2 K) (sf_pow2 K') = true.
Proof.
  intros H. unfold sf_pow2, SFleb. cbn [SFcompare].
  destruct (Z.compare_spec (K - 52) (K' - 52)); try reflexivity. lia.
Qed.

Lemma sf_abs_le_weaken x K K' :
  K <= K' -> sf_abs_le x K = true -> sf_abs_le x K' = true.
Proof.
  unfold sf_abs_le. intros H A.
  apply (SFleb_trans _ (sf_pow2 K)); [assumption | apply sf_pow2_mono; assumption].
Qed.

Lemma sf_abs_le_finite x K : sf_abs_le x K = true -> sf_finite x = true.
Proof. destruct x as [s|s| |s m e]; try reflexivity; discriminate. Qed.

Lemma sf_abs_le_mantissa s m e K :
  valid_binary (S754_finite s m e) = true -> -1022 <= K <= 1023 ->
  sf_abs_le (S754_finite s m e) K = true ->
  e <= K - 52 /\ Z.pos m <= 2 ^ (K - e).
Proof. intros V HK H. apply le_pow2_mantissa; assumption. Qed.

Lemma sf_abs_le_bra_model sx m e l K :
  0 <= m -> e <= fexp64 (Zdigits2 m + e) ->
  -1022 <= K <= 1023 -> e <= K ->
  loc_le m l (2 ^ (K - e)) loc_Exact ->
  sf_abs_le (bra_model sx m e l) K = true.
Proof.
  intros Hm Hc HK HeK Hle. unfold sf_abs_le. rewrite SFabs_bra_model.
  pose proof (bra_model_nonneg m e l Hm) as N.
  pose proof (bra_model_le_pow2 m e l K Hm Hc HK HeK Hle) as B.
  destruct (bra_model false m e l) as [s|s| |s m1 e1]; try discriminate N;
    try exact B; try reflexivity.
  - destruct s; [discriminate N | exact B].
  - destruct s; [discriminate N | exact B].
Qed.

(** The magnitude of a product. *)
Lemma SFmul_abs_le x y K1 K2 :
  valid_binary x = true -> valid_binary y = true ->
  -1022 <= K1 <= 1023 -> -1022 <= K2 <= 1023 -> -1022 <= K1 + K2 <= 1023 ->
  sf_abs_le x K1 = true -> sf_abs_le y K2 = true ->
  sf_abs_le (SFmul prec emax x y) (K1 + K2) = true.
Proof.
  intros Vx Vy H1 H2 H12 Ax Ay.
  destruct x as [s|s| |s m e], y as [s'|s'| |s' m' e']; try discriminate;
    try reflexivity.
  destruct (sf_abs_le_mantissa _ _ _ _ Vx H1 Ax) as [E1 M1].
  destruct (sf_abs_le_mantissa _ _ _ _ Vy H2 Ay) as [E2 M2].
  rewrite SFmul_finite.
  apply sf_abs_le_bra_model; try lia.
  - rewrite <- Pos2Z.inj_mul. apply (mul_canonical _ _ _ _ s s'); assumption.
  - apply loc_le_exact.
    replace (K1 + K2 - (e + e')) with ((K1 - e) + (K2 - e')) by lia.
    rewrite Z.pow_add_r by lia.
    apply Z.mul_le_mono_nonneg; lia.
Qed.

Lemma sf_abs_le_binary_round sx p e K :
  -1022 <= K <= 1023 -> e <= K - 52 -> Z.pos p <= 2 ^ (K - e) ->
  sf_abs_le (binary_round prec emax sx p e) K = true.
Proof.
  intros HK He Hp. rewrite binary_round_model.
  set (e0 := Z.min e (fexp64 (Zdigits2 (Z.pos p) + e))).
  assert (HP : 0 < 2 ^ (e - e0)) by (apply Z.pow_pos_nonneg; unfold e0; lia).
  apply sf_abs_le_bra_model; try (unfold e0; lia).
  - apply (aligned_canonical (Z.pos p) e). reflexivity.
  - apply loc_le_exact.
    replace (K - e0) with ((K - e) + (e - e0)) by lia.
    rewrite Z.pow_add_r by (unfold e0; lia).
    apply Z.mul_le_mono_nonneg_r; lia.
Qed.

(** The magnitude of a sum. *)
Lemma SFadd_abs_le x y K :
  valid_binary x = true -> valid_binary y = true ->
  -1022 <= K -> K + 1 <= 1023 ->
  sf_abs_le x K = true -> sf_abs_le y K = true ->
  sf_abs_le (SFadd prec emax x y) (K + 1) = true.
Proof.
  intros Vx Vy H1 H2 Ax Ay.
  destruct x as [s|s| |s m e], y as [s'|s'| |s' m' e']; try discriminate.
  - destruct s, s'; reflexivity.
  - apply (sf_abs_le_weaken _ K); [lia | exact Ay].
  - apply (sf_abs_le_weaken _ K); [lia | exact Ax].
  - destruct (sf_abs_le_mantissa _ _ _ K Vx ltac:(lia) Ax) as [E1 M1].
    destruct (sf_abs_le_mantissa _ _ _ K Vy ltac:(lia) Ay) as [E2 M2].
    cbn [SFadd].
    rewrite (proj1 (shl_align_spec m e (Z.min e e'))).
    rewrite (proj1 (shl_align_spec m' e' (Z.min e e'))).
    replace (Z.min e (Z.min e e')) with (Z.min e e') by lia.
    replace (Z.min e' (Z.min e e')) with (Z.min e e') by lia.
    set (ez := Z.min e e').
    assert (B1 : Z.pos m * 2 ^ (e - ez) <= 2 ^ (K - ez)).
    { replace (K - ez) with ((K - e) + (e - ez)) by lia.
      rewrite Z.pow_add_r by (unfold ez; lia).
      apply Z.mul_le_mono_nonneg_r; [apply Z.pow_nonneg|]; lia. }
    assert (B2 : Z.pos m' * 2 ^ (e' - ez) <= 2 ^ (K - ez)).
    { replace (K - ez) with ((K - e') + (e' - ez)) by lia.
      rewrite Z.pow_add_r by (unfold ez; lia).
      apply Z.mul_le_mono_nonneg_r; [apply Z.pow_nonneg|]; lia. }
    assert (P1 : 0 < Z.pos m * 2 ^ (e - ez))
      by (apply Z.mul_pos_pos; [lia | apply Z.pow_pos_nonneg; unfold ez; lia]).
    assert (P2 : 0 < Z.pos m' * 2 ^ (e' - ez))
      by (apply Z.mul_pos_pos; [lia | apply Z.pow_pos_nonneg; unfold ez; lia]).
    assert (E : 2 ^ (K + 1 - ez) = 2 * 2 ^ (K - ez)).
    { replace (K + 1 - ez) with (1 + (K - ez)) by lia.
      rewrite Z.pow_add_r by (unfold ez; lia). reflexivity. }
    set (z := cond_Zopp s (Z.pos m * 2 ^ (e - ez))
              + cond_Zopp s' (Z.pos m' * 2 ^ (e' - ez))).
    assert (Bz : Z.abs z <= 2 ^ (K + 1 - ez)).
    { unfold z. destruct s, s'; cbn [cond_Zopp]; lia. }
    unfold binary_normalize. destruct z as [|p|p].
    + reflexivity.
    + apply sf_abs_le_binary_round; [lia | unfold ez; lia | lia].
    + apply sf_abs_le_binary_round; [lia | unfold ez; lia | lia].
Qed.

(** The quotient has a full mantissa unless it is subnormal. *)
Lemma div_canonical mx ex my ey :
  valid_binary (S754_finite false mx ex) = true ->
  valid_binary (S754_finite false my ey) = true ->
  Zdigits2 (Z.pos my) = 53 ->
  div_exp (Z.pos mx) ex (Z.pos my) ey
  <= fexp64 (Zdigits2 (div_num (Z.pos mx) ex (Z.pos my) ey / Z.pos my)
             + div_exp (Z.pos mx) ex (Z.pos my) ey).
Proof.
  intros Vx Vy Hdy.
  apply valid_finite in Vx, Vy.
  destruct Vx as (Dx & Rx & Cx), Vy as (Dy & Ry & Cy).
  destruct (div_exp_le (Z.pos mx) ex (Z.pos my) ey) as [E1 E2].
  unfold div_num.
  set (e' := div_exp (Z.pos mx) ex (Z.pos my) ey) in *.
  set (s := ex - ey - e').
  assert (Hs : 0 <= s) by (unfold s; lia).
  assert (HPs : 0 < 2 ^ s) by (apply Z.pow_pos_nonneg; lia).
  set (m' := Z.pos mx * 2 ^ s).
  destruct (Z.le_gt_cases e' (-1074)) as [Hn|Hn]; [unfold fexp64; lia|].
  assert (Hnorm : e' <= Zdigits2 (Z.pos mx) + ex - (53 + ey) - 53)
    by (rewrite Hdy in E2; unfold fexp64 in E2; lia).
  assert (H52 : 2 ^ 52 <= m' / Z.pos my).
  { apply Z.div_le_lower_bound; [lia|].
    pose proof (Zdigits2_bounds (Z.pos my) eq_refl) as [_ By].
    pose proof (Zdigits2_bounds (Z.pos mx) eq_refl) as [Bx _].
    rewrite Hdy in By.
    assert (2 ^ (106 - Zdigits2 (Z.pos mx)) <= 2 ^ s)
      by (apply Z.pow_le_mono_r; unfold s; lia).
    assert (2 ^ (Zdigits2 (Z.pos mx) - 1) * 2 ^ (106 - Zdigits2 (Z.pos mx))
            = 2 ^ 105).
    { pose proof (Zdigits2_pos (Z.pos mx) eq_refl).
      rewrite <- Z.pow_add_r by lia. f_equal. lia. }
    assert (2 ^ 105 <= m') by (unfold m'; nia).
    change (2 ^ 105) with (2 ^ 52 * 2 ^ 53) in *.
    change (2 ^ 52) with 4503599627370496 in *.
    change (2 ^ 53) with 9007199254740992 in *. nia. }
  pose proof (Zdigits2_ge_pow2 (m' / Z.pos my) 52 ltac:(lia) H52).
  unfold fexp64. lia.
Qed.

(** The magnitude of a quotient by a divisor of magnitude at least one. *)
Lemma SFdiv_abs_le x y K :
  valid_binary x = true -> valid_binary y = true ->
  -1022 <= K -> K + 1 <= 1023 ->
  sf_abs_le x K = true -> SFleb sf_one (SFabs y) = true ->
  sf_abs_le (SFdiv prec emax x y) (K + 1) = true.
Proof.
  intros Vx Vy H1 H2 Ax Ay.
  destruct x as [s|s| |s m e], y as [s'|s'| |s' m' e']; try discriminate;
    try reflexivity.
  destruct (sf_abs_le_mantissa _ _ _ K Vx ltac:(lia) Ax) as [E1 M1].
  assert (Vx' : valid_binary (S754_finite false m e) = true) by exact Vx.
  assert (Vy' : valid_binary (S754_finite false m' e') = true) by exact Vy.
  destruct (finite_leb_scaled 4503599627370496 (-52) m' e' eq_refl Vy' Ay)
    as [Ey My].
  pose proof (valid_finite _ _ _ Vy) as (Dy & Ry & Cy).
  assert (Hdy : Zdigits2 (Z.pos m') = 53) by lia.
  rewrite SFdiv_finite.
  pose proof (div_canonical m e m' e' Vx' Vy' Hdy) as C.
  destruct (div_exp_le (Z.pos m) e (Z.pos m') e') as [D1 D2].
  pose proof (valid_finite _ _ _ Vx) as (Dx & Rx & Cx).
  pose proof (Zdigits2_bounds (Z.pos m) eq_refl) as [Bx _].
  assert (Hdx : Zdigits2 (Z.pos m) + e <= K + 1).
  { assert (2 ^ (Zdigits2 (Z.pos m) - 1) < 2 ^ (K - e + 1)).
    { apply Z.le_lt_trans with (Z.pos m); [assumption|].
      apply Z.le_lt_trans with (2 ^ (K - e)); [assumption|].
      apply Z.pow_lt_mono_r; lia. }
    apply Z.pow_lt_mono_r_iff in H; lia. }
  unfold div_num in *.
  set (d := div_exp (Z.pos m) e (Z.pos m') e') in *.
  assert (HdK : d <= K - 52) by (rewrite Hdy in D2; unfold fexp64 in D2; lia).
  set (sft := e - e' - d) in *.
  assert (Hs : 0 <= sft) by (unfold sft; lia).
  assert (HPs : 0 < 2 ^ sft) by (apply Z.pow_pos_nonneg; lia).
  set (n := Z.pos m * 2 ^ sft) in *.
  assert (Hn : 0 < n) by (unfold n; nia).
  assert (Hq0 : 0 <= n / Z.pos m') by (apply Z.div_pos; lia).
  pose proof (Z.div_mod n (Z.pos m') ltac:(lia)) as DM.
  pose proof (Z.mod_pos_bound n (Z.pos m') eq_refl) as MB.
  assert (Hq : 2 * (n / Z.pos m') <= 2 ^ (K + 1 - d)).
  { assert (Hn2 : n <= 2 ^ (K - e' - d)).
    { replace (K - e' - d) with ((K - e) + sft) by (unfold sft; lia).
      rewrite Z.pow_add_r by lia. unfold n.
      apply Z.mul_le_mono_nonneg_r; lia. }
    assert (Hp : 2 ^ (K - e' - d) * 2 ^ (e' - -52)
                 = 2 ^ (K + 1 - d) * 2 ^ 51).
    { rewrite <- !Z.pow_add_r by lia. f_equal. lia. }
    assert (HP52 : 0 < 2 ^ (e' - -52)) by (apply Z.pow_pos_nonneg; lia).
    change (Z.pos 4503599627370496) with (2 ^ 52) in My.
    change (2 ^ 52) with (2 * 2 ^ 51) in My.
    assert (HP51 : 0 < 2 ^ 51) by reflexivity.
    assert (HPK : 0 < 2 ^ (K + 1 - d)) by (apply Z.pow_pos_nonneg; lia).
    nia. }
  apply sf_abs_le_bra_model; try lia.
  unfold loc_le, enc_loc. cbn [loc_r loc_s Z.b2z]. rewrite Z.add_0_r.
  assert (HPK : 2 ^ 1 <= 2 ^ (K + 1 - d)) by (apply Z.pow_le_mono_r; lia).
  change (2 ^ 1) with 2 in HPK.
  assert (Hb : Z.b2z (loc_r (new_location (Z.pos m') (n mod Z.pos m'))) <= 1)
    by (destruct (loc_r _); cbn; lia).
  split; [lia | intros H; lia].
Qed.

Lemma SFabs_nonneg_leb x b :
  sf_nonneg x = true -> SFleb (SFabs x) b = SFleb x b.
Proof.
  destruct x as [s|s| |s m e]; try discriminate; intros H;
    try (destruct s; [discriminate H | reflexivity]).
  reflexivity.
Qed.

Open Scope float_scope.

Lemma Prim2SF_pow2 K :
  (-1022 <= K <= 1023)%Z -> Prim2SF (pow2 K) = sf_pow2 K.
Proof. intros H. apply Prim2SF_SF2Prim, sf_pow2_valid, H. Qed.

Lemma abs_le_spec x K :
  (-1022 <= K <= 1023)%Z -> abs_le x K = sf_abs_le (Prim2SF x) K.
Proof.
  intros H. unfold abs_le, sf_abs_le.
  rewrite leb_spec, abs_spec, Prim2SF_pow2 by assumption. reflexivity.
Qed.

Lemma abs_le_intro x B K :
  (-1022 <= K <= 1023)%Z ->
  (0 <=? x) = true -> (x <=? B) = true -> (B <=? pow2 K) = true ->
  abs_le x K = true.
Proof.
  intros HK H0 HB HP. pose proof (leb_trans _ _ _ HB HP) as H.
  rewrite abs_le_spec by assumption. unfold sf_abs_le.
  rewrite leb_nonneg_spec in H0. rewrite SFabs_nonneg_leb by assumption.
  rewrite leb_spec, Prim2SF_pow2 in H by assumption. exact H.
Qed.

Lemma abs_le_weaken x K K' :
  (-1022 <= K)%Z -> (K <= K')%Z -> (K' <= 1023)%Z ->
  abs_le x K = true -> abs_le x K' = true.
Proof.
  intros H1 H2 H3. rewrite !abs_le_spec by lia. apply sf_abs_le_weaken, H2.
Qed.

Lemma abs_le_finite x K :
  (-1022 <= K <= 1023)%Z -> abs_le x K = true -> is_finite x = true.
Proof.
  intros HK. rewrite abs_le_spec, is_finite_spec by assumption.
  apply sf_abs_le_finite.
Qed.

Lemma mul_abs_le x y K1 K2 :
  (-1022 <= K1 <= 1023)%Z -> (-1022 <= K2 <= 1023)%Z ->
  (-1022 <= K1 + K2 <= 1023)%Z ->
  abs_le x K1 = true -> abs_le y K2 = true -> abs_le (x * y) (K1 + K2) = true.
Proof.
  intros H1 H2 H12. rewrite !abs_le_spec, mul_spec by assumption.
  apply SFmul_abs_le; auto using Prim2SF_valid.
Qed.

Lemma add_abs_le x y K :
  (-1022 <= K)%Z -> (K + 1 <= 1023)%Z ->
  abs_le x K = true -> abs_le y K = true -> abs_le (x + y) (K + 1) = true.
Proof.
  intros H1 H2. rewrite !abs_le_spec, add_spec by lia.
  apply SFadd_abs_le; auto using Prim2SF_valid.
Qed.

Lemma div_abs_le x y K :
  (-1022 <= K)%Z -> (K + 1 <= 1023)%Z ->
  abs_le x K = true -> (1 <=? y) = true -> abs_le (x / y) (K + 1) = true.
Proof.
  intros H1 H2. rewrite !abs_le_spec, div_spec, leb_spec, Prim2SF_one by lia.
  intros Ax Hy. apply SFdiv_abs_le; auto using Prim2SF_valid.
  destruct (Prim2SF y) as [s|s| |s m e]; try discriminate Hy;
    destruct s; try discriminate Hy; exact Hy.
Qed.

(** A non-negative value over a positive finite one. *)
Lemma div_nonneg x y :
  (0 <=? x) = true -> is_finite y = true -> (0 <? y) = true ->
  (0 <=? x / y) = true.
Proof.
  intros Hx Fy Hy. destruct (pos_finite_spec y Fy Hy) as (m & e & E).
  rewrite leb_spec, Prim2SF_zero in *. rewrite div_spec, E.
  apply SFdiv_nonneg. exact Hx.
Qed.

Open Scope Z_scope.

(** * The sign of a difference *)

Lemma SFsub_finite sx mx ex sy my ey :
  SFsub prec emax (S754_finite sx mx ex) (S754_finite sy my ey)
  = binary_normalize prec emax
      (cond_Zopp sx (Z.pos mx * 2 ^ (ex - Z.min ex ey))
       - cond_Zopp sy (Z.pos my * 2 ^ (ey - Z.min ex ey)))
      (Z.min ex ey) false.
Proof.
  cbn [SFsub].
  rewrite (proj1 (shl_align_spec mx ex (Z.min ex ey))).
  rewrite (proj1 (shl_align_spec my ey (Z.min ex ey))).
  replace (Z.min ex (Z.min ex ey)) with (Z.min ex ey) by lia.
  replace (Z.min ey (Z.min ex ey)) with (Z.min ex ey) by lia.
  reflexivity.
Qed.

Lemma binary_normalize_ltb_zero z e :
  -1074 <= e ->
  SFltb (binary_normalize prec emax z e false) (S754_zero false) = (z <? 0).
Proof.
  intros He. destruct z as [|p|p]; cbn [binary_normalize].
  - reflexivity.
  - apply sf_nonneg_not_lt_zero, binary_round_nonneg.
  - rewrite binary_round_opp.
    apply sf_neg_lt_zero; [apply binary_round_nonneg|].
    apply binary_round_nonzero. exact He.
Qed.

Lemma SFltb_false_leb x y :
  sf_is_nan x = false -> sf_is_nan y = false ->
  SFltb x y = false -> SFleb y x = true.
Proof.
  intros Hx Hy H. destruct (SFleb y x) eqn:E; [reflexivity|].
  rewrite (SFleb_total y x Hy Hx E) in H. discriminate H.
Qed.

(** Order of two positive finite values, on their aligned mantissas. *)
Lemma SFltb_pos_aligned mx ex my ey :
  valid_binary (S754_finite false mx ex) = true ->
  valid_binary (S754_finite false my ey) = true ->
  SFltb (S754_finite false mx ex) (S754_finite false my ey)
  = (Z.pos mx * 2 ^ (ex - Z.min ex ey) <? Z.pos my * 2 ^ (ey - Z.min ex ey)).
Proof.
  intros Vx Vy.
  destruct (SFltb (S754_finite false mx ex) (S754_finite false my ey)) eqn:E.
  - destruct (finite_ltb_scaled _ _ _ _ Vx Vy E) as [He Hm].
    replace (Z.min ex ey) with ex by lia.
    rewrite Z.sub_diag, Z.pow_0_r, Z.mul_1_r. symmetry. apply Z.ltb_lt. exact Hm.
  - apply SFltb_false_leb in E; [|reflexivity|reflexivity].
    destruct (finite_leb_scaled _ _ _ _ Vy Vx E) as [He Hm].
    replace (Z.min ex ey) with ey by lia.
    rewrite Z.sub_diag, Z.pow_0_r, Z.mul_1_r. symmetry. apply Z.ltb_ge. exact Hm.
Qed.

Lemma SFltb_opp x y : SFltb (SFopp x) (SFopp y) = SFltb y x.
Proof. unfold SFltb. rewrite SFcompare_opp. reflexivity. Qed.

(** Order of two finite values, on their signed aligned mantissas. *)
Lemma SFltb_finite_aligned sx mx ex sy my ey :
  valid_binary (S754_finite sx mx ex) = true ->
  valid_binary (S754_finite sy my ey) = true ->
  SFltb (S754_finite sx mx ex) (S754_finite sy my ey)
  = (cond_Zopp sx (Z.pos mx * 2 ^ (ex - Z.min ex ey))
     - cond_Zopp sy (Z.pos my * 2 ^ (ey - Z.min ex ey)) <? 0).
Proof.
  intros Vx Vy.
  assert (PX : 0 < Z.pos mx * 2 ^ (ex - Z.min ex ey))
    by (apply Z.mul_pos_pos; [lia | apply Z.pow_pos_nonneg; lia]).
  assert (PY : 0 < Z.pos my * 2 ^ (ey - Z.min ex ey))
    by (apply Z.mul_pos_pos; [lia | apply Z.pow_pos_nonneg; lia]).
  destruct sx, sy; cbn [cond_Zopp].
  - change (S754_finite true mx ex) with (SFopp (S754_finite false mx ex)).
    change (S754_finite true my ey) with (SFopp (S754_finite false my ey)).
    rewrite SFltb_opp, (SFltb_pos_aligned my ey mx ex Vy Vx).
    rewrite (Z.min_comm ey ex).
    destruct (Z.ltb_spec (Z.pos my * 2 ^ (ey - Z.min ex ey))
                         (Z.pos mx * 2 ^ (ex - Z.min ex ey)));
      symmetry; [apply Z.ltb_lt | apply Z.ltb_ge]; lia.
  - transitivity true; [reflexivity | symmetry; apply Z.ltb_lt; lia].
  - transitivity false; [reflexivity | symmetry; apply Z.ltb_ge; lia].
  - rewrite (SFltb_pos_aligned mx ex my ey Vx Vy).
    destruct (Z.ltb_spec (Z.pos mx * 2 ^ (ex - Z.min ex ey))
                         (Z.pos my * 2 ^ (ey - Z.min ex ey)));
      symmetry; [apply Z.ltb_lt | apply Z.ltb_ge]; lia.
Qed.

(** A difference is negative exactly when the first value is below the
    second: subtraction never rounds a non-zero difference to zero. *)
Lemma SFsub_ltb_zero x y :
  valid_binary x = true -> valid_binary y = true ->
  SFltb (SFsub prec emax x y) (S754_zero false) = SFltb x y.
Proof.
  intros Vx Vy.
  destruct x as [sx|sx| |sx mx ex], y as [sy|sy| |sy my ey];
    try reflexivity;
    try (destruct sx; reflexivity); try (destruct sy; reflexivity);
    try (destruct sx, sy; reflexivity).
  rewrite SFsub_finite, SFltb_finite_aligned by assumption.
  apply binary_normalize_ltb_zero.
  pose proof (valid_finite _ _ _ Vx) as (_ & Rx & _).
  pose proof (valid_finite _ _ _ Vy) as (_ & Ry & _). lia.
Qed.

(** * Integers as floats *)

(** An integer below [2 ^ 1023] in magnitude rounds to a finite float. *)
Lemma binary_normalize_small n :
  Z.abs n < 2 ^ 1023 ->
  sf_finite (binary_normalize prec emax n 0 false) = true.
Proof.
  intros H. destruct n as [|p|p]; cbn [binary_normalize]; [reflexivity| |];
    rewrite binary_round_model;
    set (e0 := Z.min 0 (fexp64 (Zdigits2 (Z.pos p) + 0)));
    (assert (HP : 0 < 2 ^ (0 - e0)) by (apply Z.pow_pos_nonneg; unfold e0; lia));
    (apply bra_model_finite;
     [ apply Z.mul_nonneg_nonneg; lia
     | unfold e0; lia
     | rewrite Zdigits2_mul_pow2 by (unfold e0; lia);
       pose proof (Zdigits2_lt_pow2 (Z.pos p) 1023 ltac:(lia) ltac:(lia)
                     ltac:(lia)); lia ]).
Qed.

Open Scope float_scope.

Lemma sub_ltb_zero c t : (c - t <? 0) = (c <? t).
Proof.
  rewrite !ltb_spec, sub_spec, Prim2SF_zero.
  apply SFsub_ltb_zero; apply Prim2SF_valid.
Qed.

Lemma leb_refl x : is_nan x = false -> (x <=? x) = true.
Proof. rewrite is_nan_spec, leb_spec. apply SFleb_refl. Qed.

(** * Properties *)

(** ** Direct baseline: the returned sum *)

(** The returned value, with every local unfolded. *)
Lemma calc_baseline_direct_unfold system gwp life emb :
  calc_baseline_direct system gwp life emb
  = Ok (let c := refrigerant_charge_kg system in
        let t := c * (annual_leak_rate_pct system / 100) * life in
        let r := py_max (c - t) 0 in
        (t + r * (eol_loss_pct system / 100)) * gwp
        + c * (reclaimed_refrigerant_pct system / 100) * gwp * (-0.5)
        + material_weight_kg system * emb).
Proof. reflexivity. Qed.

(** The clamp of the code, [max(charge - total_leak, 0)], is the clamp of the
    specification on every pair of floats. *)
Lemma py_max_spec_remaining c t : py_max (c - t) 0 = spec_remaining_kg c t.
Proof. unfold py_max, spec_remaining_kg. rewrite sub_ltb_zero. reflexivity. Qed.

Lemma calc_baseline_direct_eq system gwp life emb :
  calc_baseline_direct system gwp life emb
  = Ok (spec_baseline_direct system gwp life emb).
Proof.
  rewrite calc_baseline_direct_unfold. unfold spec_baseline_direct.
  cbv zeta. rewrite py_max_spec_remaining. reflexivity.
Qed.

(** At an int [lifetime_years] the function is the conversion of the int
    followed by the computation on the float. *)
Lemma calc_baseline_direct_int system gwp n emb :
  IntLifetime.calc_baseline_direct system gwp n emb
  = (life <- float_of_int n ;; calc_baseline_direct system gwp life emb).
Proof.
  unfold IntLifetime.calc_baseline_direct,
    IntLifetime.calc_baseline_direct_locals, py_mul_float_int.
  cbn [py_truediv bind].
  change (100.0 =? 0) with false. cbv iota. cbn [bind].
  destruct (float_of_int n) as [life|e]; reflexivity.
Qed.

(** [remaining_kg] is the larger of the difference and zero. *)
Lemma remaining_is_max system gwp life emb l :
  calc_baseline_direct_locals system gwp life emb = Ok l ->
  is_nan (refrigerant_charge_kg system - total_leak_kg l) = false ->
  (refrigerant_charge_kg system - total_leak_kg l <=? remaining_kg l) = true
  /\ (0 <=? remaining_kg l) = true
  /\ (remaining_kg l = refrigerant_charge_kg system - total_leak_kg l
      \/ remaining_kg l = 0).
Proof.
  unfold calc_baseline_direct_locals, py_truediv. cbn [bind].
  change (100.0 =? 0) with false. cbv iota. cbn [bind].
  intros [= <-]. cbn [remaining_kg total_leak_kg]. intros N.
  unfold py_max.
  destruct (_ - _ <? 0) eqn:E.
  - split; [apply ltb_leb; exact E | split; [reflexivity | right; reflexivity]].
  - split; [apply leb_refl; exact N|].
    split; [apply not_lt_zero_nonneg; assumption | left; reflexivity].
Qed.

(** C1: for every system record and all float scalars,
    [calc_baseline_direct] returns exactly the sum
    refrigerant_emissions + reclaimed_credit + embodied of the specification's
    formula, in which remaining_kg is the unleaked charge and zero once the
    lifetime leak exceeds the charge; at the annotated type of
    lifetime_years the same value is returned for every int that converts
    to a float.  remaining_kg is the larger of charge_kg - total_leak_kg and
    0.  The clamp is reached at [fully_leaked_system]; the final sum is left
    unclamped: at [all_credit_system] the result is negative. *)
Theorem calc_baseline_direct_formula :
  (forall system gwp life emb,
      calc_baseline_direct system gwp life emb
      = Ok (spec_baseline_direct system gwp life emb))
  /\ (forall system gwp n emb life,
         float_of_int n = Ok life ->
         IntLifetime.calc_baseline_direct system gwp n emb
         = Ok (spec_baseline_direct system gwp life emb))
  /\ (forall system gwp life emb l,
         calc_baseline_direct_locals system gwp life emb = Ok l ->
         is_nan (refrigerant_charge_kg system - total_leak_kg l) = false ->
         (refrigerant_charge_kg system - total_leak_kg l <=? remaining_kg l)
         = true
         /\ (0 <=? remaining_kg l) = true
         /\ (remaining_kg l = refrigerant_charge_kg system - total_leak_kg l
             \/ remaining_kg l = 0))
  /\ calc_baseline_direct fully_leaked_system 675 15 5
     = Ok (4.5000000000000009 * 675 + (-405.00000000000006) + 700)
  /\ IntLifetime.calc_baseline_direct fully_leaked_system 675 15 5
     = Ok (4.5000000000000009 * 675 + (-405.00000000000006) + 700)
  /\ calc_baseline_direct all_credit_system 675 15 5 = Ok (-3375)
  /\ (-3375 <? 0) = true.
Proof.
  split; [exact calc_baseline_direct_eq|].
  split.
  { intros system gwp n emb life H.
    rewrite calc_baseline_direct_int, H. cbn [bind].
    apply calc_baseline_direct_eq. }
  split; [exact remaining_is_max|].
  repeat split; vm_compute; reflexivity.
Qed.

Lemma calc_baseline_direct_formula_witness :
  IntLifetime.calc_baseline_direct reference_system 675 15 5
  = Ok (spec_baseline_direct reference_system 675 15 5).
Proof.
  apply (proj1 (proj2 calc_baseline_direct_formula) reference_system 675
           15%Z 5 15).
  vm_compute. reflexivity.
Defined.

(** ** Identity points of the correction factors *)

(** C9: at the non-adjusting feature values both builders return exactly
    1.0. *)
Theorem cf_builders_identity :
  build_direct_cf direct_neutral = 1.0
  /\ build_indirect_cf indirect_neutral = 1.0.
Proof. split; vm_compute; reflexivity. Qed.

(** ** Indirect baseline *)

Lemma calc_baseline_indirect_eq system life grid :
  calc_baseline_indirect system life grid =
  if (seer2 system =? 0) || (hspf2 system =? 0) then Raise ZeroDivisionError
  else Ok (((capacity_btuh system * 1000) / (seer2 system * 1000)
            + (capacity_btuh system * 600) / (hspf2 system * 1000))
           * grid * life).
Proof.
  unfold calc_baseline_indirect, py_truediv, DEFAULT_COOLING_HOURS,
    DEFAULT_HEATING_HOURS.
  rewrite !mul_1000_zero_iff.
  destruct (seer2 system =? 0); [reflexivity|].
  destruct (hspf2 system =? 0); reflexivity.
Qed.

(** C2, amended: for positive seer2 and hspf2, [calc_baseline_indirect]
    returns ((capacity*1000)/(seer2*1000) + (capacity*600)/(hspf2*1000))
    * grid_factor * lifetime_years, with the constants 1000 and 600; at the
    reference scenario the value is 28164.705882352941, that is 28,164.7
    within 0.1. *)
Theorem calc_baseline_indirect_formula :
  (forall system life grid,
      (0 <? seer2 system) = true -> (0 <? hspf2 system) = true ->
      calc_baseline_indirect system life grid
      = Ok (((capacity_btuh system * DEFAULT_COOLING_HOURS)
               / (seer2 system * 1000)
             + (capacity_btuh system * DEFAULT_HEATING_HOURS)
               / (hspf2 system * 1000))
            * grid * life))
  /\ DEFAULT_COOLING_HOURS = 1000 /\ DEFAULT_HEATING_HOURS = 600
  /\ calc_baseline_indirect reference_system 15 0.38 = Ok 28164.705882352941
  /\ (28164.6 <=? 28164.705882352941) = true
  /\ (28164.705882352941 <=? 28164.8) = true.
Proof.
  split; [| repeat split; vm_compute; reflexivity].
  intros system life grid Hs Hh.
  rewrite calc_baseline_indirect_eq.
  rewrite (ltb_neq_zero _ Hs), (ltb_neq_zero _ Hh). reflexivity.
Qed.

Lemma calc_baseline_indirect_formula_witness :
  calc_baseline_indirect reference_system 15 0.38
  = Ok (((36000 * 1000) / (15.0 * 1000) + (36000 * 600) / (8.5 * 1000))
        * 0.38 * 15).
Proof.
  apply (proj1 calc_baseline_indirect_formula reference_system 15 0.38);
    reflexivity.
Defined.

(** The value at the reference scenario is not within 0.1 of 28,184.7. *)
Lemma calc_baseline_indirect_reference_off :
  exists v,
    calc_baseline_indirect reference_system 15 0.38 = Ok v
    /\ ((28184.6 <=? v) && (v <=? 28184.8)) = false.
Proof. exists 28164.705882352941. split; vm_compute; reflexivity. Qed.

(** ** Range of the direct correction factor *)

Ltac cf_cases :=
  repeat match goal with
         | |- context [if ?b then _ else _] => destruct b
         end.

Lemma build_direct_cf_range cf :
  (0.80869918499999993 <=? build_direct_cf cf) = true
  /\ (build_direct_cf cf <=? 1.01) = true.
Proof.
  unfold build_direct_cf, reclaimed_block, volume_block, usa_block, leak_block,
    safety_block.
  cf_cases; split; vm_compute; reflexivity.
Qed.

(** C3, amended: for every feature record the direct multiplier lies
    between 0.80869918499999993 and 1.01; the lower end is reached with all
    five discounts and the upper end with the class-3 penalty alone. *)
Theorem build_direct_cf_bounds :
  (forall cf,
      (0.80869918499999993 <=? build_direct_cf cf) = true
      /\ (build_direct_cf cf <=? 1.01) = true)
  /\ build_direct_cf direct_all_discounts = 0.80869918499999993
  /\ build_direct_cf direct_penalty_only = 1.01.
Proof.
  split; [exact build_direct_cf_range | split; vm_compute; reflexivity].
Qed.

(** With every discount applied the multiplier is below 0.81, outside the
    range 0.85 to 1.02. *)
Lemma build_direct_cf_below_range :
  (build_direct_cf direct_all_discounts <? 0.81) = true
  /\ ((0.85 <=? build_direct_cf direct_all_discounts)
      && (build_direct_cf direct_all_discounts <=? 1.02)) = false.
Proof. split; vm_compute; reflexivity. Qed.

(** ** Tier thresholds of the direct correction factor *)

(** C4: the thresholds are inclusive and the first matching branch wins.
    Reclaimed exactly 50 multiplies by 0.90 only, values in [20,50) by 0.95,
    values below 20 leave the accumulator unchanged; volume exactly 6
    multiplies by 0.97 only, values in (6,10] by 0.99, larger volumes leave
    it unchanged; [build_direct_cf] applies the two blocks first, to the
    starting value 1.0. *)
Theorem direct_cf_tiers (cf : DirectCFInputs) (cf_val : float) :
  let r := reclaimed_per_unit_pct cf in
  let v := unit_volume_cuft cf in
  (r = 50 -> reclaimed_block cf cf_val = cf_val * 0.9)
  /\ ((20 <=? r) = true -> (r <? 50) = true ->
      reclaimed_block cf cf_val = cf_val * 0.95)
  /\ ((r <? 20) = true -> reclaimed_block cf cf_val = cf_val)
  /\ (v = 6 -> volume_block cf cf_val = cf_val * 0.97)
  /\ ((6 <? v) = true -> (v <=? 10) = true ->
      volume_block cf cf_val = cf_val * 0.99)
  /\ ((10 <? v) = true -> volume_block cf cf_val = cf_val)
  /\ build_direct_cf cf
     = safety_block cf
         (leak_block cf (usa_block cf (volume_block cf (reclaimed_block cf 1.0))))
  /\ build_direct_cf reclaimed_50 = 0.9
  /\ build_direct_cf volume_6 = 0.97.
Proof.
  cbv zeta. unfold reclaimed_block, volume_block.
  repeat split.
  - intros ->. reflexivity.
  - intros H20 H50. rewrite (ltb_leb_false _ _ H50), H20. reflexivity.
  - intros H20.
    rewrite (ltb_leb_false _ _ H20).
    assert (H50 : (reclaimed_per_unit_pct cf <? 50) = true)
      by (apply (ltb_leb_trans _ 20); [assumption | reflexivity]).
    rewrite (ltb_leb_false _ _ H50). reflexivity.
  - intros ->. reflexivity.
  - intros H6 H10. rewrite (ltb_leb_false _ _ H6), H10. reflexivity.
  - intros H10.
    rewrite (ltb_leb_false _ _ H10).
    assert (H6 : (6 <? unit_volume_cuft cf) = true)
      by (apply (leb_ltb_trans _ 10); [reflexivity | assumption]).
    rewrite (ltb_leb_false _ _ H6). reflexivity.
Qed.

Lemma direct_cf_tiers_witness :
  reclaimed_block reclaimed_50 1 = 1 * 0.9
  /\ volume_block volume_6 1 = 1 * 0.97.
Proof.
  split.
  - apply (proj1 (direct_cf_tiers reclaimed_50 1)). reflexivity.
  - apply (proj1 (proj2 (proj2 (proj2 (direct_cf_tiers volume_6 1))))).
    reflexivity.
Defined.

(** ** String matching in the correction factors *)

(** C5: the compressor type is lowercased, then stripped, then matched in
    the order starts-with-"1" (factor 1.00, the multiplier stays 1.0),
    contains "2" (0.95), contains "var" (0.90); any other string leaves the
    multiplier unchanged, and a safety class that is neither "2L" nor "3"
    after normalisation leaves the direct multiplier unchanged.  Both
    builders are total functions of their string argument. *)
Theorem compressor_first_match (cf : IndirectCFInputs) :
  let ctype := Str.strip (Str.lower (compressor_type cf)) in
  (Str.startswith ctype "1" = true -> compressor_block cf 1.0 = 1.0)
  /\ (Str.startswith ctype "1" = false -> Str.contains "2" ctype = true ->
      compressor_block cf 1.0 = 0.95)
  /\ (Str.startswith ctype "1" = false -> Str.contains "2" ctype = false ->
      Str.contains "var" ctype = true -> compressor_block cf 1.0 = 0.90)
  /\ (Str.startswith ctype "1" = false -> Str.contains "2" ctype = false ->
      Str.contains "var" ctype = false -> compressor_block cf 1.0 = 1.0)
  /\ build_indirect_cf cf
     = thermostat_block cf (demand_flex_block cf (compressor_block cf 1.0))
  /\ (forall d cf_val,
        let safety := Str.upper (Str.strip (refrigerant_safety_class d)) in
        String.eqb safety "2L" = false -> String.eqb safety "3" = false ->
        safety_block d cf_val = cf_val)
  /\ build_indirect_cf compressor_12var = 1.0
  /\ build_indirect_cf compressor_var2 = 0.95
  /\ build_indirect_cf compressor_variable = 0.90.
Proof.
  cbv zeta. unfold compressor_block, safety_block.
  repeat split.
  - intros ->. reflexivity.
  - intros -> ->. reflexivity.
  - intros -> -> ->. reflexivity.
  - intros -> -> ->. reflexivity.
  - intros d cf_val -> ->. reflexivity.
Qed.

Lemma compressor_first_match_witness :
  compressor_block compressor_var2 1.0 = 0.95.
Proof.
  apply (proj1 (proj2 (compressor_first_match compressor_var2)));
    reflexivity.
Defined.

(** ** Totality and the division-by-zero branch *)

(** At an int [lifetime_years] the divisions come first, then the
    conversion of the int. *)
Lemma calc_baseline_indirect_int system n grid :
  IntLifetime.calc_baseline_indirect system n grid
  = if (seer2 system =? 0) || (hspf2 system =? 0) then Raise ZeroDivisionError
    else (life <- float_of_int n ;;
          Ok (((capacity_btuh system * 1000) / (seer2 system * 1000)
               + (capacity_btuh system * 600) / (hspf2 system * 1000))
              * grid * life)).
Proof.
  unfold IntLifetime.calc_baseline_indirect, py_mul_float_int, py_truediv,
    DEFAULT_COOLING_HOURS, DEFAULT_HEATING_HOURS.
  rewrite !mul_1000_zero_iff.
  destruct (seer2 system =? 0); [reflexivity|].
  destruct (hspf2 system =? 0); reflexivity.
Qed.

(** An int of magnitude below [2 ^ 1023] converts to a float. *)
Lemma float_of_int_small n :
  (Z.abs n < 2 ^ 1023)%Z -> exists life, float_of_int n = Ok life.
Proof.
  intros H. unfold float_of_int.
  pose proof (binary_normalize_small n H) as F.
  destruct (binary_normalize prec emax n 0 false); try discriminate F;
    eexists; reflexivity.
Qed.

(** The conversion raises nothing but [OverflowError]. *)
Lemma float_of_int_cases n :
  (exists life, float_of_int n = Ok life)
  \/ float_of_int n = Raise OverflowError.
Proof.
  unfold float_of_int.
  destruct (binary_normalize prec emax n 0 false);
    try (left; eexists; reflexivity). right. reflexivity.
Qed.

(** C6, amended: with an int [lifetime_years] that converts to a float
    (every int of magnitude below 2^1023 does) [calc_baseline_direct]
    returns a value, and so does [calc_baseline_indirect] when seer2 and
    hspf2 are non-zero; with an int beyond the float range both raise
    [OverflowError].  [calc_baseline_indirect] has no guard: it raises
    [ZeroDivisionError] as soon as seer2 or hspf2 is zero, whatever the
    lifetime, and under the positivity precondition that branch is
    unreachable.  The two builders are total and always return a finite
    number. *)
Theorem core_functions_total :
  (forall system gwp n emb life,
      float_of_int n = Ok life ->
      exists v, IntLifetime.calc_baseline_direct system gwp n emb = Ok v)
  /\ (forall system gwp n emb,
         float_of_int n = Raise OverflowError ->
         IntLifetime.calc_baseline_direct system gwp n emb
         = Raise OverflowError)
  /\ (forall system n grid life,
         (seer2 system =? 0) = false -> (hspf2 system =? 0) = false ->
         float_of_int n = Ok life ->
         exists v, IntLifetime.calc_baseline_indirect system n grid = Ok v)
  /\ (forall system n grid,
         (seer2 system =? 0) = false -> (hspf2 system =? 0) = false ->
         float_of_int n = Raise OverflowError ->
         IntLifetime.calc_baseline_indirect system n grid
         = Raise OverflowError)
  /\ (forall system n grid,
         (seer2 system =? 0) = true \/ (hspf2 system =? 0) = true ->
         IntLifetime.calc_baseline_indirect system n grid
         = Raise ZeroDivisionError)
  /\ (forall system n grid,
         (0 <? seer2 system) = true -> (0 <? hspf2 system) = true ->
         IntLifetime.calc_baseline_indirect system n grid
         <> Raise ZeroDivisionError)
  /\ (forall n,
         (Z.abs n < 2 ^ 1023)%Z -> exists life, float_of_int n = Ok life)
  /\ (forall n,
         (exists life, float_of_int n = Ok life)
         \/ float_of_int n = Raise OverflowError)
  /\ (forall cf, is_finite (build_direct_cf cf) = true)
  /\ (forall cf, is_finite (build_indirect_cf cf) = true).
Proof.
  repeat split.
  - intros system gwp n emb life H.
    rewrite calc_baseline_direct_int, H. cbn [bind].
    eexists. apply calc_baseline_direct_eq.
  - intros system gwp n emb H. rewrite calc_baseline_direct_int, H. reflexivity.
  - intros system n grid life Hs Hh H.
    rewrite calc_baseline_indirect_int, Hs, Hh, H. eexists. reflexivity.
  - intros system n grid Hs Hh H.
    rewrite calc_baseline_indirect_int, Hs, Hh, H. reflexivity.
  - intros system n grid [H|H]; rewrite calc_baseline_indirect_int, H;
      [reflexivity | rewrite orb_true_r; reflexivity].
  - intros system n grid Hs Hh.
    rewrite calc_baseline_indirect_int, (ltb_neq_zero _ Hs),
      (ltb_neq_zero _ Hh). cbn [orb].
    destruct (float_of_int_cases n) as [[life ->] | ->]; discriminate.
  - exact float_of_int_small.
  - exact float_of_int_cases.
  - intros cf.
    unfold build_direct_cf, reclaimed_block, volume_block, usa_block,
      leak_block, safety_block.
    cf_cases; vm_compute; reflexivity.
  - intros cf.
    unfold build_indirect_cf, compressor_block, demand_flex_block,
      thermostat_block.
    cf_cases; vm_compute; reflexivity.
Qed.

Lemma core_functions_total_witness :
  (exists v, IntLifetime.calc_baseline_direct reference_system 675 15 5 = Ok v)
  /\ (exists v, IntLifetime.calc_baseline_indirect reference_system 15 0.38
                = Ok v)
  /\ IntLifetime.calc_baseline_indirect zero_seer2_system 15 0.38
     = Raise ZeroDivisionError.
Proof.
  split; [|split].
  - apply (proj1 core_functions_total reference_system 675 15%Z 5 15).
    vm_compute. reflexivity.
  - apply (proj1 (proj2 (proj2 core_functions_total)) reference_system 15%Z
             0.38 15); vm_compute; reflexivity.
  - apply (proj1 (proj2 (proj2 (proj2 (proj2 core_functions_total))))
             zero_seer2_system 15%Z 0.38).
    left. reflexivity.
Defined.

(** The int 10^400 is a finite number of the annotated type of
    lifetime_years; at the reference scenario, with non-zero seer2 and
    hspf2, both baselines raise [OverflowError] on it. *)
Lemma lifetime_overflow_raises :
  IntLifetime.calc_baseline_direct reference_system 675 (10 ^ 400) 5
  = Raise OverflowError
  /\ IntLifetime.calc_baseline_indirect reference_system (10 ^ 400) 0.38
     = Raise OverflowError
  /\ (seer2 reference_system =? 0) = false
  /\ (hspf2 reference_system =? 0) = false.
Proof. repeat split; vm_compute; reflexivity. Qed.

(** ** Monotonicity of the refrigerant emissions in the GWP *)

Lemma locals_gwp_independent system gwp gwp' life emb l l' :
  calc_baseline_direct_locals system gwp life emb = Ok l ->
  calc_baseline_direct_locals system gwp' life emb = Ok l' ->
  total_leak_kg l' = total_leak_kg l /\ eol_leak_kg l' = eol_leak_kg l
  /\ refrigerant_emissions l = (total_leak_kg l + eol_leak_kg l) * gwp
  /\ refrigerant_emissions l' = (total_leak_kg l + eol_leak_kg l) * gwp'.
Proof.
  unfold calc_baseline_direct_locals, py_truediv; cbn.
  intros [= <-] [= <-]. cbn. auto.
Qed.

(** C8, amended: with the other inputs fixed and a positive finite leak
    total total_leak_kg + eol_leak_kg, raising the GWP never lowers
    refrigerant_emissions: for gwp1 < gwp2 the term at gwp1 is at most the
    term at gwp2.  (Two nearby GWP values can round to the same product.) *)
Theorem refrigerant_emissions_monotone system life emb gwp1 gwp2 l1 l2 :
  calc_baseline_direct_locals system gwp1 life emb = Ok l1 ->
  calc_baseline_direct_locals system gwp2 life emb = Ok l2 ->
  is_finite (total_leak_kg l1 + eol_leak_kg l1) = true ->
  (0 <? total_leak_kg l1 + eol_leak_kg l1) = true ->
  (gwp1 <? gwp2) = true ->
  refrigerant_emissions l1 = (total_leak_kg l1 + eol_leak_kg l1) * gwp1
  /\ refrigerant_emissions l2 = (total_leak_kg l1 + eol_leak_kg l1) * gwp2
  /\ (refrigerant_emissions l1 <=? refrigerant_emissions l2) = true.
Proof.
  intros H1 H2 HF HP Hg.
  destruct (locals_gwp_independent _ _ _ _ _ _ _ H1 H2) as (_ & _ & E1 & E2).
  rewrite E1, E2. repeat split.
  apply mul_mono; [assumption | assumption | apply ltb_leb; assumption].
Qed.

Lemma refrigerant_emissions_monotone_witness :
  exists l1 l2,
    calc_baseline_direct_locals reference_system 675 15 5 = Ok l1
    /\ calc_baseline_direct_locals reference_system 2088 15 5 = Ok l2
    /\ (refrigerant_emissions l1 <=? refrigerant_emissions l2) = true.
Proof.
  eexists. eexists. split; [reflexivity|]. split; [reflexivity|].
  apply (refrigerant_emissions_monotone reference_system 15 5 675 2088);
    reflexivity.
Defined.

(** At a leak total of 0.94 kg two adjacent GWP values near 675 give the
    same refrigerant emissions, and at the reference system (leak total
    2.82 kg) the GWP values 1e308 and 1.5e308 both give plus infinity: the
    increase is not strict. *)
Lemma refrigerant_emissions_not_strict :
  (exists l1 l2,
      calc_baseline_direct_locals one_kg_system 675.00000000000034 15 5 = Ok l1
      /\ calc_baseline_direct_locals one_kg_system 675.00000000000045 15 5
         = Ok l2
      /\ (0 <? total_leak_kg l1 + eol_leak_kg l1) = true
      /\ (675.00000000000034 <? 675.00000000000045) = true
      /\ refrigerant_emissions l1
         = (total_leak_kg l1 + eol_leak_kg l1) * 675.00000000000034
      /\ refrigerant_emissions l2
         = (total_leak_kg l1 + eol_leak_kg l1) * 675.00000000000045
      /\ (refrigerant_emissions l1 <? refrigerant_emissions l2) = false)
  /\ (exists l1 l2,
        calc_baseline_direct_locals reference_system 1e308 15 5 = Ok l1
        /\ calc_baseline_direct_locals reference_system 1.5e308 15 5 = Ok l2
        /\ (0 <? total_leak_kg l1 + eol_leak_kg l1) = true
        /\ (1e308 <? 1.5e308) = true
        /\ refrigerant_emissions l1 = infinity
        /\ refrigerant_emissions l2 = infinity
        /\ (refrigerant_emissions l1 <? refrigerant_emissions l2) = false).
Proof.
  split; eexists; eexists; (split; [reflexivity|]); (split; [reflexivity|]);
    repeat split; vm_compute; reflexivity.
Qed.

(** ** Zero refrigerant charge *)

Lemma py_max_zero x : (x =? 0) = true -> (py_max x 0 =? 0) = true.
Proof. intros H. unfold py_max. rewrite (zero_not_lt_zero x H). exact H. Qed.

(** C10: with a zero refrigerant charge and finite inputs the leak,
    end-of-life and reclaimed-credit terms are all zero and
    [calc_baseline_direct] returns a value equal to
    material_weight_kg * embodied_factor; it is that very float whenever the
    embodied term is not a zero (a zero may differ in sign only). *)
Theorem zero_charge_only_embodied system gwp life emb :
  (refrigerant_charge_kg system =? 0) = true ->
  is_finite (annual_leak_rate_pct system) = true ->
  is_finite (eol_loss_pct system) = true ->
  is_finite (reclaimed_refrigerant_pct system) = true ->
  is_finite gwp = true -> is_finite life = true ->
  is_finite (material_weight_kg system) = true -> is_finite emb = true ->
  exists l v,
    calc_baseline_direct_locals system gwp life emb = Ok l
    /\ calc_baseline_direct system gwp life emb = Ok v
    /\ (total_leak_kg l =? 0) = true
    /\ (eol_leak_kg l =? 0) = true
    /\ (refrigerant_emissions l =? 0) = true
    /\ (reclaimed_credit l =? 0) = true
    /\ (v =? material_weight_kg system * emb) = true
    /\ ((material_weight_kg system * emb =? 0) = false ->
        v = material_weight_kg system * emb).
Proof.
  intros Hc Hl He Hr Hg Hy Hm Hf.
  unfold calc_baseline_direct, calc_baseline_direct_locals, py_truediv.
  cbn [bind]. change (100.0 =? 0) with false. cbv iota. cbn [bind].
  eexists. eexists. split; [reflexivity|]. split; [reflexivity|].
  cbn [total_leak_kg eol_leak_kg refrigerant_emissions reclaimed_credit embodied].
  set (c := refrigerant_charge_kg system) in *.
  pose proof (div_100_finite _ Hl) as Fl.
  pose proof (div_100_finite _ He) as Fe.
  pose proof (div_100_finite _ Hr) as Fr.
  assert (Ha : (c * (annual_leak_rate_pct system / 100) =? 0) = true)
    by (apply mul_zero_l; assumption).
  assert (Ht : (c * (annual_leak_rate_pct system / 100) * life =? 0) = true)
    by (apply mul_zero_l; assumption).
  assert (Hx : (c - c * (annual_leak_rate_pct system / 100) * life =? 0) = true)
    by (apply sub_zero_zero; assumption).
  pose proof (py_max_zero _ Hx) as Hrem.
  set (rem := py_max (c - c * (annual_leak_rate_pct system / 100) * life) 0) in *.
  assert (Heol : (rem * (eol_loss_pct system / 100) =? 0) = true)
    by (apply mul_zero_l; assumption).
  assert (Hem : ((c * (annual_leak_rate_pct system / 100) * life
                  + rem * (eol_loss_pct system / 100)) * gwp =? 0) = true).
  { apply mul_zero_l; [|assumption]. apply add_zero_zero; assumption. }
  assert (Hcr : (c * (reclaimed_refrigerant_pct system / 100) * gwp * (-0.5) =? 0)
                = true).
  { apply mul_zero_l; [|reflexivity]. apply mul_zero_l; [|assumption].
    apply mul_zero_l; assumption. }
  assert (Hs : ((c * (annual_leak_rate_pct system / 100) * life
                  + rem * (eol_loss_pct system / 100)) * gwp
                 + c * (reclaimed_refrigerant_pct system / 100) * gwp * (-0.5)
                 =? 0) = true)
    by (apply add_zero_zero; assumption).
  pose proof (mul_not_nan _ _ Hm Hf) as Nemb.
  repeat split; try assumption.
  - apply add_zero_l; assumption.
  - intros Hnz. apply add_zero_l_exact; assumption.
Qed.

Lemma zero_charge_only_embodied_witness :
  exists l v,
    calc_baseline_direct_locals zero_charge_system 675 15 5 = Ok l
    /\ calc_baseline_direct zero_charge_system 675 15 5 = Ok v
    /\ (total_leak_kg l =? 0) = true
    /\ (eol_leak_kg l =? 0) = true
    /\ (refrigerant_emissions l =? 0) = true
    /\ (reclaimed_credit l =? 0) = true
    /\ v = 700.
Proof.
  destruct (zero_charge_only_embodied zero_charge_system 675 15 5
              eq_refl eq_refl eq_refl eq_refl eq_refl eq_refl eq_refl eq_refl)
    as (l & v & H1 & H2 & H3 & H4 & H5 & H6 & _ & H8).
  exists l, v. repeat split; try assumption.
  exact (H8 eq_refl).
Defined.

(** ** The refrigerant left at end of life *)

(** The annual leak mass of a finite non-negative charge at a leak rate
    between 0 and 100 percent is finite. *)
Lemma annual_leak_finite c p :
  is_finite c = true -> (0 <=? c) = true ->
  (0 <=? p) = true -> (p <=? 100) = true ->
  is_finite (c * (p / 100)) = true.
Proof.
  intros Fc Hc Hp Hp100.
  pose proof (div_100_nonneg p Hp) as F1.
  pose proof (div_100_le_one p Hp Hp100) as F2.
  assert (Ff : is_finite (p / 100) = true)
    by (apply (leb_bounds_finite _ 1); [assumption | assumption | reflexivity]).
  destruct (nonneg_cases c Hc) as [Z|P].
  - apply is_zero_finite. apply mul_zero_l; assumption.
  - apply (leb_bounds_finite _ c); [| | assumption].
    + apply (leb_trans _ (c * 0)).
      * apply eqb_zero_leb. apply mul_zero_r; [assumption | reflexivity].
      * apply mul_mono; assumption.
    + rewrite <- (mul_one c Fc) at 2. apply mul_mono; assumption.
Qed.

(** C7: for a finite non-negative charge, a non-negative annual leak rate
    that is at most 100 percent or, more generally, whose annual leak mass
    charge_kg * (annual_leak_pct / 100) is finite, a finite end-of-life loss
    and a finite lifetime, the local [remaining_kg] is at least 0; and when
    the annual leak rate is 0 the local [total_leak_kg] is 0 and
    [eol_leak_kg] equals charge_kg * (eol_loss_pct / 100). *)
Theorem remaining_charge_nonneg system gwp life emb l :
  calc_baseline_direct_locals system gwp life emb = Ok l ->
  is_finite (refrigerant_charge_kg system) = true ->
  (0 <=? refrigerant_charge_kg system) = true ->
  (0 <=? annual_leak_rate_pct system) = true ->
  (annual_leak_rate_pct system <=? 100) = true
  \/ is_finite (refrigerant_charge_kg system
                * (annual_leak_rate_pct system / 100)) = true ->
  is_finite (eol_loss_pct system) = true ->
  is_finite life = true ->
  (0 <=? remaining_kg l) = true
  /\ ((annual_leak_rate_pct system =? 0) = true ->
      (total_leak_kg l =? 0) = true
      /\ (eol_leak_kg l
          =? refrigerant_charge_kg system * (eol_loss_pct system / 100)) = true).
Proof.
  unfold calc_baseline_direct_locals, py_truediv. cbn [bind].
  change (100.0 =? 0) with false. cbv iota. cbn [bind].
  intros [= <-] Fc Hc Hp Hleak Fe Fl.
  cbn [remaining_kg total_leak_kg eol_leak_kg].
  set (c := refrigerant_charge_kg system) in *.
  set (p := annual_leak_rate_pct system) in *.
  assert (Fa : is_finite (c * (p / 100)) = true)
    by (destruct Hleak as [Hp100 | Fa];
        [apply annual_leak_finite; assumption | exact Fa]).
  pose proof (mul_not_nan _ _ Fa Fl) as Nt.
  pose proof (sub_not_nan c _ Fc Nt) as Nx.
  split.
  - unfold py_max.
    destruct (c - c * (p / 100) * life <? 0) eqn:E; [reflexivity|].
    apply not_lt_zero_nonneg; assumption.
  - intros Hp0.
    assert (Zt : (c * (p / 100) * life =? 0) = true).
    { apply mul_zero_l; [|assumption].
      apply mul_zero_r; [assumption | apply div_100_zero; assumption]. }
    split; [assumption|].
    pose proof (sub_zero_r c _ Fc Zt) as Ex.
    unfold py_max. rewrite (eqb_ltb_compat _ _ 0 Ex), (leb_ltb_false _ _ Hc).
    apply eqb_mul_compat; [assumption | | apply div_100_finite; assumption].
    apply (eqb_finite _ c); assumption.
Qed.

Lemma remaining_charge_nonneg_witness :
  exists l,
    calc_baseline_direct_locals no_leak_system 675 15 5 = Ok l
    /\ (0 <=? remaining_kg l) = true
    /\ (total_leak_kg l =? 0) = true
    /\ (eol_leak_kg l =? 3.0 * (85 / 100)) = true.
Proof.
  eexists. split; [reflexivity|].
  destruct (remaining_charge_nonneg no_leak_system 675 15 5 _ eq_refl
              eq_refl eq_refl eq_refl (or_introl eq_refl) eq_refl eq_refl)
    as [H1 H2].
  destruct (H2 eq_refl) as [H3 H4].
  split; [exact H1 | split; [exact H3 | exact H4]].
Defined.

(** The finiteness of the annual leak mass cannot be dropped: with a leak
    rate of 200 percent a year, outside the percentage range, on a charge of
    1e308 kg the annual leak mass overflows; a zero lifetime then makes the
    total leak NaN, and [remaining_kg] with it. *)
Lemma remaining_nan_on_overflow :
  exists l,
    calc_baseline_direct_locals overflow_system 675 0 5 = Ok l
    /\ is_finite (refrigerant_charge_kg overflow_system
                  * (annual_leak_rate_pct overflow_system / 100)) = false
    /\ is_nan (remaining_kg l) = true
    /\ (0 <=? remaining_kg l) = false.
Proof.
  eexists. split; [reflexivity|]. repeat split; vm_compute; reflexivity.
Qed.

(** * Further properties *)

(** ** Locals of the direct baseline *)

Lemma calc_baseline_direct_locals_eq system gwp life emb :
  calc_baseline_direct_locals system gwp life emb
  = let c := refrigerant_charge_kg system in
    let t := c * (annual_leak_rate_pct system / 100) * life in
    let r := py_max (c - t) 0 in
    let e := r * (eol_loss_pct system / 100) in
    Ok {| total_leak_kg := t;
          remaining_kg := r;
          eol_leak_kg := e;
          refrigerant_emissions := (t + e) * gwp;
          reclaimed_credit :=
            c * (reclaimed_refrigerant_pct system / 100) * gwp * (-0.5);
          embodied := material_weight_kg system * emb |}.
Proof. reflexivity. Qed.

(** A finite non-negative value times a fraction between 0 and 1 lies between
    0 and the value. *)
Lemma mul_frac_bounds r f :
  is_finite r = true -> (0 <=? r) = true ->
  (0 <=? f) = true -> (f <=? 1) = true ->
  (0 <=? r * f) = true /\ (r * f <=? r) = true.
Proof.
  intros Fr Hr Hf Hf1.
  assert (Ff : is_finite f = true)
    by (apply (leb_bounds_finite _ 1); [assumption | assumption | reflexivity]).
  split; [apply mul_nonneg; assumption|].
  destruct (nonneg_cases r Hr) as [Z|P].
  - apply (leb_trans _ 0); [|assumption].
    apply eqb_zero_leb, mul_zero_l; assumption.
  - rewrite <- (mul_one r Fr) at 2. apply mul_mono; assumption.
Qed.

Lemma pct_frac_bounds p :
  (0 <=? p) = true -> (p <=? 100) = true ->
  (0 <=? p / 100) = true /\ (p / 100 <=? 1) = true
  /\ is_finite (p / 100) = true.
Proof.
  intros H0 H1.
  pose proof (div_100_nonneg p H0) as A.
  pose proof (div_100_le_one p H0 H1) as B.
  repeat split; try assumption.
  apply (leb_bounds_finite _ 1); [assumption | assumption | reflexivity].
Qed.

(** The mass leaked over the lifetime is non-negative and not NaN. *)
Lemma total_leak_nonneg c p life :
  is_finite c = true -> (0 <=? c) = true ->
  (0 <=? p) = true -> (p <=? 100) = true ->
  is_finite life = true -> (0 <=? life) = true ->
  (0 <=? c * (p / 100) * life) = true.
Proof.
  intros Fc Hc Hp Hp1 Fl Hl.
  destruct (pct_frac_bounds p Hp Hp1) as (A & B & F).
  apply mul_nonneg; [apply annual_leak_finite | | apply mul_nonneg |];
    assumption.
Qed.

(** The clamped remainder lies between 0 and the charge. *)
Lemma remaining_bounds c t :
  is_finite c = true -> (0 <=? c) = true -> (0 <=? t) = true ->
  (0 <=? py_max (c - t) 0) = true /\ (py_max (c - t) 0 <=? c) = true.
Proof.
  intros Fc Hc Ht. unfold py_max.
  destruct (c - t <? 0) eqn:E.
  - split; [reflexivity | assumption].
  - split; [|apply sub_le_self; assumption].
    apply not_lt_zero_nonneg; [assumption|].
    apply sub_not_nan; [assumption|].
    apply (leb_not_nan 0 t Ht).
Qed.

(** X1: for a finite non-negative charge, leak and end-of-life percentages
    between 0 and 100 and a finite non-negative lifetime, the locals of
    [calc_baseline_direct] are ordered
    0 <= eol_leak_kg <= remaining_kg <= refrigerant_charge_kg, and
    total_leak_kg is non-negative. *)
Theorem leak_masses_ordered system gwp life emb l :
  calc_baseline_direct_locals system gwp life emb = Ok l ->
  is_finite (refrigerant_charge_kg system) = true ->
  (0 <=? refrigerant_charge_kg system) = true ->
  (0 <=? annual_leak_rate_pct system) = true ->
  (annual_leak_rate_pct system <=? 100) = true ->
  (0 <=? eol_loss_pct system) = true ->
  (eol_loss_pct system <=? 100) = true ->
  is_finite life = true -> (0 <=? life) = true ->
  (0 <=? total_leak_kg l) = true
  /\ (0 <=? eol_leak_kg l) = true
  /\ (eol_leak_kg l <=? remaining_kg l) = true
  /\ (remaining_kg l <=? refrigerant_charge_kg system) = true.
Proof.
  rewrite calc_baseline_direct_locals_eq. cbv zeta.
  intros [= <-] Fc Hc Hp Hp1 He He1 Fl Hl.
  cbn [total_leak_kg eol_leak_kg remaining_kg].
  set (c := refrigerant_charge_kg system) in *.
  pose proof (total_leak_nonneg c _ life Fc Hc Hp Hp1 Fl Hl) as Ht.
  destruct (remaining_bounds c _ Fc Hc Ht) as [R0 R1].
  destruct (pct_frac_bounds _ He He1) as (E0 & E1 & _).
  assert (Fr : is_finite (py_max (c - c * (annual_leak_rate_pct system / 100)
                                        * life) 0) = true)
    by (apply (leb_bounds_finite _ c); assumption).
  destruct (mul_frac_bounds _ _ Fr R0 E0 E1) as [M0 M1].
  repeat split; assumption.
Qed.

Lemma leak_masses_ordered_witness :
  (0 <=? 1.7999999999999998) = true
  /\ (0 <=? 1.02) = true
  /\ (1.02 <=? 1.2000000000000002) = true
  /\ (1.2000000000000002 <=? 3.0) = true.
Proof.
  apply (leak_masses_ordered reference_system 675 15 5
           {| total_leak_kg := 1.7999999999999998;
              remaining_kg := 1.2000000000000002;
              eol_leak_kg := 1.02;
              refrigerant_emissions := 1903.5;
              reclaimed_credit := (-0);
              embodied := 700 |});
    vm_compute; reflexivity.
Defined.

(** X2: under the same conditions the clamp of [remaining_kg] acts exactly
    when the lifetime leak exceeds the charge.  Then remaining_kg is 0,
    eol_leak_kg is zero and refrigerant_emissions is exactly
    total_leak_kg * refrigerant_gwp, the emissions of more refrigerant than
    the system holds.  When the lifetime leak is at most the charge,
    remaining_kg is the difference charge - total_leak_kg. *)
Theorem remaining_clamp system gwp life emb l :
  calc_baseline_direct_locals system gwp life emb = Ok l ->
  is_finite (refrigerant_charge_kg system) = true ->
  (0 <=? refrigerant_charge_kg system) = true ->
  (0 <=? annual_leak_rate_pct system) = true ->
  (annual_leak_rate_pct system <=? 100) = true ->
  is_finite (eol_loss_pct system) = true ->
  is_finite life = true -> (0 <=? life) = true ->
  ((refrigerant_charge_kg system <? total_leak_kg l) = true ->
   remaining_kg l = 0
   /\ (eol_leak_kg l =? 0) = true
   /\ refrigerant_emissions l = total_leak_kg l * gwp)
  /\ ((total_leak_kg l <=? refrigerant_charge_kg system) = true ->
      remaining_kg l = refrigerant_charge_kg system - total_leak_kg l).
Proof.
  rewrite calc_baseline_direct_locals_eq. cbv zeta.
  intros [= <-] Fc Hc Hp Hp1 Fe Fl Hl.
  cbn [total_leak_kg eol_leak_kg remaining_kg refrigerant_emissions].
  set (c := refrigerant_charge_kg system) in *.
  set (t := c * (annual_leak_rate_pct system / 100) * life).
  assert (Ht : (0 <=? t) = true) by (apply total_leak_nonneg; assumption).
  split.
  - intros Lt.
    assert (R : py_max (c - t) 0 = 0)
      by (unfold py_max; rewrite (sub_neg_of_lt c t Fc Hc Lt); reflexivity).
    rewrite R.
    assert (Z : (0 * (eol_loss_pct system / 100) =? 0) = true)
      by (apply mul_zero_l; [reflexivity | apply div_100_finite; assumption]).
    repeat split; [assumption|].
    rewrite add_zero_r_exact; [reflexivity | assumption | |].
    + apply ltb_neq_zero. apply (leb_ltb_trans _ c); assumption.
    + apply (ltb_not_nan c t Lt).
  - intros Le. unfold py_max.
    rewrite (sub_not_neg_of_le c t Fc Ht Le). reflexivity.
Qed.

Lemma remaining_clamp_witness : 0 = 0 /\ (0 =? 0) = true
  /\ 3037.5000000000005 = 4.5000000000000009 * 675.
Proof.
  apply (proj1 (remaining_clamp fully_leaked_system 675 15 5
           {| total_leak_kg := 4.5000000000000009;
              remaining_kg := 0;
              eol_leak_kg := 0;
              refrigerant_emissions := 3037.5000000000005;
              reclaimed_credit := (-405.00000000000006);
              embodied := 700 |}
           eq_refl eq_refl eq_refl eq_refl eq_refl eq_refl eq_refl eq_refl));
    reflexivity.
Defined.

(** ** Signs of the three terms of the direct baseline *)

Lemma reclaimed_credit_zero c p gwp :
  is_finite c = true -> is_finite gwp = true -> (p =? 0) = true ->
  (c * (p / 100) * gwp * (-0.5) =? 0) = true.
Proof.
  intros Fc Fg Hp.
  apply mul_zero_l; [|reflexivity].
  apply mul_zero_l; [|assumption].
  apply mul_zero_r; [assumption | apply div_100_zero; assumption].
Qed.

(** X3: for a finite non-negative charge, percentages between 0 and 100, a
    finite non-negative lifetime, a finite positive GWP and a finite
    non-negative material weight and embodied factor, the locals
    refrigerant_emissions and embodied are non-negative and reclaimed_credit
    is non-positive: the credit is the only term that can lower the direct
    baseline.  With no reclaimed refrigerant the credit is zero and the sum
    that [calc_baseline_direct] returns is non-negative. *)
Theorem direct_terms_signs system gwp life emb l :
  calc_baseline_direct_locals system gwp life emb = Ok l ->
  is_finite (refrigerant_charge_kg system) = true ->
  (0 <=? refrigerant_charge_kg system) = true ->
  (0 <=? annual_leak_rate_pct system) = true ->
  (annual_leak_rate_pct system <=? 100) = true ->
  (0 <=? eol_loss_pct system) = true ->
  (eol_loss_pct system <=? 100) = true ->
  (0 <=? reclaimed_refrigerant_pct system) = true ->
  (reclaimed_refrigerant_pct system <=? 100) = true ->
  is_finite life = true -> (0 <=? life) = true ->
  is_finite gwp = true -> (0 <? gwp) = true ->
  is_finite (material_weight_kg system) = true ->
  (0 <=? material_weight_kg system) = true ->
  is_finite emb = true -> (0 <=? emb) = true ->
  (0 <=? refrigerant_emissions l) = true
  /\ (reclaimed_credit l <=? 0) = true
  /\ (0 <=? embodied l) = true
  /\ ((reclaimed_refrigerant_pct system =? 0) = true ->
      (reclaimed_credit l =? 0) = true
      /\ calc_baseline_direct system gwp life emb
         = Ok (refrigerant_emissions l + reclaimed_credit l + embodied l)
      /\ (0 <=? refrigerant_emissions l + reclaimed_credit l + embodied l)
         = true).
Proof.
  unfold calc_baseline_direct.
  rewrite calc_baseline_direct_locals_eq. cbv zeta.
  intros [= <-] Fc Hc Hp Hp1 He He1 Hq Hq1 Fl Hl Fg Hg Fm Hm Ff Hf.
  cbn [bind refrigerant_emissions reclaimed_credit embodied].
  set (c := refrigerant_charge_kg system) in *.
  set (t := c * (annual_leak_rate_pct system / 100) * life).
  assert (Ht : (0 <=? t) = true) by (apply total_leak_nonneg; assumption).
  destruct (remaining_bounds c t Fc Hc Ht) as [R0 R1].
  destruct (pct_frac_bounds _ He He1) as (E0 & E1 & _).
  assert (Fr : is_finite (py_max (c - t) 0) = true)
    by (apply (leb_bounds_finite _ c); assumption).
  destruct (mul_frac_bounds _ _ Fr R0 E0 E1) as [M0 M1].
  assert (Em : (0 <=? (t + py_max (c - t) 0 * (eol_loss_pct system / 100))
                      * gwp) = true)
    by (apply mul_nonneg_pos; [apply add_nonneg | |]; assumption).
  assert (Eb : (0 <=? material_weight_kg system * emb) = true)
    by (apply mul_nonneg; assumption).
  destruct (pct_frac_bounds _ Hq Hq1) as (Q0 & Q1 & FQ).
  repeat split; try assumption.
  - apply mul_nonneg_neg; [|reflexivity | reflexivity].
    apply mul_nonneg_pos; [|assumption | assumption].
    apply mul_nonneg; assumption.
  - apply reclaimed_credit_zero; assumption.
  - apply add_nonneg; [|assumption].
    apply add_nonneg; [assumption|].
    apply eqb_zero_leb, reclaimed_credit_zero; assumption.
Qed.

Lemma direct_terms_signs_witness :
  (0 <=? 1903.5) = true /\ (-0 <=? 0) = true /\ (0 <=? 700) = true.
Proof.
  pose proof (direct_terms_signs reference_system 675 15 5
           {| total_leak_kg := 1.7999999999999998;
              remaining_kg := 1.2000000000000002;
              eol_leak_kg := 1.02;
              refrigerant_emissions := 1903.5;
              reclaimed_credit := (-0);
              embodied := 700 |}
           eq_refl eq_refl eq_refl eq_refl eq_refl eq_refl eq_refl eq_refl
           eq_refl eq_refl eq_refl eq_refl eq_refl eq_refl eq_refl eq_refl
           eq_refl) as (A & B & C & _).
  repeat split; assumption.
Defined.

(** ** Indirect baseline at zero capacity *)



(** ** Range and monotonicity of the correction factors *)

(** X5: the direct multiplier is antitone in the reclaimed percentage and
    monotone in the unit volume: with the other features fixed, a record
    with at least as much reclaimed refrigerant and at most as much volume
    never has the larger multiplier. *)
Theorem build_direct_cf_monotone r r' v v' u l s :
  (r <=? r') = true -> (v <=? v') = true ->
  (build_direct_cf
     {| reclaimed_per_unit_pct := r'; unit_volume_cuft := v;
        manufactured_in_usa := u; leak_detectors := l;
        refrigerant_safety_class := s |}
   <=? build_direct_cf
         {| reclaimed_per_unit_pct := r; unit_volume_cuft := v';
            manufactured_in_usa := u; leak_detectors := l;
            refrigerant_safety_class := s |}) = true.
Proof.
  intros Hr Hv.
  pose proof (fun H => leb_trans 50 r r' H Hr) as R50.
  pose proof (fun H => leb_trans 20 r r' H Hr) as R20.
  pose proof (fun H => leb_trans v v' 6 Hv H) as V6.
  pose proof (fun H => leb_trans v v' 10 Hv H) as V10.
  unfold build_direct_cf, reclaimed_block, volume_block, usa_block, leak_block,
    safety_block.
  cbn [reclaimed_per_unit_pct unit_volume_cuft manufactured_in_usa
       leak_detectors refrigerant_safety_class].
  repeat match goal with
         | |- context [if ?b then _ else _] => destruct b eqn:?
         end;
    first [ vm_compute; reflexivity
          | discriminate (R50 eq_refl) | discriminate (R20 eq_refl)
          | discriminate (V6 eq_refl) | discriminate (V10 eq_refl) ].
Qed.

Lemma build_direct_cf_monotone_witness :
  (build_direct_cf
     {| reclaimed_per_unit_pct := 60; unit_volume_cuft := 5;
        manufactured_in_usa := true; leak_detectors := false;
        refrigerant_safety_class := "3"%string |}
   <=? build_direct_cf
         {| reclaimed_per_unit_pct := 10; unit_volume_cuft := 12;
            manufactured_in_usa := true; leak_detectors := false;
            refrigerant_safety_class := "3"%string |}) = true.
Proof.
  apply (build_direct_cf_monotone 10 60 5 12 true false "3" eq_refl eq_refl).
Defined.

(** X7: for every feature record the indirect multiplier lies between
    0.85553999999999997 (variable compressor, demand flexibility and
    connected thermostat together) and 1.0, and both ends are reached. *)
Theorem build_indirect_cf_bounds :
  (forall cf,
      (0.85553999999999997 <=? build_indirect_cf cf) = true
      /\ (build_indirect_cf cf <=? 1.0) = true)
  /\ build_indirect_cf indirect_all_discounts = 0.85553999999999997
  /\ build_indirect_cf indirect_neutral = 1.0.
Proof.
  split; [| split; vm_compute; reflexivity].
  intros cf.
  unfold build_indirect_cf, compressor_block, demand_flex_block,
    thermostat_block.
  cf_cases; split; vm_compute; reflexivity.
Qed.

(** ** Normalisation of the string features *)

Lemma upper_lower_char c : Str.upper_char (Str.lower_char c) = Str.upper_char c.
Proof. destruct c as [[] [] [] [] [] [] [] []]; reflexivity. Qed.

Lemma lower_upper_char c : Str.lower_char (Str.upper_char c) = Str.lower_char c.
Proof. destruct c as [[] [] [] [] [] [] [] []]; reflexivity. Qed.

Lemma isspace_upper_char c : Str.isspace (Str.upper_char c) = Str.isspace c.
Proof. destruct c as [[] [] [] [] [] [] [] []]; reflexivity. Qed.

Lemma isspace_lower_char c : Str.isspace (Str.lower_char c) = Str.isspace c.
Proof. destruct c as [[] [] [] [] [] [] [] []]; reflexivity. Qed.

Lemma map_map_ext f g h s :
  (forall c, f (g c) = h c) -> Str.map f (Str.map g s) = Str.map h s.
Proof.
  intros H. induction s as [|c s IH]; cbn; [reflexivity|].
  rewrite H, IH. reflexivity.
Qed.

Lemma map_app f s t :
  Str.map f (s ++ t)%string = (Str.map f s ++ Str.map f t)%string.
Proof.
  induction s as [|c s IH]; cbn; [reflexivity|]. rewrite IH. reflexivity.
Qed.

Lemma all_space_map f s :
  (forall c, Str.isspace (f c) = Str.isspace c) ->
  all_space (Str.map f s) = all_space s.
Proof.
  intros H. induction s as [|c s IH]; cbn; [reflexivity|].
  rewrite H, IH. reflexivity.
Qed.

Lemma lstrip_map f s :
  (forall c, Str.isspace (f c) = Str.isspace c) ->
  Str.lstrip (Str.map f s) = Str.map f (Str.lstrip s).
Proof.
  intros H. induction s as [|c s IH]; cbn; [reflexivity|].
  rewrite H. destruct (Str.isspace c); [exact IH | reflexivity].
Qed.

Lemma rstrip_map f s :
  (forall c, Str.isspace (f c) = Str.isspace c) ->
  Str.rstrip (Str.map f s) = Str.map f (Str.rstrip s).
Proof.
  intros H. induction s as [|c s IH]; cbn; [reflexivity|].
  rewrite IH, H.
  destruct (Str.rstrip s); cbn; [destruct (Str.isspace c)|]; reflexivity.
Qed.

Lemma strip_map f s :
  (forall c, Str.isspace (f c) = Str.isspace c) ->
  Str.strip (Str.map f s) = Str.map f (Str.strip s).
Proof.
  intros H. unfold Str.strip. rewrite lstrip_map, rstrip_map by assumption.
  reflexivity.
Qed.

Lemma lstrip_all_space ws s :
  all_space ws = true -> Str.lstrip (ws ++ s)%string = Str.lstrip s.
Proof.
  induction ws as [|c ws IH]; cbn; [reflexivity|].
  intros H. apply andb_prop in H as [-> H]. auto.
Qed.

Lemma rstrip_all_space ws : all_space ws = true -> Str.rstrip ws = EmptyString.
Proof.
  induction ws as [|c ws IH]; cbn; [reflexivity|].
  intros H. apply andb_prop in H as [-> H]. rewrite IH by assumption.
  reflexivity.
Qed.

Lemma rstrip_app_all_space s ws :
  all_space ws = true -> Str.rstrip (s ++ ws)%string = Str.rstrip s.
Proof.
  intros H. induction s as [|c s IH]; cbn.
  - apply rstrip_all_space; assumption.
  - rewrite IH. reflexivity.
Qed.

Lemma lstrip_app s t :
  Str.lstrip (s ++ t)%string
  = if all_space s then Str.lstrip t else (Str.lstrip s ++ t)%string.
Proof.
  induction s as [|c s IH]; cbn; [reflexivity|].
  destruct (Str.isspace c); cbn; [exact IH | reflexivity].
Qed.

Lemma lstrip_of_all_space s : all_space s = true -> Str.lstrip s = EmptyString.
Proof.
  induction s as [|c s IH]; cbn; [reflexivity|].
  intros H. apply andb_prop in H as [-> H]. auto.
Qed.

(** Surrounding white space does not survive [strip]. *)
Lemma strip_padded ws1 s ws2 :
  all_space ws1 = true -> all_space ws2 = true ->
  Str.strip (ws1 ++ s ++ ws2)%string = Str.strip s.
Proof.
  intros H1 H2. unfold Str.strip.
  rewrite lstrip_all_space by assumption.
  rewrite lstrip_app. destruct (all_space s) eqn:E.
  - rewrite (lstrip_of_all_space s E), (lstrip_of_all_space ws2 H2).
    reflexivity.
  - apply rstrip_app_all_space; assumption.
Qed.

(** The safety class is compared after [strip] and [upper]: surrounding
    white space and letter case do not change the direct multiplier. *)
Lemma safety_normal_form_padded ws1 s ws2 :
  all_space ws1 = true -> all_space ws2 = true ->
  Str.upper (Str.strip (ws1 ++ s ++ ws2)%string) = Str.upper (Str.strip s).
Proof. intros H1 H2. rewrite strip_padded by assumption. reflexivity. Qed.

Lemma safety_normal_form_lower s :
  Str.upper (Str.strip (Str.lower s)) = Str.upper (Str.strip s).
Proof.
  unfold Str.lower, Str.upper.
  rewrite strip_map by exact isspace_lower_char.
  apply map_map_ext. exact upper_lower_char.
Qed.

Lemma safety_normal_form_upper s :
  Str.upper (Str.strip (Str.upper s)) = Str.upper (Str.strip s).
Proof.
  unfold Str.upper.
  rewrite strip_map by exact isspace_upper_char.
  apply map_map_ext. intros c. rewrite <- (upper_lower_char (Str.upper_char c)).
  rewrite lower_upper_char. apply upper_lower_char.
Qed.

Lemma build_direct_cf_safety r v u l s s' :
  Str.upper (Str.strip s) = Str.upper (Str.strip s') ->
  build_direct_cf
    {| reclaimed_per_unit_pct := r; unit_volume_cuft := v;
       manufactured_in_usa := u; leak_detectors := l;
       refrigerant_safety_class := s |}
  = build_direct_cf
      {| reclaimed_per_unit_pct := r; unit_volume_cuft := v;
         manufactured_in_usa := u; leak_detectors := l;
         refrigerant_safety_class := s' |}.
Proof.
  intros H. unfold build_direct_cf, safety_block.
  cbn [refrigerant_safety_class]. rewrite H. reflexivity.
Qed.

(** X6: [build_direct_cf] reads the safety class up to surrounding white
    space and letter case: padding the class with white space on either
    side, lowercasing it or uppercasing it leaves the multiplier
    unchanged. *)
Theorem safety_class_insensitive r v u l s ws1 ws2 :
  all_space ws1 = true -> all_space ws2 = true ->
  let mk c :=
    {| reclaimed_per_unit_pct := r; unit_volume_cuft := v;
       manufactured_in_usa := u; leak_detectors := l;
       refrigerant_safety_class := c |} in
  build_direct_cf (mk (ws1 ++ s ++ ws2)%string) = build_direct_cf (mk s)
  /\ build_direct_cf (mk (Str.lower s)) = build_direct_cf (mk s)
  /\ build_direct_cf (mk (Str.upper s)) = build_direct_cf (mk s).
Proof.
  intros H1 H2 mk. unfold mk. repeat split; apply build_direct_cf_safety.
  - apply safety_normal_form_padded; assumption.
  - apply safety_normal_form_lower.
  - apply safety_normal_form_upper.
Qed.

Lemma safety_class_insensitive_witness :
  build_direct_cf
    {| reclaimed_per_unit_pct := 0; unit_volume_cuft := 12;
       manufactured_in_usa := false; leak_detectors := false;
       refrigerant_safety_class := "  2l "%string |}
  = build_direct_cf
      {| reclaimed_per_unit_pct := 0; unit_volume_cuft := 12;
         manufactured_in_usa := false; leak_detectors := false;
         refrigerant_safety_class := "2l"%string |}.
Proof.
  apply (proj1 (safety_class_insensitive 0 12 false false "2l" "  " " "
                  eq_refl eq_refl)).
Defined.

Lemma compressor_normal_form_padded ws1 s ws2 :
  all_space ws1 = true -> all_space ws2 = true ->
  Str.strip (Str.lower (ws1 ++ s ++ ws2)%string) = Str.strip (Str.lower s).
Proof.
  intros H1 H2. unfold Str.lower. rewrite !map_app.
  apply strip_padded; rewrite all_space_map by exact isspace_lower_char;
    assumption.
Qed.

Lemma compressor_normal_form_upper s :
  Str.strip (Str.lower (Str.upper s)) = Str.strip (Str.lower s).
Proof.
  unfold Str.lower, Str.upper.
  rewrite (map_map_ext _ _ Str.lower_char) by exact lower_upper_char.
  reflexivity.
Qed.

Lemma build_indirect_cf_compressor s s' d t :
  Str.strip (Str.lower s) = Str.strip (Str.lower s') ->
  build_indirect_cf
    {| compressor_type := s; demand_flex := d; connected_thermostat := t |}
  = build_indirect_cf
      {| compressor_type := s'; demand_flex := d; connected_thermostat := t |}.
Proof.
  intros H. unfold build_indirect_cf, compressor_block.
  cbn [compressor_type]. rewrite H. reflexivity.
Qed.

(** X8: [build_indirect_cf] reads the compressor type up to surrounding
    white space and letter case. *)
Theorem compressor_type_insensitive s d t ws1 ws2 :
  all_space ws1 = true -> all_space ws2 = true ->
  let mk c :=
    {| compressor_type := c; demand_flex := d; connected_thermostat := t |} in
  build_indirect_cf (mk (ws1 ++ s ++ ws2)%string) = build_indirect_cf (mk s)
  /\ build_indirect_cf (mk (Str.upper s)) = build_indirect_cf (mk s)
  /\ build_indirect_cf (mk (Str.lower s)) = build_indirect_cf (mk s).
Proof.
  intros H1 H2 mk. unfold mk.
  repeat split; apply build_indirect_cf_compressor.
  - apply compressor_normal_form_padded; assumption.
  - apply compressor_normal_form_upper.
  - unfold Str.lower. rewrite (map_map_ext _ _ Str.lower_char); [reflexivity|].
    intros c. rewrite <- (lower_upper_char (Str.lower_char c)).
    rewrite upper_lower_char. apply lower_upper_char.
Qed.

Lemma compressor_type_insensitive_witness :
  build_indirect_cf
    {| compressor_type := " Variable  "%string; demand_flex := true;
       connected_thermostat := false |}
  = build_indirect_cf
      {| compressor_type := "Variable"%string; demand_flex := true;
         connected_thermostat := false |}.
Proof.
  apply (proj1 (compressor_type_insensitive "Variable" true false " " "  "
                  eq_refl eq_refl)).
Defined.

(** ** The computation of [main] *)

(** What [main] hands to the display widgets, field by field. *)
Lemma main_results w r :
  Main.main w = Ok r ->
  calc_baseline_direct (Main.system w) (Main.refrigerant_gwp w)
    (Main.lifetime w) (Main.embodied_factor w) = Ok (Main.base_direct r)
  /\ calc_baseline_indirect (Main.system w) (Main.lifetime w) (Main.grid w)
     = Ok (Main.base_indirect r)
  /\ Main.direct_cf_mult r = build_direct_cf (Main.d_cf_inputs w)
  /\ Main.indirect_cf_mult r = build_indirect_cf (Main.i_cf_inputs w)
  /\ Main.adj_direct r = Main.base_direct r * Main.direct_cf_mult r
  /\ Main.adj_indirect r = Main.base_indirect r * Main.indirect_cf_mult r
  /\ Main.total_lccp r = Main.adj_direct r + Main.adj_indirect r.
Proof.
  unfold Main.main.
  destruct (calc_baseline_direct _ _ _ _) as [bd|e]; [|discriminate].
  destruct (calc_baseline_indirect _ _ _) as [bi|e]; [|discriminate].
  cbn [bind]. intros [= <-]. cbn. repeat split.
Qed.

(** X9: when no feature adjusts (less than 20 percent reclaimed per unit,
    more than 10 cubic feet, both direct check boxes clear, safety class
    "1" or "2", compressor "1-stg", both indirect check boxes clear) both
    multipliers are 1.0, the adjusted values are the baselines themselves
    and the total is base_direct + base_indirect, whatever the system
    inputs are. *)
Theorem main_neutral_features w r :
  Main.main w = Ok r ->
  (20 <=? Main.d_reclaimed w) = false ->
  (Main.d_volume w <=? 10) = false ->
  Main.d_usa w = false -> Main.d_leakdet w = false ->
  Main.d_safety w = "1"%string \/ Main.d_safety w = "2"%string ->
  Main.i_comp w = "1-stg"%string ->
  Main.i_df w = false -> Main.i_ct w = false ->
  Main.direct_cf_mult r = 1.0
  /\ Main.indirect_cf_mult r = 1.0
  /\ Main.adj_direct r = Main.base_direct r
  /\ Main.adj_indirect r = Main.base_indirect r
  /\ Main.total_lccp r = Main.base_direct r + Main.base_indirect r.
Proof.
  intros H R20 V10 U D S C F T.
  destruct (main_results w r H) as (_ & _ & Ed & Ei & Ad & Ai & Et).
  assert (R50 : (50 <=? Main.d_reclaimed w) = false).
  { destruct (50 <=? Main.d_reclaimed w) eqn:E; [|reflexivity].
    rewrite <- R20. symmetry. apply (leb_trans 20 50); [reflexivity|exact E]. }
  assert (V6 : (Main.d_volume w <=? 6) = false).
  { destruct (Main.d_volume w <=? 6) eqn:E; [|reflexivity].
    rewrite <- V10. symmetry. apply (leb_trans _ 6); [exact E|reflexivity]. }
  assert (Md : Main.direct_cf_mult r = 1.0).
  { rewrite Ed. unfold build_direct_cf, reclaimed_block, volume_block,
      usa_block, leak_block, safety_block, Main.d_cf_inputs.
    cbn [reclaimed_per_unit_pct unit_volume_cuft manufactured_in_usa
         leak_detectors refrigerant_safety_class].
    rewrite R50, R20, V6, V10, U, D. destruct S as [-> | ->]; reflexivity. }
  assert (Mi : Main.indirect_cf_mult r = 1.0).
  { rewrite Ei. unfold Main.i_cf_inputs. rewrite C, F, T. reflexivity. }
  rewrite Et, Ad, Ai, Md, Mi, !mul_one_all. repeat split.
Qed.

Lemma main_neutral_features_witness :
  exists r, Main.main Main.initial = Ok r
            /\ Main.total_lccp r = Main.base_direct r + Main.base_indirect r.
Proof.
  eexists. split; [vm_compute; reflexivity|].
  apply (main_neutral_features Main.initial); try reflexivity.
  left; reflexivity.
Defined.

(** A product of a finite value and a factor between two non-negative
    bounds. *)
Lemma mul_between b lo f hi :
  is_finite b = true -> is_finite hi = true ->
  (0 <=? lo) = true -> (lo <=? f) = true -> (f <=? hi) = true ->
  ((0 <=? b) = true ->
   (b * lo <=? b * f) = true /\ (b * f <=? b * hi) = true)
  /\ ((b <? 0) = true ->
      (b * hi <=? b * f) = true /\ (b * f <=? b * lo) = true).
Proof.
  intros Fb Fhi H0 Hlo Hhi.
  assert (Hf : (0 <=? f) = true) by (apply (leb_trans _ lo); assumption).
  assert (Ff : is_finite f = true)
    by (apply (leb_bounds_finite _ hi); assumption).
  assert (Flo : is_finite lo = true)
    by (apply (leb_bounds_finite _ f); assumption).
  split.
  - intros Hb. destruct (nonneg_cases b Hb) as [Z|P].
    + pose proof (mul_zero_l b lo Z Flo) as Z1.
      pose proof (mul_zero_l b f Z Ff) as Z2.
      pose proof (mul_zero_l b hi Z Fhi) as Z3.
      split; (apply (leb_trans _ 0); apply eqb_zero_leb; assumption).
    + split; apply mul_mono; assumption.
  - intros N. split; apply mul_mono_neg; assumption.
Qed.

(** X10: the adjusted values against their baselines.  A finite
    non-negative indirect baseline is scaled to a value between
    0.85553999999999997 times the baseline and the baseline itself; a finite
    non-negative direct baseline to a value between 0.80869918499999993 and
    1.01 times the baseline; a finite negative direct baseline (a credit
    larger than emissions and embodied carbon) to a value between 1.01 and
    0.80869918499999993 times the baseline, in that order. *)
Theorem main_adjusted_bounds w r :
  Main.main w = Ok r ->
  (is_finite (Main.base_indirect r) = true ->
   (0 <=? Main.base_indirect r) = true ->
   (Main.base_indirect r * 0.85553999999999997 <=? Main.adj_indirect r) = true
   /\ (Main.adj_indirect r <=? Main.base_indirect r) = true)
  /\ (is_finite (Main.base_direct r) = true ->
      (0 <=? Main.base_direct r) = true ->
      (Main.base_direct r * 0.80869918499999993 <=? Main.adj_direct r) = true
      /\ (Main.adj_direct r <=? Main.base_direct r * 1.01) = true)
  /\ (is_finite (Main.base_direct r) = true ->
      (Main.base_direct r <? 0) = true ->
      (Main.base_direct r * 1.01 <=? Main.adj_direct r) = true
      /\ (Main.adj_direct r <=? Main.base_direct r * 0.80869918499999993)
         = true).
Proof.
  intros H.
  destruct (main_results w r H) as (_ & _ & Ed & Ei & -> & -> & _).
  rewrite Ed, Ei.
  destruct (build_direct_cf_range (Main.d_cf_inputs w)) as [D1 D2].
  assert (I : (0.85553999999999997 <=? build_indirect_cf (Main.i_cf_inputs w))
              = true
              /\ (build_indirect_cf (Main.i_cf_inputs w) <=? 1.0) = true).
  { unfold build_indirect_cf, compressor_block, demand_flex_block,
      thermostat_block.
    cf_cases; split; vm_compute; reflexivity. }
  destruct I as [I1 I2].
  split; [|split]; intros F S.
  - destruct (mul_between (Main.base_indirect r) 0.85553999999999997 _ 1.0
                F eq_refl eq_refl I1 I2) as [B _].
    destruct (B S) as [B1 B2]. rewrite mul_one_all in B2. split; assumption.
  - destruct (mul_between (Main.base_direct r) 0.80869918499999993 _ 1.01
                F eq_refl eq_refl D1 D2) as [B _].
    exact (B S).
  - destruct (mul_between (Main.base_direct r) 0.80869918499999993 _ 1.01
                F eq_refl eq_refl D1 D2) as [_ B].
    exact (B S).
Qed.

Lemma main_adjusted_bounds_witness :
  (Main.base_indirect initial_results * 0.85553999999999997
   <=? Main.adj_indirect initial_results) = true
  /\ (Main.adj_indirect initial_results <=? Main.base_indirect initial_results)
     = true.
Proof.
  apply (proj1 (main_adjusted_bounds Main.initial initial_results eq_refl));
    reflexivity.
Defined.

(** ** [main] on values the widgets can return *)

Lemma in_widget_ranges_spec w :
  Main.in_widget_ranges w = true ->
  ((10 <=? Main.lifetime w) = true /\ (Main.lifetime w <=? 25) = true)
  /\ ((0.1 <=? Main.grid w) = true /\ (Main.grid w <=? 1.5) = true)
  /\ ((1.0 <=? Main.refrigerant_gwp w) = true
      /\ (Main.refrigerant_gwp w <=? 4000.0) = true)
  /\ ((0.1 <=? Main.embodied_factor w) = true
      /\ (Main.embodied_factor w <=? 20.0) = true)
  /\ ((9000.0 <=? Main.cap w) = true /\ (Main.cap w <=? 120000.0) = true)
  /\ ((8.0 <=? Main.seer2 w) = true /\ (Main.seer2 w <=? 30.0) = true)
  /\ ((5.0 <=? Main.hspf2 w) = true /\ (Main.hspf2 w <=? 14.0) = true)
  /\ ((0.5 <=? Main.charge w) = true /\ (Main.charge w <=? 15.0) = true)
  /\ ((0 <=? Main.reclaimed_init w) = true
      /\ (Main.reclaimed_init w <=? 100) = true)
  /\ ((0 <=? Main.annual_leak w) = true /\ (Main.annual_leak w <=? 30) = true)
  /\ ((0 <=? Main.eol_loss w) = true /\ (Main.eol_loss w <=? 100) = true)
  /\ ((10.0 <=? Main.material_wt w) = true
      /\ (Main.material_wt w <=? 350.0) = true).
Proof.
  unfold Main.in_widget_ranges, Main.between.
  rewrite !andb_true_iff. tauto.
Qed.

(** [|x| <= 2 ^ K] for a value between a non-negative bound and a bound
    below [2 ^ K]. *)
Lemma abs_le_between lo x hi K :
  (-1022 <= K <= 1023)%Z ->
  (0 <=? lo) = true -> (lo <=? x) = true -> (x <=? hi) = true ->
  (hi <=? pow2 K) = true -> abs_le x K = true.
Proof.
  intros HK H0 Hlo Hhi HP.
  apply (abs_le_intro _ hi); try assumption.
  apply (leb_trans _ lo); assumption.
Qed.

(** A product with the literal 1000 on the right is at least 1 when the
    other factor is. *)
Lemma mul_1000_ge_one x : (1 <=? x) = true -> (1 <=? x * 1000) = true.
Proof.
  intros H. rewrite mul_comm.
  apply (leb_trans _ (1000 * 1)); [reflexivity|].
  apply mul_mono; [reflexivity | reflexivity | assumption].
Qed.

Ltac num := vm_compute; reflexivity.
Ltac weaken K := apply (abs_le_weaken _ K); [lia | lia | lia | ].
Ltac by_mul K1 K2 := apply (mul_abs_le _ _ K1 K2); [lia | lia | lia | | ].
Ltac by_add K := apply (add_abs_le _ _ K); [lia | lia | | ].
Ltac by_div K := apply (div_abs_le _ _ K); [lia | lia | | ].
Ltac by_between lo hi :=
  apply (abs_le_between lo _ hi); [lia | num | assumption | assumption | num].
Ltac fin K := apply (abs_le_finite _ K); [lia | assumption].

(** X11: for widget values inside the ranges that [main] gives its
    widgets, the computation raises nothing, every result it displays
    (the two baselines, the two adjusted values and the total) is a finite
    number, and the indirect baseline is non-negative. *)
Theorem main_in_widget_ranges w :
  Main.in_widget_ranges w = true ->
  exists r,
    Main.main w = Ok r
    /\ is_finite (Main.base_direct r) = true
    /\ is_finite (Main.base_indirect r) = true
    /\ is_finite (Main.adj_direct r) = true
    /\ is_finite (Main.adj_indirect r) = true
    /\ is_finite (Main.total_lccp r) = true
    /\ (0 <=? Main.base_indirect r) = true.
Proof.
  intros H.
  destruct (in_widget_ranges_spec w H) as
    ((L1 & L2) & (G1 & G2) & (W1 & W2) & (F1 & F2) & (C1 & C2) & (S1 & S2)
     & (P1 & P2) & (Q1 & Q2) & (R1 & R2) & (A1 & A2) & (E1 & E2) & (M1 & M2)).
  assert (Hs : (1 <=? Main.seer2 w) = true)
    by (apply (leb_trans _ 8.0); [num | assumption]).
  assert (Hh : (1 <=? Main.hspf2 w) = true)
    by (apply (leb_trans _ 5.0); [num | assumption]).
  assert (Zs : (Main.seer2 w =? 0) = false)
    by (apply ltb_neq_zero, (ltb_leb_trans _ 1); [num | assumption]).
  assert (Zh : (Main.hspf2 w =? 0) = false)
    by (apply ltb_neq_zero, (ltb_leb_trans _ 1); [num | assumption]).
  unfold Main.main.
  rewrite calc_baseline_direct_unfold, calc_baseline_indirect_eq.
  cbn [bind Main.system seer2 hspf2]. rewrite Zs, Zh. cbn [orb bind].
  eexists. split; [reflexivity|].
  cbn [Main.base_direct Main.base_indirect Main.adj_direct Main.adj_indirect
       Main.total_lccp].
  cbv zeta.
  cbn [Main.system capacity_btuh refrigerant_charge_kg
       reclaimed_refrigerant_pct annual_leak_rate_pct eol_loss_pct
       material_weight_kg].
  set (c := Main.charge w) in *. set (life := Main.lifetime w) in *.
  set (gwp := Main.refrigerant_gwp w) in *.
  set (cap := Main.cap w) in *. set (grid := Main.grid w) in *.
  (* magnitudes of the inputs *)
  assert (Bc : abs_le c 4 = true) by by_between 0.5 15.0.
  assert (Bl : abs_le life 5 = true) by by_between 10 25.
  assert (Bg : abs_le gwp 12 = true) by by_between 1.0 4000.0.
  assert (Bf : abs_le (Main.embodied_factor w) 5 = true)
    by by_between 0.1 20.0.
  assert (Bm : abs_le (Main.material_wt w) 9 = true)
    by by_between 10.0 350.0.
  assert (Bk : abs_le cap 17 = true) by by_between 9000.0 120000.0.
  assert (Br : abs_le grid 1 = true) by by_between 0.1 1.5.
  assert (B1000 : abs_le 1000 10 = true) by num.
  assert (B600 : abs_le 600 10 = true) by num.
  assert (Bhalf : abs_le (-0.5) 0 = true) by num.
  assert (Hc0 : (0 <=? c) = true)
    by (apply (leb_trans _ 0.5); [num | assumption]).
  assert (Fc : is_finite c = true) by fin 4%Z.
  assert (Hl0 : (0 <=? life) = true)
    by (apply (leb_trans _ 10); [num | assumption]).
  assert (Fl : is_finite life = true) by fin 5%Z.
  assert (A100 : (Main.annual_leak w <=? 100) = true)
    by (apply (leb_trans _ 30); [assumption | num]).
  (* direct baseline *)
  destruct (pct_frac_bounds _ A1 A100) as (Fa0 & Fa1 & _).
  destruct (pct_frac_bounds _ E1 E2) as (Fe0 & Fe1 & _).
  destruct (pct_frac_bounds _ R1 R2) as (Fr0 & Fr1 & _).
  assert (Ba : abs_le (Main.annual_leak w / 100) 0 = true)
    by by_between 0 1.
  assert (Be : abs_le (Main.eol_loss w / 100) 0 = true) by by_between 0 1.
  assert (Bq : abs_le (Main.reclaimed_init w / 100) 0 = true)
    by by_between 0 1.
  set (t := c * (Main.annual_leak w / 100) * life).
  assert (Bt : abs_le t 9 = true).
  { unfold t. by_mul 4%Z 5%Z; [|assumption]. by_mul 4%Z 0%Z; assumption. }
  assert (Ht : (0 <=? t) = true) by (apply total_leak_nonneg; assumption).
  destruct (remaining_bounds c t Fc Hc0 Ht) as [Rm0 Rm1].
  set (rem := py_max (c - t) 0) in *.
  assert (Brm : abs_le rem 4 = true).
  { apply (abs_le_between 0 _ c); [lia | num | assumption | assumption |].
    apply (leb_trans _ 15.0); [assumption | num]. }
  set (em := (t + rem * (Main.eol_loss w / 100)) * gwp).
  assert (Bem : abs_le em 22 = true).
  { unfold em. by_mul 10%Z 12%Z; [|assumption]. by_add 9%Z; [assumption|].
    weaken 4%Z. by_mul 4%Z 0%Z; assumption. }
  set (cr := c * (Main.reclaimed_init w / 100) * gwp * (-0.5)).
  assert (Bcr : abs_le cr 22 = true).
  { unfold cr. weaken 16%Z. by_mul 16%Z 0%Z; [|assumption].
    by_mul 4%Z 12%Z; [|assumption]. by_mul 4%Z 0%Z; assumption. }
  set (mb := Main.material_wt w * Main.embodied_factor w).
  assert (Bmb : abs_le mb 23 = true)
    by (unfold mb; weaken 14%Z; by_mul 9%Z 5%Z; assumption).
  set (bd := em + cr + mb).
  assert (Bbd : abs_le bd 24 = true)
    by (unfold bd; by_add 23%Z; [by_add 22%Z|]; assumption).
  (* indirect baseline *)
  set (cool := cap * 1000 / (Main.seer2 w * 1000)).
  set (heat := cap * 600 / (Main.hspf2 w * 1000)).
  assert (Bco : abs_le cool 28 = true).
  { unfold cool. by_div 27%Z; [|apply mul_1000_ge_one; assumption].
    by_mul 17%Z 10%Z; assumption. }
  assert (Bhe : abs_le heat 28 = true).
  { unfold heat. by_div 27%Z; [|apply mul_1000_ge_one; assumption].
    by_mul 17%Z 10%Z; assumption. }
  set (bi := (cool + heat) * grid * life).
  assert (Bbi : abs_le bi 35 = true).
  { unfold bi. by_mul 30%Z 5%Z; [|assumption]. by_mul 29%Z 1%Z; [|assumption].
    by_add 28%Z; assumption. }
  (* multipliers *)
  destruct (build_direct_cf_range (Main.d_cf_inputs w)) as [D1 D2].
  set (dcf := build_direct_cf (Main.d_cf_inputs w)) in *.
  assert (Bdc : abs_le dcf 1 = true)
    by by_between 0.80869918499999993 1.01.
  assert (Bic : abs_le (build_indirect_cf (Main.i_cf_inputs w)) 0 = true).
  { unfold build_indirect_cf, compressor_block, demand_flex_block,
      thermostat_block.
    cf_cases; vm_compute; reflexivity. }
  set (icf := build_indirect_cf (Main.i_cf_inputs w)) in *.
  assert (Bad : abs_le (bd * dcf) 35 = true)
    by (weaken 25%Z; by_mul 24%Z 1%Z; assumption).
  assert (Bai : abs_le (bi * icf) 35 = true) by (by_mul 35%Z 0%Z; assumption).
  assert (Btot : abs_le (bd * dcf + bi * icf) 36 = true)
    by (by_add 35%Z; assumption).
  (* sign of the indirect baseline *)
  assert (Hk0 : (0 <=? cap) = true)
    by (apply (leb_trans _ 9000.0); [num | assumption]).
  assert (Fk : is_finite cap = true) by fin 17%Z.
  assert (Fg : is_finite grid = true) by fin 1%Z.
  assert (Hg0 : (0 <=? grid) = true)
    by (apply (leb_trans _ 0.1); [num | assumption]).
  assert (Dv : forall h, (1 <=? h) = true -> (h <=? 30.0) = true ->
               is_finite (h * 1000) = true /\ (0 <? h * 1000) = true).
  { intros h H1 H2. split.
    - apply (abs_le_finite _ 15); [lia|]. by_mul 5%Z 10%Z; [|assumption].
      apply (abs_le_between 1 _ 30.0); [lia | num | assumption | assumption | num].
    - apply (ltb_leb_trans _ 1); [num | apply mul_1000_ge_one; assumption]. }
  destruct (Dv _ Hs S2) as [Fs Ps].
  destruct (Dv _ Hh (leb_trans _ 14.0 30.0 P2 eq_refl)) as [Fh Ph].
  assert (Hco : (0 <=? cool) = true)
    by (apply div_nonneg; [apply mul_nonneg | |]; try assumption; num).
  assert (Hhe : (0 <=? heat) = true)
    by (apply div_nonneg; [apply mul_nonneg | |]; try assumption; num).
  assert (Fco : is_finite cool = true) by fin 28%Z.
  assert (Fhe : is_finite heat = true) by fin 28%Z.
  assert (Bsum : abs_le (cool + heat) 29 = true) by (by_add 28%Z; assumption).
  assert (Hbi : (0 <=? bi) = true).
  { unfold bi. apply mul_nonneg; [| assumption | | assumption].
    - apply (abs_le_finite _ 30); [lia|]. by_mul 29%Z 1%Z; assumption.
    - apply mul_nonneg; [fin 29%Z | assumption | | assumption].
      apply add_nonneg; assumption. }
  repeat split; [fin 24%Z | fin 35%Z | fin 35%Z | fin 35%Z | fin 36%Z | assumption].
Qed.

Lemma main_in_widget_ranges_witness :
  exists r,
    Main.main Main.initial = Ok r
    /\ is_finite (Main.base_direct r) = true
    /\ is_finite (Main.base_indirect r) = true
    /\ is_finite (Main.adj_direct r) = true
    /\ is_finite (Main.adj_indirect r) = true
    /\ is_finite (Main.total_lccp r) = true
    /\ (0 <=? Main.base_indirect r) = true.
Proof. apply (main_in_widget_ranges Main.initial). reflexivity. Defined.
